(** * fix_menu_corruption.py: the repair pipeline and its properties

    A shallow embedding of the script [src/fix_menu_corruption.py].

    - A document is a Python [str], modelled as a list of characters.  A
      character is an [ascii], read as the code point of the same number
      (0 to 255); the classes [\s] and [\w] are the ones CPython uses for
      [str] patterns, restricted to that range.
    - [re.sub] is modelled by a backtracking matcher for the regular
      expression constructs the script uses (literal characters, [\s], [\s+],
      a capturing group around a greedy character class, [\b]) and by the
      left-to-right scan that replaces the non-overlapping matches.
    - [str.replace] is the left-to-right scan replacing the non-overlapping
      occurrences of a literal.
    - The script body (read, transform, conditional write, print) is written
      in a small state-and-error monad over a [world] holding the file. *)

From Stdlib Require Import Ascii String List Bool Arith Lia NArith.
Import ListNotations.

Local Open Scope list_scope.
Local Open Scope bool_scope.

(* ================================================================== *)
(** ** Characters and text *)

Definition text := list ascii.

(** A string literal as a text. *)
Definition txt (s : string) : text := list_ascii_of_string s.

Definition code (c : ascii) : N := N_of_ascii c.

Definition in_range (lo hi : N) (c : ascii) : bool :=
  (N.leb lo (code c)) && (N.leb (code c) hi).

(** The double quote character. *)
Definition dquote : ascii := ascii_of_nat 34.

(** [\s] for a [str] pattern: the characters for which [str.isspace] holds.
    Below 256 these are TAB..CR, FS..US, SPACE, NEL (0x85) and NBSP (0xA0). *)
Definition is_space (c : ascii) : bool :=
  in_range 9 13 c || in_range 28 32 c || N.eqb (code c) 133 || N.eqb (code c) 160.

Definition is_digit (c : ascii) : bool := in_range 48 57 c.
Definition is_upper (c : ascii) : bool := in_range 65 90 c.
Definition is_lower (c : ascii) : bool := in_range 97 122 c.
Definition is_hyphen (c : ascii) : bool := N.eqb (code c) 45.

(** The class [[a-zA-Z0-9]]. *)
Definition alnum (c : ascii) : bool := is_lower c || is_upper c || is_digit c.
(** The class [[a-zA-Z0-9-]]. *)
Definition alnum_hyphen (c : ascii) : bool := alnum c || is_hyphen c.
(** The class [[a-zA-Z-]]. *)
Definition alpha_hyphen (c : ascii) : bool := is_lower c || is_upper c || is_hyphen c.

(** [\w] for a [str] pattern: [str.isalnum] or the underscore.  Below 256 the
    alphanumeric code points outside ASCII are 0xAA, 0xB2, 0xB3, 0xB5, 0xB9,
    0xBA, 0xBC..0xBE, 0xC0..0xD6, 0xD8..0xF6 and 0xF8..0xFF. *)
Definition is_word (c : ascii) : bool :=
  alnum c || N.eqb (code c) 95
  || N.eqb (code c) 170 || in_range 178 179 c || N.eqb (code c) 181
  || in_range 185 186 c || in_range 188 190 c
  || in_range 192 214 c || in_range 216 246 c || in_range 248 255 c.

(** The character before the scan position, [None] at the start of the text. *)
Definition word_before (prev : option ascii) : bool :=
  match prev with Some c => is_word c | None => false end.

Definition word_after (s : text) : bool :=
  match s with c :: _ => is_word c | [] => false end.

(** [\b]: exactly one of the two neighbours is a word character. *)
Definition at_boundary (prev : option ascii) (s : text) : bool :=
  xorb (word_before prev) (word_after s).

(** The previous character after the scan has moved over [w]. *)
Definition adv (prev : option ascii) (w : text) : option ascii :=
  fold_left (fun _ c => Some c) w prev.

(* ================================================================== *)
(** ** The regular expressions of the script *)

(** The constructs that occur in the script's patterns. *)
Inductive item : Type :=
| Lit (c : ascii)              (* a literal character *)
| Cls (p : ascii -> bool)      (* one character of a class: [\s] *)
| Plus (p : ascii -> bool)     (* greedy one-or-more: [\s+] *)
| Cap (p : ascii -> bool)      (* a capturing group [([...]+)] *)
| Bnd.                         (* [\b] *)

Definition regex := list item.

Section Star.
Context {R : Type}.

(** Greedy repetition of class [p]: take a character and go on when
    possible; when the rest of the pattern fails, give the character back.
    The continuation [k] receives the text consumed here. *)
Fixpoint star (p : ascii -> bool)
         (k : text -> option ascii -> text -> option R)
         (prev : option ascii) (s : text) : option R :=
  match s with
  | c :: s' =>
      if p c then
        match star p (fun w => k (c :: w)) (Some c) s' with
        | Some r => Some r
        | None => k [] prev s
        end
      else k [] prev s
  | [] => k [] prev s
  end.

Definition plus (p : ascii -> bool)
           (k : text -> option ascii -> text -> option R)
           (prev : option ascii) (s : text) : option R :=
  match s with
  | c :: s' => if p c then star p (fun w => k (c :: w)) (Some c) s' else None
  | [] => None
  end.
End Star.

(** [mseq its caps prev s]: match the items [its] at the head of [s], the
    character before being [prev]; the result is the captured groups (in
    order) and the text left after the match. *)
Fixpoint mseq (its : regex) (caps : list text) (prev : option ascii) (s : text)
  : option (list text * text) :=
  match its with
  | [] => Some (caps, s)
  | Lit c :: r =>
      match s with
      | x :: s' => if Ascii.eqb x c then mseq r caps (Some x) s' else None
      | [] => None
      end
  | Cls p :: r =>
      match s with
      | x :: s' => if p x then mseq r caps (Some x) s' else None
      | [] => None
      end
  | Plus p :: r => plus p (fun _ => mseq r caps) prev s
  | Cap p :: r => plus p (fun w => mseq r (caps ++ [w])) prev s
  | Bnd :: r => if at_boundary prev s then mseq r caps prev s else None
  end.

(** Replacement templates: literal text and group references [\1], [\2]. *)
Inductive piece : Type :=
| TLit (t : text)
| TGrp (n : nat).

Definition template := list piece.

Definition expand (tpl : template) (caps : list text) : text :=
  flat_map (fun pc => match pc with
                      | TLit t => t
                      | TGrp n => nth (pred n) caps []
                      end) tpl.

(** [re.sub]: scan from the left; at a position where the pattern matches,
    emit the expanded template and continue after the match, otherwise copy
    the character.  [skip] counts the characters of the current match still to
    be passed over.  At the end of the text one more (empty) match is tried. *)
Fixpoint sub_from (pat : regex) (tpl : template)
         (prev : option ascii) (s : text) (skip : nat) : text :=
  match s with
  | [] =>
      match mseq pat [] prev [] with
      | Some (caps, _) => expand tpl caps
      | None => []
      end
  | c :: s' =>
      match skip with
      | S k => sub_from pat tpl (Some c) s' k
      | O =>
          match mseq pat [] prev s with
          | Some (caps, rest) =>
              if Nat.eqb (length rest) (length s)
              then expand tpl caps ++ c :: sub_from pat tpl (Some c) s' 0
              else expand tpl caps
                     ++ sub_from pat tpl (Some c) s' (length s' - length rest)
          | None => c :: sub_from pat tpl (Some c) s' 0
          end
      end
  end.

Definition re_sub (pat : regex) (tpl : template) (s : text) : text :=
  sub_from pat tpl None s 0.

(* ================================================================== *)
(** ** [str.replace] *)

Fixpoint prefixb (p s : text) : bool :=
  match p, s with
  | [], _ => true
  | a :: p', b :: s' => Ascii.eqb a b && prefixb p' s'
  | _ :: _, [] => false
  end.

Fixpoint replace_from (old new : text) (s : text) (skip : nat) : text :=
  match s with
  | [] => []
  | c :: s' =>
      match skip with
      | S k => replace_from old new s' k
      | O =>
          if prefixb old s
          then new ++ replace_from old new s' (length old - 1)
          else c :: replace_from old new s' 0
      end
  end.

(** [s.replace(old, new)]; with an empty [old] Python puts [new] before every
    character and at the end. *)
Definition replace (old new : text) (s : text) : text :=
  match old with
  | [] => new ++ flat_map (fun c => c :: new) s
  | _ :: _ => replace_from old new s 0
  end.

(* ================================================================== *)
(** ** The passes of the script, in source order *)

Definition lits (t : text) : regex := map Lit t.

(** 1. [re.sub(r'</\s+([a-zA-Z0-9]+)>', r'</\1>', content)] *)
Definition closing_tag_re : regex :=
  [Lit "<"; Lit "/"; Plus is_space; Cap alnum; Lit ">"].
Definition closing_tag_tpl : template := [TLit (txt "</"); TGrp 1; TLit (txt ">")].
Definition fix_closing_tags : text -> text := re_sub closing_tag_re closing_tag_tpl.

(** 2. [re.sub(r'<\s+([a-zA-Z0-9]+)', r'<\1', content)] *)
Definition opening_tag_re : regex := [Lit "<"; Plus is_space; Cap alnum].
Definition opening_tag_tpl : template := [TLit (txt "<"); TGrp 1].
Definition fix_opening_tags : text -> text := re_sub opening_tag_re opening_tag_tpl.

(** 3. [re.sub(r'\b([a-zA-Z0-9]+)\s-\s([a-zA-Z0-9]+)=', r'\1-\2=', content)] *)
Definition attr_hyphen_re : regex :=
  [Bnd; Cap alnum; Cls is_space; Lit "-"; Cls is_space; Cap alnum; Lit "="].
Definition attr_hyphen_tpl : template :=
  [TGrp 1; TLit (txt "-"); TGrp 2; TLit (txt "=")].
Definition fix_attr_hyphen : text -> text := re_sub attr_hyphen_re attr_hyphen_tpl.

(** 4. [re.sub(r'\b([a-zA-Z0-9-]+)\s=\s"', r'\1="', content)] *)
Definition attr_equals_re : regex :=
  [Bnd; Cap alnum_hyphen; Cls is_space; Lit "="; Cls is_space; Lit dquote].
Definition attr_equals_tpl : template := [TGrp 1; TLit [("="%char); dquote]].
Definition fix_attr_equals : text -> text := re_sub attr_equals_re attr_equals_tpl.

(** 5. The loop over [known_css_props]:
    [pattern = r'\b' + prop + r'\s-\s([a-zA-Z-]+)'] and
    [re.sub(pattern, lambda m: f"{prop}-{m.group(1)}", content)]. *)
Definition known_css_props : list text :=
  map txt ["box"; "text"; "border"; "z"; "pointer"; "background"; "margin";
           "padding"; "flex"; "grid"; "align"; "justify"; "overflow"; "font";
           "line"]%string.

Definition css_prop_tail : regex :=
  [Cls is_space; Lit "-"; Cls is_space; Cap alpha_hyphen].
Definition css_prop_re (prop : text) : regex :=
  Bnd :: lits prop ++ css_prop_tail.
Definition css_prop_tpl (prop : text) : template :=
  [TLit prop; TLit (txt "-"); TGrp 1].
Definition fix_css_prop (prop : text) : text -> text :=
  re_sub (css_prop_re prop) (css_prop_tpl prop).

Definition fix_css_props (content : text) : text :=
  fold_left (fun content prop => fix_css_prop prop content) known_css_props content.

(** 6. The loop over [prefixes], whose body is [pass]. *)
Definition prefixes : list text :=
  map txt ["mp-"; "btn-"; "progress-"; "stats-"; "settings-"; "battle-"; "map-";
           "quest-"; "achievement-"]%string.

Definition prefixes_loop (content : text) : text :=
  fold_left (fun content _prefix => content) prefixes content.

(** The [content.replace] calls on selectors and identifiers, in source order. *)
Definition selector_table : list (text * text) :=
  map (fun p => (txt (fst p), txt (snd p)))
    [ (".mp-mode - btn", ".mp-mode-btn");
      ("#mp-join - room - modal", "#mp-join-room-modal");
      ("#mp-room - details", "#mp-room-details");
      ("room - details", "room-details");
      ("mp - room", "mp-room");
      ("mp - btn", "mp-btn");
      ("mp - create", "mp-create");
      ("mp - connection", "mp-connection");
      ("mp - status", "mp-status");
      ("mp - rooms", "mp-rooms");
      ("battle - btn", "battle-btn");
      ("progress - tab", "progress-tab");
      ("progress - content", "progress-content");
      ("progress - level", "progress-level");
      ("progress - stat", "progress-stat");
      ("progress - bonus", "progress-bonus");
      ("progress - next", "progress-next");
      ("progress - xp", "progress-xp");
      ("quest - card", "quest-card");
      ("quest - header", "quest-header");
      ("quest - name", "quest-name");
      ("quest - status", "quest-status");
      ("quest - description", "quest-description");
      ("quest - progress", "quest-progress");
      ("quest - rewards", "quest-rewards");
      ("quest - reward", "quest-reward");
      ("achievement - card", "achievement-card");
      ("achievement - header", "achievement-header");
      ("achievement - icon", "achievement-icon");
      ("achievement - name", "achievement-name");
      ("achievement - tier", "achievement-tier");
      ("achievement - description", "achievement-description");
      ("achievement - reward", "achievement-reward");
      ("achievement - status", "achievement-status");
      ("achievement - category", "achievement-category");
      ("map - card", "map-card");
      ("map - grid", "map-grid");
      ("map - selection", "map-selection");
      ("panel - content", "panel-content");
      ("panel - title", "panel-title");
      ("panel - close", "panel-close");
      ("panel - btn", "panel-btn");
      ("panel - buttons", "panel-buttons");
      ("panel - header", "panel-header");
      ("panel - overlay", "panel-overlay");
      ("play - window", "play-window");
      ("window - actions", "window-actions");
      ("window - btn", "window-btn");
      ("section - title", "section-title");
      ("mode - buttons", "mode-buttons");
      ("game - type", "game-type");
      ("btn - label", "btn-label");
      ("btn - icon", "btn-icon") ]%string.

(** The [content.replace] calls on prose phrases, in source order. *)
Definition prose_table : list (text * text) :=
  map (fun p => (txt (fst p), txt (snd p)))
    [ ("Free -for-All", "Free-for-All");
      ("Co - op", "Co-op");
      ("Free - for - All", "Free-for-All") ]%string.

(** A run of [content = content.replace(old, new)] statements. *)
Definition apply_table (tbl : list (text * text)) (content : text) : text :=
  fold_left (fun content p => replace (fst p) (snd p) content) tbl content.

Definition fix_selectors : text -> text := apply_table selector_table.
Definition fix_prose : text -> text := apply_table prose_table.

(** The transformation between the read and the comparison with
    [original_content]. *)
Definition pipeline (content : text) : text :=
  let content := fix_closing_tags content in
  let content := fix_opening_tags content in
  let content := fix_attr_hyphen content in
  let content := fix_attr_equals content in
  let content := fix_css_props content in
  let content := prefixes_loop content in
  let content := fix_selectors content in
  let content := fix_prose content in
  content.

(** The same sequence with the loop over [prefixes] left out. *)
Definition pipeline_without_prefixes_loop (content : text) : text :=
  let content := fix_closing_tags content in
  let content := fix_opening_tags content in
  let content := fix_attr_hyphen content in
  let content := fix_attr_equals content in
  let content := fix_css_props content in
  let content := fix_selectors content in
  let content := fix_prose content in
  content.

(* ================================================================== *)
(** ** The script: read, transform, conditionally write, report *)

(** The one file the script works on. *)
Definition file_path : string := "c:\Users\dzoblin\Desktop\TX\src\client\menu.ts".

(** How [with open(file_path, "w", encoding="utf-8") as f: f.write(content)]
    goes.  Opening for writing empties the file before anything is written, so
    a write that breaks after the opening leaves an empty or partial file. *)
Inductive write_behaviour : Type :=
| WriteCompletes                 (* the opening, [f.write] and the close succeed *)
| OpenRefused                    (* [open] raises: the file is not touched *)
| WriteBreaksAfter (n : nat).    (* the file is opened, hence emptied, and the
                                    write raises when [n] characters of the
                                    content have reached it *)

(** What the script can observe or change: the file at [file_path] and the
    surroundings of the process.  [file_data] is what
    [open(file_path, "r", encoding="utf-8")] followed by [f.read()] yields,
    [None] when that raises (missing file, permission, undecodable bytes);
    [on_write] tells how a write to the file goes.  The last three fields are
    never consulted by the script. *)
Record world : Type := {
  file_data : option text;
  on_write : write_behaviour;
  argv : list string;
  environ : list (string * string);
  clock : N
}.

(** The file can be written: a write to it goes through. *)
Definition file_writable (w : world) : bool :=
  match on_write w with
  | WriteCompletes => true
  | OpenRefused => false
  | WriteBreaksAfter _ => false
  end.

Definition set_file (w : world) (t : text) : world :=
  {| file_data := Some t;
     on_write := on_write w;
     argv := argv w;
     environ := environ w;
     clock := clock w |}.

(** The operations attempted, in order. *)
Inductive event : Type :=
| EvRead
| EvWrite (t : text)
| EvPrint (line : string).

Inductive result (A : Type) : Type :=
| Ok (a : A)
| Raised.                         (* an uncaught [OSError] / [UnicodeDecodeError] *)
Arguments Ok {A} a.
Arguments Raised {A}.

Record machine : Type := { disk : world; log : list event }.

Definition M (A : Type) : Type := machine -> result A * machine.

Definition ret {A} (a : A) : M A := fun m => (Ok a, m).

Definition bind {A B} (c : M A) (f : A -> M B) : M B :=
  fun m => match c m with
           | (Ok a, m') => f a m'
           | (Raised, m') => (Raised, m')
           end.

Notation "x <- c ;; k" := (bind c (fun x => k))
  (at level 61, c at next level, right associativity).
Notation "c ;;; k" := (bind c (fun _ => k))
  (at level 61, right associativity).

Definition emit (e : event) (m : machine) : machine :=
  {| disk := disk m; log := log m ++ [e] |}.

Definition read_file : M text :=
  fun m => match file_data (disk m) with
           | Some t => (Ok t, emit EvRead m)
           | None => (Raised, emit EvRead m)
           end.

(** [with open(file_path, "w", encoding="utf-8") as f: f.write(t)].
    [EvWrite t] records that the write of [t] was attempted; what the file
    holds afterwards depends on how the write goes. *)
Definition write_file (t : text) : M unit :=
  fun m => match on_write (disk m) with
           | WriteCompletes =>
               (Ok tt, {| disk := set_file (disk m) t;
                          log := log m ++ [EvWrite t] |})
           | OpenRefused => (Raised, emit (EvWrite t) m)
           | WriteBreaksAfter n =>
               (Raised, {| disk := set_file (disk m) (firstn n t);
                           log := log m ++ [EvWrite t] |})
           end.

(** [print(line)]; writing to the standard output is taken to succeed. *)
Definition print (line : string) : M unit :=
  fun m => (Ok tt, emit (EvPrint line) m).

Fixpoint text_eqb (a b : text) : bool :=
  match a, b with
  | [], [] => true
  | x :: a', y :: b' => Ascii.eqb x y && text_eqb a' b'
  | _, _ => false
  end.

Definition msg_fixed : string := "Fixed corruption in menu.ts".
Definition msg_unchanged : string := "No changes needed".

Definition script : M unit :=
  content <- read_file ;;
  let original_content := content in
  let content := pipeline content in
  if negb (text_eqb content original_content)
  then write_file content ;;; print msg_fixed
  else print msg_unchanged.

(** One run of the script in world [w]. *)
Definition run (w : world) : result unit * machine :=
  script {| disk := w; log := [] |}.

Definition final_file (r : result unit * machine) : option text :=
  file_data (disk (snd r)).

Definition written (r : result unit * machine) : list text :=
  flat_map (fun e => match e with EvWrite t => [t] | _ => [] end) (log (snd r)).

Definition stdout (r : result unit * machine) : list string :=
  flat_map (fun e => match e with EvPrint l => [l] | _ => [] end) (log (snd r)).

(* ================================================================== *)
(** ** Predicates used in the statements *)

(** [old] occurs in [s] as a contiguous piece. *)
Fixpoint occursb (old s : text) : bool :=
  prefixb old s || match s with [] => false | _ :: s' => occursb old s' end.

(** The traces of the corruption the passes look for: whitespace directly
    before a hyphen or an equals sign, whitespace directly after [<] or [</]. *)
Fixpoint corrupt (s : text) : bool :=
  match s with
  | a :: s' =>
      match s' with
      | b :: t =>
          (is_space a && (Ascii.eqb b "-" || Ascii.eqb b "="))
          || (Ascii.eqb a "<"
              && (is_space b
                  || (Ascii.eqb b "/"
                      && match t with c :: _ => is_space c | [] => false end)))
          || corrupt s'
      | [] => false
      end
  | [] => false
  end.

(** Text without such traces. *)
Definition tidy (s : text) : bool := negb (corrupt s).

(** [u] is made of characters of class [p]. *)
Definition all_in (p : ascii -> bool) (u : text) : bool := forallb p u.

(** The first character of the text that follows is not of class [p]. *)
Definition stops (p : ascii -> bool) (s : text) : bool :=
  match s with c :: _ => negb (p c) | [] => true end.

(** The text [pre] ends where a word can begin: it is empty or its last
    character is not a word character. *)
Definition ends_at_boundary (pre : text) : bool :=
  negb (word_before (adv None pre)).

(** [pre] ends inside a match of the pattern of [prop] that is still open:
    [prop] at a word boundary, whitespace, hyphen, whitespace, and letters or
    hyphens up to the end of [pre]. *)
Definition pending (prop pre : text) : Prop :=
  exists v a b h,
    pre = v ++ prop ++ a :: "-"%char :: b :: h
    /\ ends_at_boundary v = true
    /\ is_space a = true /\ is_space b = true /\ all_in alpha_hyphen h = true.

(** The same for a text that is read after the character [prev]. *)
Definition pending_from (prev : option ascii) (prop pre : text) : Prop :=
  exists v a b h,
    pre = v ++ prop ++ a :: "-"%char :: b :: h
    /\ word_before (adv prev v) = false
    /\ is_space a = true /\ is_space b = true /\ all_in alpha_hyphen h = true.

(** The text [post] begins with a whitespace character and a hyphen. *)
Definition spaced_hyphen_next (post : text) : bool :=
  match post with
  | a :: b :: _ => is_space a && Ascii.eqb b "-"
  | _ => false
  end.

(** The ends of a text that closes with lower-case letters, [a], a hyphen,
    [b] and [h]. *)
Definition gap_tail (a b : ascii) (h k : text) : Prop :=
  (exists g, all_in is_lower g = true /\ k = g ++ a :: "-"%char :: b :: h)
  \/ k = "-"%char :: b :: h
  \/ k = b :: h
  \/ all_in alpha_hyphen k = true.

(** ** Notions used to compare a match inside a longer text *)

(** A match result seen in the text extended by [r]. *)
Definition lift (r : text) (o : option (list text * text))
  : option (list text * text) :=
  option_map (fun cr => (fst cr, snd cr ++ r)) o.

(** No item of the pattern can consume the character [c]; the pattern has
    no [\b]. *)
Fixpoint refuses (c : ascii) (its : regex) : bool :=
  match its with
  | [] => true
  | Lit x :: r => negb (Ascii.eqb c x) && refuses c r
  | Cls p :: r => negb (p c) && refuses c r
  | Plus p :: r => negb (p c) && refuses c r
  | Cap p :: r => negb (p c) && refuses c r
  | Bnd :: _ => false
  end.

(** No repetition of the pattern can end on the character [z]; the pattern
    has no [\b]. *)
Fixpoint closed_at (z : ascii) (its : regex) : bool :=
  match its with
  | [] => true
  | Lit _ :: r => closed_at z r
  | Cls _ :: r => closed_at z r
  | Plus p :: r => negb (p z) && closed_at z r
  | Cap p :: r => negb (p z) && closed_at z r
  | Bnd :: _ => false
  end.

(** Every proper, non-empty tail of the pattern fails on [r]. *)
Fixpoint tails_fail (its : regex) (r : text) : Prop :=
  match its with
  | [] => True
  | _ :: tl =>
      (tl <> [] -> forall caps prev, mseq tl caps prev r = None)
      /\ tails_fail tl r
  end.

(** ** Notions used to compare a replacement inside a longer text *)

(** [old] and [b] differ at a position both have. *)
Fixpoint mismatch (old b : text) : bool :=
  match old, b with
  | x :: old', y :: b' => negb (Ascii.eqb x y) || mismatch old' b'
  | _, _ => false
  end.

(** No occurrence of [old] can begin inside [b]. *)
Fixpoint clear_of (old b : text) : bool :=
  match b with
  | [] => true
  | _ :: b' => mismatch old b && clear_of old b'
  end.

(** No occurrence of [old] can overlap the literal [b]: its first character
    occurs in [old] at most as the first one, and no occurrence begins inside. *)
Definition cuts (old b : text) : bool :=
  match old, b with
  | _ :: t, c :: _ => negb (existsb (Ascii.eqb c) t) && clear_of old b
  | _, _ => false
  end.

(** The first character of [old] does not occur again in [old]. *)
Definition self_free (old : text) : bool :=
  match old with
  | a :: t => negb (existsb (Ascii.eqb a) t)
  | [] => false
  end.

(** ** Passes that can only shorten *)

(** [f] never lengthens a text, and a text whose length it keeps is left
    as it is. *)
Definition shrinking (f : text -> text) : Prop :=
  forall s, length (f s) <= length s /\ (length (f s) = length s -> f s = s).

(** ** Sample inputs *)

Definition sample_attr : text := txt "data - order = " ++ [dquote].

Definition sample_div : text :=
  txt "<div class=" ++ [dquote] ++ txt "mp - room - details" ++ [dquote]
      ++ txt "> text </ div>".

Definition sample_world (t : text) : world :=
  {| file_data := Some t; on_write := WriteCompletes;
     argv := []; environ := []; clock := 0 |}.

Definition missing_file_world : world :=
  {| file_data := None; on_write := WriteCompletes;
     argv := []; environ := []; clock := 0 |}.


(** ** Notions used for the further properties *)

(** [ws_removed x y]: [y] is [x] with some whitespace characters taken out;
    every other character is kept, in place and in order. *)
Inductive ws_removed : text -> text -> Prop :=
| ws_removed_nil : ws_removed [] []
| ws_removed_keep c x y : ws_removed x y -> ws_removed (c :: x) (c :: y)
| ws_removed_drop c x y : is_space c = true -> ws_removed x y -> ws_removed (c :: x) y.

(** A decision procedure for it, used on the literal tables. *)
Fixpoint ws_removedb (x y : text) : bool :=
  match x with
  | [] => match y with [] => true | _ :: _ => false end
  | c :: x' =>
      match y with
      | d :: y' => Ascii.eqb c d && ws_removedb x' y'
      | [] => false
      end
      || (is_space c && ws_removedb x' y)
  end.

(** The characters of a text that are not whitespace. *)
Definition non_space (s : text) : text := filter (fun c => negb (is_space c)) s.

(** The text [pre] is empty or ends with a character that is neither a word
    character nor a hyphen. *)
Definition ends_clear (pre : text) : bool :=
  match adv None pre with
  | Some z => negb (is_word z) && negb (is_hyphen z)
  | None => true
  end.

(** The text holds no [<]. *)
Definition lt_free (t : text) : bool :=
  forallb (fun c => negb (Ascii.eqb c "<")) t.

Definition starts_alnum (w : text) : bool :=
  match w with c :: _ => alnum c | [] => false end.

Definition readonly_world (t : text) : world :=
  {| file_data := Some t; on_write := OpenRefused;
     argv := []; environ := []; clock := 0 |}.

Definition broken_write_world (t : text) (n : nat) : world :=
  {| file_data := Some t; on_write := WriteBreaksAfter n;
     argv := []; environ := []; clock := 0 |}.

(* ================================================================== *)
(** * Proofs *)

(** ** Character classes *)

Ltac by_cases_on c :=
  destruct c as [[] [] [] [] [] [] [] []]; vm_compute; intros;
  try reflexivity; try discriminate; try congruence.

Lemma alnum_not_space c : alnum c = true -> is_space c = false.
Proof. by_cases_on c. Qed.

Lemma space_not_alnum c : is_space c = true -> alnum c = false.
Proof. by_cases_on c. Qed.

Lemma space_not_alnum_hyphen c : is_space c = true -> alnum_hyphen c = false.
Proof. by_cases_on c. Qed.

Lemma space_not_alpha_hyphen c : is_space c = true -> alpha_hyphen c = false.
Proof. by_cases_on c. Qed.

Lemma alnum_is_word c : alnum c = true -> is_word c = true.
Proof. by_cases_on c. Qed.

Lemma lower_is_word c : is_lower c = true -> is_word c = true.
Proof. by_cases_on c. Qed.

Lemma lower_alpha_hyphen c : is_lower c = true -> alpha_hyphen c = true.
Proof. by_cases_on c. Qed.

Lemma lower_not_space c : is_lower c = true -> is_space c = false.
Proof. by_cases_on c. Qed.

Lemma space_not_word c : is_space c = true -> is_word c = false.
Proof. by_cases_on c. Qed.

Lemma eqb_alnum_false c x :
  alnum x = false -> alnum c = true -> Ascii.eqb c x = false.
Proof.
  intros Hx Hc. destruct (Ascii.eqb_spec c x) as [->|]; congruence.
Qed.

Lemma eqb_space_false c x :
  is_space x = false -> is_space c = true -> Ascii.eqb c x = false.
Proof.
  intros Hx Hc. destruct (Ascii.eqb_spec c x) as [->|]; congruence.
Qed.

Lemma eqb_lower_false c x :
  is_lower x = false -> is_lower c = true -> Ascii.eqb c x = false.
Proof.
  intros Hx Hc. destruct (Ascii.eqb_spec c x) as [->|]; congruence.
Qed.

(** ** Text helpers *)

(** Bring both sides of an equation between concatenations to the
    right-nested form. *)
Ltac reassoc :=
  repeat first [ rewrite <- app_assoc
               | progress cbn [app txt list_ascii_of_string] ];
  try reflexivity.

Lemma adv_app prev u v : adv prev (u ++ v) = adv (adv prev u) v.
Proof. unfold adv. apply fold_left_app. Qed.

Lemma adv_cons prev c u : adv prev (c :: u) = adv (Some c) u.
Proof. reflexivity. Qed.

Lemma adv_last prev u c : adv prev (u ++ [c]) = Some c.
Proof. rewrite adv_app. reflexivity. Qed.

Lemma adv_nonempty p1 p2 u : u <> [] -> adv p1 u = adv p2 u.
Proof. destruct u; [congruence | reflexivity]. Qed.

Lemma text_eqb_spec a b : text_eqb a b = true <-> a = b.
Proof.
  revert b. induction a as [|x a IH]; intros [|y b]; simpl; split;
    try congruence; try reflexivity.
  - intros H. apply andb_true_iff in H as [H1 H2].
    apply Ascii.eqb_eq in H1. apply IH in H2. congruence.
  - intros H. injection H as -> ->. rewrite Ascii.eqb_refl. simpl.
    apply IH. reflexivity.
Qed.

Lemma prefixb_spec old s : prefixb old s = true <-> exists r, s = old ++ r.
Proof.
  revert s. induction old as [|a old IH]; intros s; simpl.
  - split; [eauto | reflexivity].
  - destruct s as [|b s].
    + split; [discriminate | intros [r Hr]; discriminate].
    + rewrite andb_true_iff, Ascii.eqb_eq, IH. split.
      * intros [-> [r ->]]. eauto.
      * intros [r Hr]. injection Hr as -> ->. eauto.
Qed.

Lemma prefixb_app old r : prefixb old (old ++ r) = true.
Proof. apply prefixb_spec. eauto. Qed.

(** ** The greedy repetition *)

Section StarFacts.
Context {R : Type}.
Implicit Types k : text -> option ascii -> text -> option R.

(** When what follows the repetition refuses every character of the class,
    giving characters back never helps: the repetition takes the whole run. *)
Lemma star_commit p k w rest prev :
  (forall acc pv c s, p c = true -> k acc pv (c :: s) = None) ->
  all_in p w = true -> stops p rest = true ->
  star p k prev (w ++ rest) = k w (adv prev w) rest.
Proof.
  intros Hk. revert k prev Hk.
  induction w as [|a w IH]; intros k prev Hk Hw Hrest; simpl.
  - destruct rest as [|c rest]; [reflexivity|].
    simpl in Hrest. apply negb_true_iff in Hrest. simpl. rewrite Hrest.
    reflexivity.
  - simpl in Hw. apply andb_true_iff in Hw as [Ha Hw]. rewrite Ha.
    rewrite (IH (fun u => k (a :: u))); auto.
    rewrite (Hk [] prev a (w ++ rest) Ha).
    destruct (k (a :: w) (adv (Some a) w) rest); reflexivity.
Qed.

(** The longest run is tried first. *)
Lemma star_greedy p k w rest prev r :
  all_in p w = true -> stops p rest = true ->
  k w (adv prev w) rest = Some r ->
  star p k prev (w ++ rest) = Some r.
Proof.
  revert k prev.
  induction w as [|a w IH]; intros k prev Hw Hrest Hr; simpl.
  - destruct rest as [|c rest]; [exact Hr|].
    simpl in Hrest. apply negb_true_iff in Hrest. simpl. rewrite Hrest.
    exact Hr.
  - simpl in Hw. apply andb_true_iff in Hw as [Ha Hw]. rewrite Ha.
    rewrite (IH (fun u => k (a :: u)) (Some a) Hw Hrest Hr). reflexivity.
Qed.

(** Whatever the repetition returns comes from the continuation, after a
    run of characters of the class. *)
Lemma star_sound p k prev s r :
  star p k prev s = Some r ->
  exists w s', s = w ++ s' /\ all_in p w = true /\ k w (adv prev w) s' = Some r.
Proof.
  revert k prev.
  induction s as [|c s IH]; intros k prev H; simpl in H.
  - exists [], []. auto.
  - destruct (p c) eqn:Hc.
    + destruct (star p (fun w => k (c :: w)) (Some c) s) eqn:Hs.
      * injection H as <-. apply IH in Hs as (w & s' & -> & Hw & Hk).
        exists (c :: w), s'. simpl. rewrite Hc, Hw. auto.
      * exists [], (c :: s). auto.
    + exists [], (c :: s). auto.
Qed.

Lemma plus_sound p k prev s r :
  plus p k prev s = Some r ->
  exists c w s', s = c :: w ++ s' /\ p c = true /\ all_in p w = true
                 /\ k (c :: w) (adv prev (c :: w)) s' = Some r.
Proof.
  destruct s as [|c s]; simpl; [discriminate|].
  destruct (p c) eqn:Hc; [|discriminate].
  intros H. apply star_sound in H as (w & s' & -> & Hw & Hk).
  exists c, w, s'. auto.
Qed.

Lemma plus_commit p k w rest prev :
  (forall acc pv c s, p c = true -> k acc pv (c :: s) = None) ->
  w <> [] -> all_in p w = true -> stops p rest = true ->
  plus p k prev (w ++ rest) = k w (adv prev w) rest.
Proof.
  intros Hk Hne Hw Hrest. destruct w as [|a w]; [congruence|].
  simpl in Hw. apply andb_true_iff in Hw as [Ha Hw].
  simpl. rewrite Ha.
  rewrite (star_commit p (fun u => k (a :: u))); auto.
Qed.

Lemma plus_greedy p k w rest prev r :
  w <> [] -> all_in p w = true -> stops p rest = true ->
  k w (adv prev w) rest = Some r ->
  plus p k prev (w ++ rest) = Some r.
Proof.
  intros Hne Hw Hrest Hr. destruct w as [|a w]; [congruence|].
  simpl in Hw. apply andb_true_iff in Hw as [Ha Hw].
  simpl. rewrite Ha.
  apply (star_greedy p (fun u => k (a :: u))); auto.
Qed.

(** A repetition whose first character is refused fails. *)
Lemma plus_refuses p k prev c s : p c = false -> plus p k prev (c :: s) = None.
Proof. intros H. simpl. rewrite H. reflexivity. Qed.
End StarFacts.

(** ** The scan of [re.sub] *)

Section Scan.
Variables (pat : regex) (tpl : template).

Lemma sub_skip m s prev :
  sub_from pat tpl prev (m ++ s) (length m) = sub_from pat tpl (adv prev m) s 0.
Proof.
  revert prev. induction m as [|a m IH]; intros prev; [reflexivity|].
  simpl. apply IH.
Qed.

Lemma sub_hit prev c m rest caps :
  mseq pat [] prev (c :: m ++ rest) = Some (caps, rest) ->
  sub_from pat tpl prev (c :: m ++ rest) 0
  = expand tpl caps ++ sub_from pat tpl (adv prev (c :: m)) rest 0.
Proof.
  intros H. cbn [sub_from]. rewrite H.
  replace (Nat.eqb (length rest) (length (c :: m ++ rest))) with false.
  - replace (length (m ++ rest) - length rest) with (length m)
      by (rewrite length_app; lia).
    rewrite sub_skip. reflexivity.
  - symmetry. apply Nat.eqb_neq. simpl. rewrite length_app. lia.
Qed.

Lemma sub_miss prev c s :
  mseq pat [] prev (c :: s) = None ->
  sub_from pat tpl prev (c :: s) 0 = c :: sub_from pat tpl (Some c) s 0.
Proof. intros H. cbn [sub_from]. rewrite H. reflexivity. Qed.

(** A text on which the pattern matches nowhere is copied. *)
Lemma sub_no_match (ok : text -> bool) :
  (forall c s, ok (c :: s) = true -> ok s = true) ->
  (forall prev s, ok s = true -> mseq pat [] prev s = None) ->
  forall s prev, ok s = true -> sub_from pat tpl prev s 0 = s.
Proof.
  intros Htl Hno. induction s as [|c s IH]; intros prev Hs.
  - simpl. rewrite (Hno prev [] Hs). reflexivity.
  - rewrite sub_miss by (apply Hno; exact Hs).
    rewrite IH; [reflexivity | eapply Htl; exact Hs].
Qed.

(** When no match begun inside [pre] is affected by the text [r] that
    follows, the scan of [pre ++ r] is the scan of [pre] followed by the
    scan of [r]. *)
Lemma sub_app_local r :
  forall pre prev skip,
    skip <= length pre ->
    (forall v u, pre = v ++ u -> u <> [] ->
                 mseq pat [] (adv prev v) (u ++ r)
                 = lift r (mseq pat [] (adv prev v) u)) ->
    mseq pat [] (adv prev pre) [] = None ->
    sub_from pat tpl prev (pre ++ r) skip
    = sub_from pat tpl prev pre skip ++ sub_from pat tpl (adv prev pre) r 0.
Proof.
  induction pre as [|c pre IH]; intros prev skip Hskip Hloc Hend.
  - simpl in Hskip. assert (skip = 0) as -> by lia.
    simpl in Hend. simpl. rewrite Hend. reflexivity.
  - assert (Hloc' : forall v u, pre = v ++ u -> u <> [] ->
              mseq pat [] (adv (Some c) v) (u ++ r)
              = lift r (mseq pat [] (adv (Some c) v) u)).
    { intros v u -> Hu. apply (Hloc (c :: v) u); auto. }
    destruct skip as [|k].
    + cbn [sub_from app].
      assert (H0 := Hloc [] (c :: pre) eq_refl ltac:(discriminate)).
      cbn [adv fold_left app] in H0. rewrite H0.
      destruct (mseq pat [] prev (c :: pre)) as [[caps rest]|] eqn:Hm;
        cbn [lift option_map fst snd].
      * assert (Hlen : Nat.eqb (length (rest ++ r)) (length (c :: pre ++ r))
                       = Nat.eqb (length rest) (length (c :: pre))).
        { cbn [length]. rewrite !length_app.
          destruct (Nat.eqb_spec (length rest) (S (length pre)));
            [apply Nat.eqb_eq | apply Nat.eqb_neq]; lia. }
        rewrite Hlen.
        replace (length (pre ++ r) - length (rest ++ r))
          with (length pre - length rest) by (rewrite !length_app; lia).
        destruct (Nat.eqb (length rest) (length (c :: pre))).
        -- rewrite (IH (Some c) 0); [|lia|exact Hloc'|exact Hend].
           rewrite <- app_assoc. reflexivity.
        -- rewrite (IH (Some c)); [|lia|exact Hloc'|exact Hend].
           rewrite <- app_assoc. reflexivity.
      * rewrite (IH (Some c) 0); [|lia|exact Hloc'|exact Hend].
        reflexivity.
    + cbn [sub_from app]. simpl in Hskip.
      rewrite (IH (Some c) k); [|lia|exact Hloc'|exact Hend].
      reflexivity.
Qed.
End Scan.

(** The character before the match position only matters through [\b]. *)
Lemma mseq_prev its : forall caps p1 p2 s,
  word_before p1 = word_before p2 -> mseq its caps p1 s = mseq its caps p2 s.
Proof.
  induction its as [|it its IH]; intros caps p1 p2 s H; [reflexivity|].
  destruct it; simpl; try reflexivity.
  unfold at_boundary. rewrite H.
  destruct (xorb (word_before p2) (word_after s)); [apply IH; exact H | reflexivity].
Qed.

Lemma sub_prev pat tpl p1 p2 s :
  word_before p1 = word_before p2 ->
  sub_from pat tpl p1 s 0 = sub_from pat tpl p2 s 0.
Proof.
  intros H. destruct s as [|c s]; cbn [sub_from];
    rewrite (mseq_prev pat [] p1 p2 _ H); reflexivity.
Qed.

(** ** Matches are local *)

Lemma mseq_lit c r caps prev x s :
  mseq (Lit c :: r) caps prev (x :: s)
  = if Ascii.eqb x c then mseq r caps (Some x) s else None.
Proof. reflexivity. Qed.

Lemma mseq_cls p r caps prev x s :
  mseq (Cls p :: r) caps prev (x :: s)
  = if p x then mseq r caps (Some x) s else None.
Proof. reflexivity. Qed.

Lemma mseq_bnd r caps prev s :
  mseq (Bnd :: r) caps prev s
  = if at_boundary prev s then mseq r caps prev s else None.
Proof. reflexivity. Qed.

Lemma mseq_cap p r caps prev s :
  mseq (Cap p :: r) caps prev s = plus p (fun w => mseq r (caps ++ [w])) prev s.
Proof. reflexivity. Qed.

Lemma mseq_plus p r caps prev s :
  mseq (Plus p :: r) caps prev s = plus p (fun _ => mseq r caps) prev s.
Proof. reflexivity. Qed.

Lemma lift_orelse r (x y : option (list text * text)) :
  match lift r x with Some v => Some v | None => lift r y end
  = lift r (match x with Some v => Some v | None => y end).
Proof. destruct x; reflexivity. Qed.

(** A pattern without [\b] needs at least one character. *)
Lemma mseq_nil z it its caps prev :
  closed_at z (it :: its) = true -> mseq (it :: its) caps prev [] = None.
Proof. destruct it; try reflexivity. discriminate. Qed.

(** First kind of cut: a character [c] that no item of the pattern accepts.
    A match attempt made before [c] sees the same as if the text ended there. *)
Lemma star_cut p c r :
  p c = false ->
  forall u (k : text -> option ascii -> text -> option (list text * text)) prev,
    (forall w pv u, k w pv (u ++ c :: r) = lift (c :: r) (k w pv u)) ->
    star p k prev (u ++ c :: r) = lift (c :: r) (star p k prev u).
Proof.
  intros Hc. induction u as [|a u IH]; intros k0 prev Hk.
  - simpl. rewrite Hc. apply (Hk [] prev []).
  - assert (Hf := Hk [] prev (a :: u)).
    cbn [app star] in *. destruct (p a).
    + rewrite (IH (fun w => k0 (a :: w))) by (intros; apply Hk).
      rewrite Hf. apply lift_orelse.
    + exact Hf.
Qed.

Lemma mseq_cut c r its :
  refuses c its = true ->
  forall u caps prev,
    mseq its caps prev (u ++ c :: r) = lift (c :: r) (mseq its caps prev u).
Proof.
  induction its as [|it its IH]; intros Href u caps prev; [reflexivity|].
  destruct it as [x|p|p|p|]; cbn [refuses] in Href; try discriminate;
    apply andb_true_iff in Href as [Hx Href]; apply negb_true_iff in Hx;
    cbn [mseq].
  - destruct u as [|a u]; cbn [app].
    + rewrite Hx. reflexivity.
    + destruct (Ascii.eqb a x); [apply IH; exact Href | reflexivity].
  - destruct u as [|a u]; cbn [app].
    + rewrite Hx. reflexivity.
    + destruct (p a); [apply IH; exact Href | reflexivity].
  - destruct u as [|a u]; cbn [app plus].
    + rewrite Hx. reflexivity.
    + destruct (p a); [|reflexivity].
      apply star_cut; [exact Hx | intros; apply IH; exact Href].
  - destruct u as [|a u]; cbn [app plus].
    + rewrite Hx. reflexivity.
    + destruct (p a); [|reflexivity].
      apply star_cut; [exact Hx | intros; apply IH; exact Href].
Qed.

(** Second kind of cut: the text before ends with a character [z] on which
    no repetition can be running, and what follows makes every later part of
    the pattern fail. *)
Lemma last_cons_inv z a u :
  adv None (a :: u) = Some z -> (u = [] /\ a = z) \/ (u <> [] /\ adv None u = Some z).
Proof.
  destruct u as [|b u]; simpl.
  - intros H. injection H as ->. auto.
  - intros H. right. split; [discriminate | exact H].
Qed.

Lemma star_local p z r :
  p z = false ->
  forall u (k : text -> option ascii -> text -> option (list text * text)) prev,
    (forall w pv u, u <> [] -> adv None u = Some z ->
                    k w pv (u ++ r) = lift r (k w pv u)) ->
    u <> [] -> adv None u = Some z ->
    star p k prev (u ++ r) = lift r (star p k prev u).
Proof.
  intros Hz. induction u as [|a u IH]; intros k prev Hk Hne Hlast; [congruence|].
  cbn [app star].
  assert (Hfall : k [] prev (a :: u ++ r) = lift r (k [] prev (a :: u))).
  { apply (Hk [] prev (a :: u)); auto. }
  destruct (p a) eqn:Ha; [|exact Hfall].
  apply last_cons_inv in Hlast as [[-> ->]|[Hu Hlast]]; [congruence|].
  rewrite (IH (fun w => k (a :: w))); auto.
  rewrite Hfall. apply lift_orelse.
Qed.

Lemma mseq_local_last z r its :
  closed_at z its = true -> tails_fail its r ->
  forall u caps prev,
    u <> [] -> adv None u = Some z ->
    mseq its caps prev (u ++ r) = lift r (mseq its caps prev u).
Proof.
  induction its as [|it its IH]; intros Hcl Htl u caps prev Hne Hlast;
    [reflexivity|].
  destruct Htl as [Hfail Htl].
  assert (Hstep : closed_at z its = true ->
                  forall a u caps,
                    adv None (a :: u) = Some z ->
                    mseq its caps (Some a) (u ++ r)
                    = lift r (mseq its caps (Some a) u)).
  { intros Hcl' a u0 caps0 Hl.
    apply last_cons_inv in Hl as [[-> ->]|[Hu Hl]].
    - destruct its as [|it' its']; [reflexivity|].
      cbn [app]. rewrite Hfail by discriminate.
      rewrite (mseq_nil z) by exact Hcl'. reflexivity.
    - apply IH; auto. }
  destruct u as [|a u]; [congruence|].
  destruct it as [x|p|p|p|]; cbn [closed_at] in Hcl; try discriminate;
    cbn [mseq app].
  - destruct (Ascii.eqb a x); [apply Hstep; auto | reflexivity].
  - destruct (p a); [apply Hstep; auto | reflexivity].
  - apply andb_true_iff in Hcl as [Hz Hcl]. apply negb_true_iff in Hz.
    cbn [plus]. destruct (p a) eqn:Ha; [|reflexivity].
    apply last_cons_inv in Hlast as [[-> ->]|[Hu Hlast]]; [congruence|].
    apply (star_local p z r Hz); auto;
      intros w pv u0 Hu0 Hl0; apply IH; auto.
  - apply andb_true_iff in Hcl as [Hz Hcl]. apply negb_true_iff in Hz.
    cbn [plus]. destruct (p a) eqn:Ha; [|reflexivity].
    apply last_cons_inv in Hlast as [[-> ->]|[Hu Hlast]]; [congruence|].
    apply (star_local p z r Hz); auto;
      intros w pv u0 Hu0 Hl0; apply IH; auto.
Qed.

(** An occurrence in context: the scan rewrites the text before, the
    occurrence and the text after independently. *)
Lemma sub_occurrence pat tpl pre m post caps :
  (forall v u, pre = v ++ u -> u <> [] ->
               mseq pat [] (adv None v) (u ++ m ++ post)
               = lift (m ++ post) (mseq pat [] (adv None v) u)) ->
  (forall prev, mseq pat [] prev [] = None) ->
  m <> [] ->
  mseq pat [] (adv None pre) (m ++ post) = Some (caps, post) ->
  sub_from pat tpl (adv None (pre ++ m)) post 0 = re_sub pat tpl post ->
  re_sub pat tpl (pre ++ m ++ post)
  = re_sub pat tpl pre ++ expand tpl caps ++ re_sub pat tpl post.
Proof.
  intros Hloc Hnil Hm Hhit Hpost. unfold re_sub at 1 2.
  rewrite sub_app_local; [|lia|exact Hloc|apply Hnil].
  f_equal. destruct m as [|c m]; [congruence|].
  cbn [app] in *. rewrite (sub_hit pat tpl _ c m post caps Hhit).
  f_equal. rewrite <- Hpost. rewrite adv_app.
  apply sub_prev. reflexivity.
Qed.

Lemma stops_head (p q : ascii -> bool) w rest :
  (forall c, q c = true -> p c = false) ->
  w <> [] -> all_in q w = true -> stops p (w ++ rest) = true.
Proof.
  intros Hpq Hne Hw. destruct w as [|a w]; [congruence|].
  simpl in *. apply andb_true_iff in Hw as [Ha _].
  rewrite (Hpq a Ha). reflexivity.
Qed.

(** ** Pass 1: closing tags *)

Lemma closing_tag_match prev ws name post :
  ws <> [] -> all_in is_space ws = true ->
  name <> [] -> all_in alnum name = true ->
  mseq closing_tag_re [] prev ("<" :: "/" :: ws ++ name ++ ">" :: post)%char
  = Some ([name], post).
Proof.
  intros Hws1 Hws2 Hn1 Hn2. unfold closing_tag_re. cbn [mseq Ascii.eqb Bool.eqb].
  rewrite plus_commit;
    [ | | exact Hws1 | exact Hws2
      | apply (stops_head is_space alnum); auto using alnum_not_space ].
  - cbn [mseq]. rewrite plus_commit; [ | | exact Hn1 | exact Hn2 | reflexivity ].
    + reflexivity.
    + intros acc pv c s Hc. cbn [mseq].
      destruct (Ascii.eqb_spec c ">") as [->|]; [discriminate | reflexivity].
  - intros acc pv c s Hc. cbn [mseq]. apply plus_refuses.
    apply space_not_alnum. exact Hc.
Qed.

Lemma closing_tag_local u r prev :
  u <> [] ->
  mseq closing_tag_re [] prev (u ++ "<"%char :: r)
  = lift ("<"%char :: r) (mseq closing_tag_re [] prev u).
Proof.
  intros Hu. destruct u as [|a u]; [congruence|].
  unfold closing_tag_re. rewrite <- app_comm_cons, !mseq_lit.
  destruct (Ascii.eqb a "<"); [|reflexivity].
  apply mseq_cut. reflexivity.
Qed.

Lemma closing_tag_occurrence pre ws name post :
  ws <> [] -> all_in is_space ws = true ->
  name <> [] -> all_in alnum name = true ->
  fix_closing_tags (pre ++ txt "</" ++ ws ++ name ++ txt ">" ++ post)
  = fix_closing_tags pre ++ txt "</" ++ name ++ txt ">" ++ fix_closing_tags post.
Proof.
  intros Hws1 Hws2 Hn1 Hn2. unfold fix_closing_tags.
  pose (m := ("<" :: "/" :: ws ++ name ++ [">"])%char).
  replace (txt "</" ++ ws ++ name ++ txt ">" ++ post) with (m ++ post)
    by (unfold m; reassoc).
  rewrite (sub_occurrence closing_tag_re closing_tag_tpl pre m post [name]).
  - cbn [closing_tag_tpl expand flat_map nth pred].
    rewrite app_nil_r, <- !app_assoc. reflexivity.
  - intros v u _ Hu. unfold m. cbn [app]. apply closing_tag_local. exact Hu.
  - reflexivity.
  - discriminate.
  - unfold m. cbn [app]. rewrite <- !app_assoc. cbn [app].
    apply closing_tag_match; auto.
  - unfold m.
    replace (pre ++ ("<" :: "/" :: ws ++ name ++ [">"])%char)
      with ((pre ++ "<" :: "/" :: ws ++ name)%char ++ [">"%char])
      by reassoc.
    rewrite adv_last. apply sub_prev. reflexivity.
Qed.

(** ** Pass 3: hyphenated attribute names *)

Lemma head_in (p : ascii -> bool) w :
  w <> [] -> all_in p w = true -> exists a w', w = a :: w' /\ p a = true.
Proof.
  destruct w as [|a w]; [congruence|]. simpl. intros _ H.
  apply andb_true_iff in H as [Ha _]. eauto.
Qed.

Lemma attr_hyphen_match prev w1 s1 s2 w2 post :
  word_before prev = false ->
  w1 <> [] -> all_in alnum w1 = true ->
  is_space s1 = true -> is_space s2 = true ->
  w2 <> [] -> all_in alnum w2 = true ->
  mseq attr_hyphen_re [] prev (w1 ++ s1 :: "-" :: s2 :: w2 ++ "=" :: post)%char
  = Some ([w1; w2], post).
Proof.
  intros Hprev H1 H1' Hs1 Hs2 H2 H2'. unfold attr_hyphen_re.
  rewrite mseq_bnd.
  replace (at_boundary prev (w1 ++ s1 :: "-" :: s2 :: w2 ++ "=" :: post)%char)
    with true.
  2:{ destruct (head_in alnum w1 H1 H1') as (a & w' & -> & Ha).
      unfold at_boundary. rewrite Hprev. simpl.
      rewrite (alnum_is_word a Ha). reflexivity. }
  rewrite mseq_cap, plus_commit;
    [ | | exact H1 | exact H1'
      | simpl; rewrite (space_not_alnum s1 Hs1); reflexivity ].
  2:{ intros acc pv c s Hc. rewrite mseq_cls.
      rewrite (alnum_not_space c Hc). reflexivity. }
  rewrite mseq_cls, Hs1, mseq_lit. cbn [Ascii.eqb Bool.eqb].
  rewrite mseq_cls, Hs2.
  rewrite mseq_cap, plus_commit; [ | | exact H2 | exact H2' | reflexivity ].
  2:{ intros acc pv c s Hc. rewrite mseq_lit.
      rewrite (eqb_alnum_false c "="); [reflexivity | reflexivity | exact Hc]. }
  reflexivity.
Qed.

Lemma attr_hyphen_tails w1 s1 rest :
  w1 <> [] -> all_in alnum w1 = true -> is_space s1 = true ->
  tails_fail [Cap alnum; Cls is_space; Lit "-"; Cls is_space; Cap alnum; Lit "="]
             (w1 ++ s1 :: rest).
Proof.
  intros H1 H1' Hs1.
  destruct (head_in alnum w1 H1 H1') as (a & w' & E & Ha).
  cbn [tails_fail]. repeat split; intros Hne caps prev; try congruence.
  - rewrite E. cbn [app]. rewrite mseq_cls, (alnum_not_space a Ha). reflexivity.
  - rewrite E. cbn [app]. rewrite mseq_lit.
    rewrite (eqb_alnum_false a "-"); [reflexivity | reflexivity | exact Ha].
  - rewrite E. cbn [app]. rewrite mseq_cls, (alnum_not_space a Ha). reflexivity.
  - rewrite mseq_cap, plus_commit;
      [ | | exact H1 | exact H1'
        | simpl; rewrite (space_not_alnum s1 Hs1); reflexivity ].
    + rewrite mseq_lit.
      rewrite (eqb_space_false s1 "="); [reflexivity | reflexivity | exact Hs1].
    + intros acc pv c s Hc. rewrite mseq_lit.
      rewrite (eqb_alnum_false c "="); [reflexivity | reflexivity | exact Hc].
  - rewrite E. cbn [app]. rewrite mseq_lit.
    rewrite (eqb_alnum_false a "="); [reflexivity | reflexivity | exact Ha].
Qed.

Lemma word_false_alnum z : is_word z = false -> alnum z = false.
Proof.
  intros H. destruct (alnum z) eqn:E; [|reflexivity].
  rewrite (alnum_is_word z E) in H. discriminate.
Qed.

Lemma attr_hyphen_local z u prev w1 s1 rest :
  is_word z = false -> u <> [] -> adv None u = Some z ->
  w1 <> [] -> all_in alnum w1 = true -> is_space s1 = true ->
  mseq attr_hyphen_re [] prev (u ++ w1 ++ s1 :: rest)
  = lift (w1 ++ s1 :: rest) (mseq attr_hyphen_re [] prev u).
Proof.
  intros Hz Hu Hlast H1 H1' Hs1. unfold attr_hyphen_re. rewrite !mseq_bnd.
  replace (at_boundary prev (u ++ w1 ++ s1 :: rest)) with (at_boundary prev u)
    by (destruct u; [congruence | reflexivity]).
  destruct (at_boundary prev u); [|reflexivity].
  apply (mseq_local_last z); auto.
  - cbn [closed_at]. rewrite (word_false_alnum z Hz). reflexivity.
  - apply attr_hyphen_tails; auto.
Qed.

Lemma boundary_last pre :
  ends_at_boundary pre = true ->
  pre = [] \/ exists z, adv None pre = Some z /\ is_word z = false.
Proof.
  unfold ends_at_boundary. intros H. apply negb_true_iff in H.
  destruct pre as [|c pre]; [auto|]. right.
  destruct (adv None (c :: pre)) as [z|] eqn:E.
  - exists z. auto.
  - exfalso. clear H. revert c E. induction pre as [|b pre IH]; intros c E.
    + discriminate.
    + apply (IH b). exact E.
Qed.

Lemma attr_hyphen_occurrence pre w1 s1 s2 w2 post :
  ends_at_boundary pre = true ->
  w1 <> [] -> all_in alnum w1 = true ->
  is_space s1 = true -> is_space s2 = true ->
  w2 <> [] -> all_in alnum w2 = true ->
  fix_attr_hyphen (pre ++ w1 ++ [s1] ++ txt "-" ++ [s2] ++ w2 ++ txt "=" ++ post)
  = fix_attr_hyphen pre ++ w1 ++ txt "-" ++ w2 ++ txt "=" ++ fix_attr_hyphen post.
Proof.
  intros Hb H1 H1' Hs1 Hs2 H2 H2'. unfold fix_attr_hyphen.
  pose (m := (w1 ++ s1 :: "-" :: s2 :: w2 ++ ["="])%char).
  replace (w1 ++ [s1] ++ txt "-" ++ [s2] ++ w2 ++ txt "=" ++ post) with (m ++ post)
    by (unfold m; reassoc).
  assert (Em : m ++ post = (w1 ++ s1 :: "-" :: s2 :: w2 ++ "=" :: post)%char)
    by (unfold m; reassoc).
  rewrite (sub_occurrence attr_hyphen_re attr_hyphen_tpl pre m post [w1; w2]).
  - cbn [attr_hyphen_tpl expand flat_map nth pred txt list_ascii_of_string].
    rewrite app_nil_r, <- !app_assoc. reflexivity.
  - intros v u E Hu. rewrite Em.
    destruct (boundary_last pre Hb) as [->|(z & Hz & Hw)].
    + destruct v; destruct u; discriminate || congruence.
    + apply (attr_hyphen_local z); auto.
      rewrite E, adv_app in Hz. rewrite <- Hz. apply adv_nonempty. exact Hu.
  - intros prev. unfold attr_hyphen_re. rewrite mseq_bnd.
    destruct (at_boundary prev []); reflexivity.
  - unfold m. destruct w1; [congruence | discriminate].
  - rewrite Em. apply attr_hyphen_match; auto.
    unfold ends_at_boundary in Hb. apply negb_true_iff in Hb. exact Hb.
  - unfold m.
    replace (pre ++ w1 ++ (s1 :: "-" :: s2 :: w2 ++ ["="])%char)
      with ((pre ++ w1 ++ s1 :: "-" :: s2 :: w2)%char ++ ["="%char])
      by reassoc.
    rewrite adv_last. apply sub_prev. reflexivity.
Qed.

(** ** Pass 5: the known property prefixes *)

Lemma mseq_lits_hit t its caps prev s :
  mseq (lits t ++ its) caps prev (t ++ s) = mseq its caps (adv prev t) s.
Proof.
  revert prev. induction t as [|a t IH]; intros prev; [reflexivity|].
  cbn [lits map app]. rewrite mseq_lit, Ascii.eqb_refl. apply IH.
Qed.

Lemma mseq_lits_inv t its caps prev s x :
  mseq (lits t ++ its) caps prev s = Some x ->
  exists s', s = t ++ s' /\ mseq its caps (adv prev t) s' = Some x.
Proof.
  revert prev s. induction t as [|a t IH]; intros prev s H; [exists s; auto|].
  cbn [lits map app] in H. destruct s as [|b s]; [discriminate|].
  rewrite mseq_lit in H. destruct (Ascii.eqb_spec b a) as [->|]; [|discriminate].
  apply IH in H as (s' & -> & H). exists s'. auto.
Qed.

Lemma split_run (p : ascii -> bool) u :
  all_in p u = false ->
  exists h d t, u = h ++ d :: t /\ all_in p h = true /\ p d = false.
Proof.
  induction u as [|a u IH]; simpl; [discriminate|].
  destruct (p a) eqn:Ha; simpl.
  - intros H. destruct (IH H) as (h & d & t & -> & Hh & Hd).
    exists (a :: h), d, t. simpl. rewrite Ha, Hh. auto.
  - intros _. exists [], a, u. auto.
Qed.

Lemma adv_all_in (p : ascii -> bool) u :
  u <> [] -> all_in p u = true -> exists z, adv None u = Some z /\ p z = true.
Proof.
  induction u as [|a u IH]; [congruence|]. intros _ H. simpl in H.
  apply andb_true_iff in H as [Ha Hu].
  destruct u as [|b u].
  - exists a. auto.
  - destruct IH as (z & Hz & Hp); [discriminate | exact Hu |].
    exists z. split; [|exact Hp]. rewrite adv_cons.
    rewrite <- Hz. apply adv_nonempty. discriminate.
Qed.

Lemma all_in_app (p : ascii -> bool) u v :
  all_in p (u ++ v) = true -> all_in p u = true /\ all_in p v = true.
Proof. unfold all_in. rewrite forallb_app. apply andb_true_iff. Qed.

Lemma known_css_props_lower prop :
  In prop known_css_props -> prop <> [] /\ all_in is_lower prop = true.
Proof.
  intros H.
  assert (E : forallb (fun p => negb (Nat.eqb (length p) 0) && all_in is_lower p)
                      known_css_props = true) by reflexivity.
  rewrite forallb_forall in E. apply E in H.
  apply andb_true_iff in H as [H1 H2]. split; [|exact H2].
  intros ->. discriminate.
Qed.

Section KnownProperty.
Variable prop : text.
Hypothesis prop_nonempty : prop <> [].
Hypothesis prop_lower : all_in is_lower prop = true.

Lemma css_prop_nil prev : mseq (css_prop_re prop) [] prev [] = None.
Proof.
  unfold css_prop_re. rewrite mseq_bnd.
  destruct (at_boundary prev []); [|reflexivity].
  destruct prop; [congruence | reflexivity].
Qed.

Lemma css_prop_match prev s1 s2 w post :
  word_before prev = false ->
  is_space s1 = true -> is_space s2 = true ->
  w <> [] -> all_in alpha_hyphen w = true -> stops alpha_hyphen post = true ->
  mseq (css_prop_re prop) [] prev (prop ++ s1 :: "-" :: s2 :: w ++ post)%char
  = Some ([w], post).
Proof.
  intros Hprev Hs1 Hs2 Hw Hw' Hpost. unfold css_prop_re, css_prop_tail.
rewrite mseq_bnd.
  replace (at_boundary prev (prop ++ s1 :: "-" :: s2 :: w ++ post)%char)
    with true.
  2:{ destruct (head_in is_lower prop prop_nonempty prop_lower)
        as (a & t & -> & Ha).
      unfold at_boundary. rewrite Hprev. simpl.
      rewrite (lower_is_word a Ha). reflexivity. }
  rewrite mseq_lits_hit, mseq_cls, Hs1, mseq_lit. cbn [Ascii.eqb Bool.eqb].
  rewrite mseq_cls, Hs2, mseq_cap.
  apply plus_greedy; auto.
Qed.

(** A character that is not a lower-case letter is no start of a match. *)
Lemma css_prop_miss prev d s :
  is_lower d = false -> mseq (css_prop_re prop) [] prev (d :: s) = None.
Proof.
  intros Hd. unfold css_prop_re. rewrite mseq_bnd.
  destruct (at_boundary prev (d :: s)); [|reflexivity].
  destruct (head_in is_lower prop prop_nonempty prop_lower)
    as (a & t & -> & Ha).
  cbn [lits map app]. rewrite mseq_lit.
  destruct (Ascii.eqb_spec d a) as [->|]; [congruence | reflexivity].
Qed.

Lemma css_tail_local u r s1 rest :
  r = prop ++ s1 :: rest ->
  (forall x b h, u = x :: "-"%char :: b :: h ->
                 is_space x = true -> is_space b = true ->
                 all_in alpha_hyphen h = false) ->
  forall prev, mseq css_prop_tail [] prev (u ++ r) = lift r (mseq css_prop_tail [] prev u).
Proof.
  intros Er Hopen prev.
  destruct (head_in is_lower prop prop_nonempty prop_lower)
    as (a & t & Ep & Ha).
  assert (Hr : exists r', r = a :: r') by (rewrite Er, Ep; eexists; reflexivity).
  destruct Hr as [r' Hr].
  unfold css_prop_tail.
  destruct u as [|x u].
  { rewrite Hr. cbn [app]. rewrite mseq_cls, (lower_not_space a Ha). reflexivity. }
  cbn [app]. rewrite !mseq_cls. destruct (is_space x) eqn:Hx; [|reflexivity].
  destruct u as [|y u].
  { rewrite Hr. cbn [app]. rewrite mseq_lit.
    rewrite (eqb_lower_false a "-"); [reflexivity | reflexivity | exact Ha]. }
  cbn [app]. rewrite !mseq_lit.
  destruct (Ascii.eqb_spec y "-") as [->|]; [|reflexivity].
  destruct u as [|b u].
  { rewrite Hr. cbn [app]. rewrite mseq_cls, (lower_not_space a Ha). reflexivity. }
  cbn [app]. rewrite !mseq_cls. destruct (is_space b) eqn:Hb; [|reflexivity].
  specialize (Hopen x b u eq_refl Hx Hb).
  destruct (split_run alpha_hyphen u Hopen) as (h & d & t' & -> & Hh & Hd).
  rewrite !mseq_cap.
  destruct h as [|c h].
  - cbn [app]. rewrite !plus_refuses by exact Hd. reflexivity.
  - rewrite <- !app_assoc. cbn [app] in *.
    change (c :: h ++ d :: t' ++ r) with ((c :: h) ++ d :: t' ++ r).
    change (c :: h ++ d :: t') with ((c :: h) ++ d :: t').
    rewrite (plus_greedy alpha_hyphen _ (c :: h) (d :: t' ++ r) (Some b)
               ([c :: h], d :: t' ++ r));
      [ | discriminate | exact Hh | simpl; rewrite Hd; reflexivity | reflexivity ].
    rewrite (plus_greedy alpha_hyphen _ (c :: h) (d :: t') (Some b)
               ([c :: h], d :: t'));
      [ | discriminate | exact Hh | simpl; rewrite Hd; reflexivity | reflexivity ].
    reflexivity.
Qed.

Lemma css_prop_local pre v u s1 rest :
  ends_at_boundary pre = true -> ~ pending prop pre ->
  pre = v ++ u -> u <> [] ->
  mseq (css_prop_re prop) [] (adv None v) (u ++ prop ++ s1 :: rest)
  = lift (prop ++ s1 :: rest) (mseq (css_prop_re prop) [] (adv None v) u).
Proof.
  intros Hb Hpend E Hu. unfold css_prop_re. rewrite !mseq_bnd.
  replace (at_boundary (adv None v) (u ++ prop ++ s1 :: rest))
    with (at_boundary (adv None v) u)
    by (destruct u; [congruence | reflexivity]).
  destruct (at_boundary (adv None v) u) eqn:Hat; [|reflexivity].
  destruct (prefixb prop u) eqn:Hpre.
  - apply prefixb_spec in Hpre as [u1 ->].
    rewrite <- app_assoc, !mseq_lits_hit.
    apply (css_tail_local u1 _ s1 rest eq_refl).
    intros x b h -> Hx Hb'.
    destruct (all_in alpha_hyphen h) eqn:Hh; [|reflexivity].
    exfalso. apply Hpend. exists v, x, b, h. repeat split; auto.
    unfold ends_at_boundary. apply negb_true_iff.
    destruct (head_in is_lower prop prop_nonempty prop_lower)
      as (a & t & Ep & Ha).
    rewrite Ep in Hat. unfold at_boundary in Hat. simpl in Hat.
    rewrite (lower_is_word a Ha) in Hat.
    destruct (word_before (adv None v)); [discriminate | reflexivity].
  - destruct (mseq (lits prop ++ css_prop_tail) [] (adv None v) u) as [x|] eqn:Hm.
    { apply mseq_lits_inv in Hm as (s' & -> & _).
      rewrite prefixb_app in Hpre. discriminate. }
    destruct (mseq (lits prop ++ css_prop_tail) [] (adv None v)
                   (u ++ prop ++ s1 :: rest)) as [x|] eqn:Hm'; [|reflexivity].
    exfalso. apply mseq_lits_inv in Hm' as (s' & Hs' & _).
    apply app_eq_app in Hs' as [l [[E1 E2]|[E1 E2]]].
    + rewrite E1, prefixb_app in Hpre. discriminate.
    + rewrite E1 in prop_lower. apply all_in_app in prop_lower as [Hlu _].
      destruct (adv_all_in is_lower u Hu Hlu) as (z & Hz & Hlz).
      unfold ends_at_boundary in Hb. rewrite E, adv_app in Hb.
      rewrite (adv_nonempty _ None u Hu), Hz in Hb. simpl in Hb.
      rewrite (lower_is_word z Hlz) in Hb. discriminate.
Qed.

Lemma css_prop_occurrence_gen pre s1 s2 w post :
  ends_at_boundary pre = true -> ~ pending prop pre ->
  is_space s1 = true -> is_space s2 = true ->
  w <> [] -> all_in alpha_hyphen w = true -> stops alpha_hyphen post = true ->
  fix_css_prop prop (pre ++ prop ++ [s1] ++ txt "-" ++ [s2] ++ w ++ post)
  = fix_css_prop prop pre ++ prop ++ txt "-" ++ w ++ fix_css_prop prop post.
Proof.
  intros Hb Hpend Hs1 Hs2 Hw Hw' Hpost. unfold fix_css_prop.
  pose (m := (prop ++ s1 :: "-" :: s2 :: w)%char).
  replace (prop ++ [s1] ++ txt "-" ++ [s2] ++ w ++ post) with (m ++ post)
    by (unfold m; reassoc).
  assert (Em : m ++ post = (prop ++ s1 :: "-" :: s2 :: w ++ post)%char)
    by (unfold m; reassoc).
  rewrite (sub_occurrence (css_prop_re prop) (css_prop_tpl prop) pre m post [w]).
  - cbn [css_prop_tpl expand flat_map nth pred txt list_ascii_of_string].
    rewrite app_nil_r. reassoc.
  - intros v u E Hu. rewrite Em. apply (css_prop_local pre); auto.
  - apply css_prop_nil.
  - unfold m. destruct prop; [congruence | discriminate].
  - rewrite Em. apply css_prop_match; auto.
    unfold ends_at_boundary in Hb. apply negb_true_iff in Hb. exact Hb.
  - unfold re_sub. destruct post as [|d post].
    + cbn [sub_from]. rewrite !css_prop_nil. reflexivity.
    + simpl in Hpost. apply negb_true_iff in Hpost.
      assert (Hd : is_lower d = false).
      { destruct (is_lower d) eqn:El; [|reflexivity].
        rewrite (lower_alpha_hyphen d El) in Hpost. discriminate. }
      rewrite !sub_miss by (apply css_prop_miss; exact Hd). reflexivity.
Qed.
End KnownProperty.

(** ** [str.replace] *)

Section Replace.
Variables (a : ascii) (old' new : text).
Let old := a :: old'.

Lemma replace_unfold s : replace old new s = replace_from old new s 0.
Proof. reflexivity. Qed.

Lemma replace_from_skip m s :
  replace_from old new (m ++ s) (length m) = replace_from old new s 0.
Proof. induction m as [|c m IH]; [reflexivity | exact IH]. Qed.

Lemma replace_hit s : replace old new (old ++ s) = new ++ replace old new s.
Proof.
  rewrite !replace_unfold. unfold old at 2. cbn [app replace_from].
  change (a :: old' ++ s) with (old ++ s). rewrite prefixb_app.
  replace (length old - 1) with (length old') by (unfold old; simpl; lia).
  rewrite replace_from_skip. reflexivity.
Qed.

Lemma replace_miss c s :
  prefixb old (c :: s) = false ->
  replace old new (c :: s) = c :: replace old new s.
Proof. intros H. rewrite !replace_unfold. cbn [replace_from]. rewrite H. reflexivity. Qed.

Lemma occursb_tail c s : occursb old (c :: s) = false -> occursb old s = false.
Proof.
  cbn [occursb]. intros H. apply orb_false_iff in H as [_ H]. exact H.
Qed.

(** A text in which [old] does not occur is left as it is. *)
Lemma replace_absent s : occursb old s = false -> replace old new s = s.
Proof.
  induction s as [|c s IH]; intros H; [reflexivity|].
  rewrite replace_miss.
  - rewrite IH; [reflexivity | apply (occursb_tail c); exact H].
  - cbn [occursb] in H. apply orb_false_iff in H as [H _]. exact H.
Qed.

(** A character that occurs in [old] at most as its first character cannot
    lie inside an occurrence begun before it. *)
Lemma prefixb_cut c u r :
  ~ In c old' -> u <> [] -> prefixb old (u ++ c :: r) = prefixb old u.
Proof.
  intros Hc Hu. destruct (prefixb old u) eqn:E.
  - apply prefixb_spec in E as [t ->]. rewrite <- app_assoc. apply prefixb_app.
  - destruct (prefixb old (u ++ c :: r)) eqn:E'; [|reflexivity].
    exfalso. apply prefixb_spec in E' as [t Ht].
    apply app_eq_app in Ht as [l [[E1 E2]|[E1 E2]]].
    + rewrite E1, prefixb_app in E. discriminate.
    + destruct l as [|x l].
      * rewrite app_nil_r in E1. rewrite <- E1 in E.
        assert (prefixb old old = true)
          by (apply prefixb_spec; exists []; symmetry; apply app_nil_r).
        congruence.
      * injection E2 as <- _. destruct u as [|y u]; [congruence|].
        unfold old in E1. injection E1 as _ E1. apply Hc. rewrite E1.
        apply in_or_app. right. left. reflexivity.
Qed.

Lemma replace_from_cut c r :
  ~ In c old' ->
  forall pre skip, skip <= length pre ->
    replace_from old new (pre ++ c :: r) skip
    = replace_from old new pre skip ++ replace_from old new (c :: r) 0.
Proof.
  intros Hc. induction pre as [|x pre IH]; intros skip Hskip.
  - simpl in Hskip. assert (skip = 0) as -> by lia. reflexivity.
  - destruct skip as [|k]; cbn [app replace_from].
    + change (x :: pre ++ c :: r) with ((x :: pre) ++ c :: r).
      rewrite prefixb_cut by (auto; discriminate).
      destruct (prefixb old (x :: pre)) eqn:E.
      * apply prefixb_spec in E as [t Ht]. unfold old in Ht. injection Ht as _ Ht.
        rewrite IH; [rewrite app_assoc; reflexivity|].
        unfold old. cbn [length]. rewrite Ht, length_app. lia.
      * rewrite IH by lia. reflexivity.
    + simpl in Hskip. apply IH. lia.
Qed.

Lemma replace_cut c pre r :
  ~ In c old' ->
  replace old new (pre ++ c :: r) = replace old new pre ++ replace old new (c :: r).
Proof. intros Hc. rewrite !replace_unfold. apply replace_from_cut; [exact Hc | lia]. Qed.

(** An occurrence in context, when the first character of [old] does not
    occur again in [old]. *)
Lemma replace_occurrence pre post :
  ~ In a old' ->
  replace old new (pre ++ old ++ post)
  = replace old new pre ++ new ++ replace old new post.
Proof.
  intros Ha. unfold old at 2. cbn [app]. rewrite replace_cut by exact Ha.
  change (a :: old' ++ post) with (old ++ post). rewrite replace_hit. reflexivity.
Qed.
End Replace.

Lemma not_in_b c (l : text) : existsb (Ascii.eqb c) l = false -> ~ In c l.
Proof.
  intros H Hin. assert (existsb (Ascii.eqb c) l = true); [|congruence].
  apply existsb_exists. exists c. split; [exact Hin | apply Ascii.eqb_refl].
Qed.

(** A stretch of text without the first character of [old] is copied. *)
Lemma replace_through a old' new m s :
  ~ In a m ->
  replace (a :: old') new (m ++ s) = m ++ replace (a :: old') new s.
Proof.
  induction m as [|c m IH]; intros H; [reflexivity|].
  cbn [app]. rewrite replace_miss.
  - rewrite IH; [reflexivity|]. intros Hin. apply H. right. exact Hin.
  - cbn [prefixb]. destruct (Ascii.eqb_spec a c) as [->|]; [|reflexivity].
    exfalso. apply H. left. reflexivity.
Qed.

Lemma mismatch_prefixb old b post :
  mismatch old b = true -> prefixb old (b ++ post) = false.
Proof.
  revert b. induction old as [|x old IH]; intros [|y b]; simpl; try discriminate.
  intros H. destruct (Ascii.eqb x y); simpl in *; [apply IH; exact H | reflexivity].
Qed.

Lemma replace_over old new b post :
  old <> [] -> clear_of old b = true ->
  replace old new (b ++ post) = b ++ replace old new post.
Proof.
  intros Hne. destruct old as [|a old']; [congruence|]. clear Hne.
  induction b as [|c b IH]; intros H; [reflexivity|].
  cbn [clear_of] in H. apply andb_true_iff in H as [H1 H2].
  cbn [app]. rewrite replace_miss.
  - rewrite IH by exact H2. reflexivity.
  - apply (mismatch_prefixb (a :: old') (c :: b) post H1).
Qed.

(** A literal [b] that no occurrence of [old] can overlap is a barrier: the
    texts on its two sides are rewritten independently. *)
Lemma replace_barrier old new b pre post :
  cuts old b = true ->
  replace old new (pre ++ b ++ post)
  = replace old new pre ++ b ++ replace old new post.
Proof.
  unfold cuts. destruct old as [|a t]; [discriminate|].
  destruct b as [|c b]; [discriminate|]. intros H.
  apply andb_true_iff in H as [H1 H2]. apply negb_true_iff in H1.
  cbn [app]. rewrite replace_cut by (apply not_in_b; exact H1).
  change (c :: b ++ post) with ((c :: b) ++ post).
  rewrite replace_over; [reflexivity | discriminate | exact H2].
Qed.

Lemma replace_self_free old new pre post :
  self_free old = true ->
  replace old new (pre ++ old ++ post)
  = replace old new pre ++ new ++ replace old new post.
Proof.
  unfold self_free. destruct old as [|a t]; [discriminate|]. intros H.
  apply negb_true_iff in H. apply replace_occurrence. apply not_in_b. exact H.
Qed.

(** ** Pass 7: the prose phrases *)

Lemma fix_prose_unfold s :
  fix_prose s
  = replace (txt "Free - for - All") (txt "Free-for-All")
      (replace (txt "Co - op") (txt "Co-op")
         (replace (txt "Free -for-All") (txt "Free-for-All") s)).
Proof. reflexivity. Qed.

Lemma fix_prose_co_op pre post :
  fix_prose (pre ++ txt "Co - op" ++ post)
  = fix_prose pre ++ txt "Co-op" ++ fix_prose post.
Proof.
  rewrite !fix_prose_unfold.
  rewrite replace_barrier by reflexivity.
  rewrite replace_self_free by reflexivity.
  rewrite replace_barrier by reflexivity.
  reflexivity.
Qed.

Lemma fix_prose_free_a pre post :
  fix_prose (pre ++ txt "Free -for-All" ++ post)
  = fix_prose pre ++ txt "Free-for-All" ++ fix_prose post.
Proof.
  rewrite !fix_prose_unfold.
  rewrite replace_self_free by reflexivity.
  rewrite replace_barrier by reflexivity.
  rewrite replace_barrier by reflexivity.
  reflexivity.
Qed.

Lemma fix_prose_free_b pre post :
  fix_prose (pre ++ txt "Free - for - All" ++ post)
  = fix_prose pre ++ txt "Free-for-All" ++ fix_prose post.
Proof.
  rewrite !fix_prose_unfold.
  rewrite replace_barrier by reflexivity.
  rewrite replace_barrier by reflexivity.
  rewrite replace_self_free by reflexivity.
  reflexivity.
Qed.

Lemma replace_absent' old new s :
  old <> [] -> occursb old s = false -> replace old new s = s.
Proof. destruct old; [congruence|]. intros _. apply replace_absent. Qed.

Lemma fix_prose_absent x :
  occursb (txt "Free -for-All") x = false ->
  occursb (txt "Co - op") x = false ->
  occursb (txt "Free - for - All") x = false ->
  fix_prose x = x.
Proof.
  intros HA HB HC. rewrite fix_prose_unfold.
  rewrite (replace_absent' _ _ x) by (discriminate || exact HA).
  rewrite (replace_absent' _ _ x) by (discriminate || exact HB).
  apply replace_absent'; [discriminate | exact HC].
Qed.

(** ** Text without traces of the corruption is a fixed point *)

Lemma corrupt_tail c s : corrupt (c :: s) = false -> corrupt s = false.
Proof.
  destruct s as [|b t]; [reflexivity|]. cbn [corrupt].
  intros H. apply orb_false_iff in H as [_ H]. exact H.
Qed.

Lemma corrupt_cons c s : corrupt s = true -> corrupt (c :: s) = true.
Proof.
  intros H. destruct (corrupt (c :: s)) eqn:E; [reflexivity|].
  apply corrupt_tail in E. congruence.
Qed.

Lemma corrupt_app_r u s : corrupt s = true -> corrupt (u ++ s) = true.
Proof. intros H. induction u as [|c u IH]; [exact H | apply corrupt_cons, IH]. Qed.

Lemma corrupt_app_l o r : corrupt o = true -> corrupt (o ++ r) = true.
Proof.
  induction o as [|a o IH]; [discriminate|].
  destruct o as [|b o]; [discriminate|].
  intros H. cbn [corrupt] in H. cbn [app corrupt].
  apply orb_true_iff in H as [H|H].
  - apply orb_true_iff. left.
    apply orb_true_iff in H as [H|H]; apply orb_true_iff; [left; exact H|right].
    apply andb_true_iff in H as [H1 H2]. rewrite H1. cbn [andb].
    apply orb_true_iff in H2 as [H2|H2]; [rewrite H2; reflexivity|].
    apply andb_true_iff in H2 as [H2 H3]. rewrite H2. cbn [andb].
    destruct o as [|c o]; [discriminate|]. cbn [app]. rewrite H3.
    apply orb_true_r.
  - apply orb_true_iff. right. apply IH. exact H.
Qed.

Lemma corrupt_space_hyphen a r : is_space a = true -> corrupt (a :: "-"%char :: r) = true.
Proof. intros H. cbn [corrupt]. rewrite H. reflexivity. Qed.

Lemma corrupt_space_equals a r : is_space a = true -> corrupt (a :: "="%char :: r) = true.
Proof. intros H. cbn [corrupt]. rewrite H. reflexivity. Qed.

Lemma tidy_tail c s : tidy (c :: s) = true -> tidy s = true.
Proof.
  unfold tidy. intros H. apply negb_true_iff in H. apply negb_true_iff.
  apply (corrupt_tail c). exact H.
Qed.

Lemma no_match_from_corrupt pat :
  (forall prev s x, mseq pat [] prev s = Some x -> corrupt s = true) ->
  forall prev s, tidy s = true -> mseq pat [] prev s = None.
Proof.
  intros H prev s Hs. destruct (mseq pat [] prev s) eqn:E; [|reflexivity].
  apply H in E. unfold tidy in Hs. rewrite E in Hs. discriminate.
Qed.

Lemma re_sub_tidy pat tpl :
  (forall prev s x, mseq pat [] prev s = Some x -> corrupt s = true) ->
  forall s, corrupt s = false -> re_sub pat tpl s = s.
Proof.
  intros H s Hs. unfold re_sub.
  apply (sub_no_match pat tpl tidy tidy_tail (no_match_from_corrupt pat H)).
  unfold tidy. rewrite Hs. reflexivity.
Qed.

Lemma closing_tag_needs prev s x :
  mseq closing_tag_re [] prev s = Some x -> corrupt s = true.
Proof.
  unfold closing_tag_re. destruct s as [|a s]; [discriminate|].
  rewrite mseq_lit. destruct (Ascii.eqb_spec a "<") as [->|]; [|discriminate].
  destruct s as [|b s]; [discriminate|].
  rewrite mseq_lit. destruct (Ascii.eqb_spec b "/") as [->|]; [|discriminate].
  rewrite mseq_plus. intros H.
  apply plus_sound in H as (c & w & s' & -> & Hc & _).
  cbn [corrupt]. rewrite Hc. reflexivity.
Qed.

Lemma opening_tag_needs prev s x :
  mseq opening_tag_re [] prev s = Some x -> corrupt s = true.
Proof.
  unfold opening_tag_re. destruct s as [|a s]; [discriminate|].
  rewrite mseq_lit. destruct (Ascii.eqb_spec a "<") as [->|]; [|discriminate].
  rewrite mseq_plus. intros H.
  apply plus_sound in H as (c & w & s' & -> & Hc & _).
  cbn [corrupt]. rewrite Hc. reflexivity.
Qed.

Lemma attr_hyphen_needs prev s x :
  mseq attr_hyphen_re [] prev s = Some x -> corrupt s = true.
Proof.
  unfold attr_hyphen_re. rewrite mseq_bnd.
  destruct (at_boundary prev s); [|discriminate].
  rewrite mseq_cap. intros H.
  apply plus_sound in H as (c & w & s' & -> & _ & _ & H).
  destruct s' as [|a s']; [discriminate|]. rewrite mseq_cls in H.
  destruct (is_space a) eqn:Ha; [|discriminate].
  destruct s' as [|b s']; [discriminate|]. rewrite mseq_lit in H.
  destruct (Ascii.eqb_spec b "-") as [->|]; [|discriminate].
  change (c :: w ++ a :: "-"%char :: s') with ((c :: w) ++ a :: "-"%char :: s').
  apply corrupt_app_r, corrupt_space_hyphen. exact Ha.
Qed.

Lemma attr_equals_needs prev s x :
  mseq attr_equals_re [] prev s = Some x -> corrupt s = true.
Proof.
  unfold attr_equals_re. rewrite mseq_bnd.
  destruct (at_boundary prev s); [|discriminate].
  rewrite mseq_cap. intros H.
  apply plus_sound in H as (c & w & s' & -> & _ & _ & H).
  destruct s' as [|a s']; [discriminate|]. rewrite mseq_cls in H.
  destruct (is_space a) eqn:Ha; [|discriminate].
  destruct s' as [|b s']; [discriminate|]. rewrite mseq_lit in H.
  destruct (Ascii.eqb_spec b "=") as [->|]; [|discriminate].
  change (c :: w ++ a :: "="%char :: s') with ((c :: w) ++ a :: "="%char :: s').
  apply corrupt_app_r, corrupt_space_equals. exact Ha.
Qed.

Lemma css_prop_needs prop prev s x :
  mseq (css_prop_re prop) [] prev s = Some x -> corrupt s = true.
Proof.
  unfold css_prop_re, css_prop_tail. rewrite mseq_bnd.
  destruct (at_boundary prev s); [|discriminate].
  intros H. apply mseq_lits_inv in H as (s' & -> & H).
  destruct s' as [|a s']; [discriminate|]. rewrite mseq_cls in H.
  destruct (is_space a) eqn:Ha; [|discriminate].
  destruct s' as [|b s']; [discriminate|]. rewrite mseq_lit in H.
  destruct (Ascii.eqb_spec b "-") as [->|]; [|discriminate].
  apply corrupt_app_r, corrupt_space_hyphen. exact Ha.
Qed.

Lemma fix_css_props_tidy s : corrupt s = false -> fix_css_props s = s.
Proof.
  intros Hs. unfold fix_css_props.
  induction known_css_props as [|prop l IH]; [reflexivity|].
  cbn [fold_left]. unfold fix_css_prop at 2.
  rewrite (re_sub_tidy _ _ (css_prop_needs prop) s Hs). exact IH.
Qed.

Lemma occursb_inv old s :
  occursb old s = true -> exists l r, s = l ++ old ++ r.
Proof.
  induction s as [|c s IH]; cbn [occursb]; intros H.
  - rewrite orb_false_r in H. apply prefixb_spec in H as [r ->].
    exists [], r. reflexivity.
  - apply orb_true_iff in H as [H|H].
    + apply prefixb_spec in H as [r ->]. exists [], r. reflexivity.
    + destruct (IH H) as (l & r & ->). exists (c :: l), r. reflexivity.
Qed.

Lemma replace_tidy old new s :
  corrupt old = true -> corrupt s = false -> replace old new s = s.
Proof.
  intros Ho Hs. apply replace_absent'; [intros ->; discriminate|].
  destruct (occursb old s) eqn:E; [|reflexivity].
  apply occursb_inv in E as (l & r & ->).
  assert (corrupt (l ++ old ++ r) = true)
    by (apply corrupt_app_r, corrupt_app_l; exact Ho).
  congruence.
Qed.

Lemma apply_table_tidy tbl s :
  forallb (fun p => corrupt (fst p)) tbl = true ->
  corrupt s = false -> apply_table tbl s = s.
Proof.
  intros Ht Hs. unfold apply_table.
  induction tbl as [|[o n] tbl IH]; [reflexivity|].
  cbn [forallb fst] in Ht. apply andb_true_iff in Ht as [Ho Ht].
  cbn [fold_left fst snd]. rewrite (replace_tidy o n s Ho Hs). apply IH. exact Ht.
Qed.

Lemma prefixes_loop_id s : prefixes_loop s = s.
Proof.
  unfold prefixes_loop. induction prefixes as [|p l IH]; [reflexivity | exact IH].
Qed.

Lemma pipeline_tidy s : corrupt s = false -> pipeline s = s.
Proof.
  intros Hs. unfold pipeline.
  unfold fix_closing_tags. rewrite (re_sub_tidy _ _ closing_tag_needs s Hs).
  unfold fix_opening_tags. rewrite (re_sub_tidy _ _ opening_tag_needs s Hs).
  unfold fix_attr_hyphen. rewrite (re_sub_tidy _ _ attr_hyphen_needs s Hs).
  unfold fix_attr_equals. rewrite (re_sub_tidy _ _ attr_equals_needs s Hs).
  rewrite (fix_css_props_tidy s Hs), prefixes_loop_id.
  unfold fix_selectors. rewrite (apply_table_tidy selector_table s) by (reflexivity || exact Hs).
  unfold fix_prose. apply apply_table_tidy; [reflexivity | exact Hs].
Qed.

(** ** No pass lengthens the text *)

Lemma text_eq_dec (a b : text) : {a = b} + {a <> b}.
Proof. apply list_eq_dec, ascii_dec. Defined.

Lemma mseq_lit_inv c r caps prev s x :
  mseq (Lit c :: r) caps prev s = Some x ->
  exists s', s = c :: s' /\ mseq r caps (Some c) s' = Some x.
Proof.
  destruct s as [|a s]; [discriminate|]. rewrite mseq_lit.
  destruct (Ascii.eqb_spec a c) as [->|]; [|discriminate]. eauto.
Qed.

Lemma mseq_cls_inv p r caps prev s x :
  mseq (Cls p :: r) caps prev s = Some x ->
  exists a s', s = a :: s' /\ p a = true /\ mseq r caps (Some a) s' = Some x.
Proof.
  destruct s as [|a s]; [discriminate|]. rewrite mseq_cls.
  destruct (p a) eqn:Ha; [|discriminate]. eauto.
Qed.

Lemma mseq_plus_inv p r caps prev s x :
  mseq (Plus p :: r) caps prev s = Some x ->
  exists w s', s = w ++ s' /\ w <> []
               /\ mseq r caps (adv prev w) s' = Some x.
Proof.
  rewrite mseq_plus. intros H.
  apply plus_sound in H as (c & w & s' & -> & _ & _ & H).
  exists (c :: w), s'. repeat split; [discriminate | exact H].
Qed.

Lemma mseq_cap_inv p r caps prev s x :
  mseq (Cap p :: r) caps prev s = Some x ->
  exists w s', s = w ++ s' /\ w <> []
               /\ mseq r (caps ++ [w]) (adv prev w) s' = Some x.
Proof.
  rewrite mseq_cap. intros H.
  apply plus_sound in H as (c & w & s' & -> & _ & _ & H).
  exists (c :: w), s'. repeat split; [discriminate | exact H].
Qed.

Lemma mseq_bnd_inv r caps prev s x :
  mseq (Bnd :: r) caps prev s = Some x -> mseq r caps prev s = Some x.
Proof. rewrite mseq_bnd. destruct (at_boundary prev s); [auto | discriminate]. Qed.

Lemma mseq_end_inv caps prev s caps' rest :
  mseq [] caps prev s = Some (caps', rest) -> caps' = caps /\ rest = s.
Proof. simpl. intros H. injection H as <- <-. auto. Qed.

Section Shrink.
Variables (pat : regex) (tpl : template).

(** Every match is replaced by something shorter. *)
Hypothesis shorter :
  forall prev s caps rest,
    mseq pat [] prev s = Some (caps, rest) ->
    length (expand tpl caps) + length rest < length s.

Lemma sub_from_length s :
  forall prev skip, skip <= length s ->
    length (sub_from pat tpl prev s skip) + skip <= length s.
Proof.
  induction s as [|c s IH]; intros prev skip Hskip.
  - simpl in Hskip. assert (skip = 0) as -> by lia. cbn [sub_from].
    destruct (mseq pat [] prev []) as [[caps rest]|] eqn:E; [|simpl; lia].
    apply shorter in E. simpl in E. lia.
  - destruct skip as [|k]; cbn [sub_from].
    + destruct (mseq pat [] prev (c :: s)) as [[caps rest]|] eqn:E.
      * apply shorter in E. cbn [length] in E.
        replace (Nat.eqb (length rest) (length (c :: s))) with false
          by (symmetry; apply Nat.eqb_neq; cbn [length]; lia).
        rewrite length_app.
        specialize (IH (Some c) (length s - length rest) ltac:(lia)).
        cbn [length]. lia.
      * specialize (IH (Some c) 0 ltac:(lia)). cbn [length]. lia.
    + cbn [length] in *. specialize (IH (Some c) k ltac:(lia)). lia.
Qed.

Lemma sub_from_same_length s :
  forall prev, length (sub_from pat tpl prev s 0) = length s ->
               sub_from pat tpl prev s 0 = s.
Proof.
  induction s as [|c s IH]; intros prev H.
  - destruct (sub_from pat tpl prev [] 0); [reflexivity | discriminate].
  - cbn [sub_from] in *.
    destruct (mseq pat [] prev (c :: s)) as [[caps rest]|] eqn:E.
    + exfalso. apply shorter in E. cbn [length] in E.
      replace (Nat.eqb (length rest) (length (c :: s))) with false in H
        by (symmetry; apply Nat.eqb_neq; cbn [length]; lia).
      rewrite length_app in H.
      assert (L := sub_from_length s (Some c) (length s - length rest) ltac:(lia)).
      cbn [length] in H. lia.
    + cbn [length] in H. injection H as H. rewrite (IH (Some c) H). reflexivity.
Qed.

Lemma re_sub_shrinking : shrinking (re_sub pat tpl).
Proof.
  intros s. unfold re_sub. split.
  - assert (L := sub_from_length s None 0 ltac:(lia)). lia.
  - apply sub_from_same_length.
Qed.
End Shrink.

Lemma shrinking_compose f g :
  shrinking f -> shrinking g -> shrinking (fun s => g (f s)).
Proof.
  intros Hf Hg s. destruct (Hf s) as [Lf Ef]. destruct (Hg (f s)) as [Lg Eg].
  split; [lia|]. intros H.
  assert (E1 : length (g (f s)) = length (f s)) by lia.
  rewrite (Eg E1). apply Ef. rewrite <- E1. exact H.
Qed.

Lemma shrinking_fold {A} (step : A -> text -> text) (l : list A) :
  (forall a, In a l -> shrinking (step a)) ->
  shrinking (fun s => fold_left (fun c a => step a c) l s).
Proof.
  induction l as [|a l IH]; intros H.
  - intros s. simpl. auto.
  - cbn [fold_left].
    apply (shrinking_compose (step a)
             (fun s => fold_left (fun c a => step a c) l s)).
    + apply H. left. reflexivity.
    + apply IH. intros b Hb. apply H. right. exact Hb.
Qed.

Lemma closing_tag_shorter prev s caps rest :
  mseq closing_tag_re [] prev s = Some (caps, rest) ->
  length (expand closing_tag_tpl caps) + length rest < length s.
Proof.
  unfold closing_tag_re. intros H.
  apply mseq_lit_inv in H as (s1 & -> & H).
  apply mseq_lit_inv in H as (s2 & -> & H).
  apply mseq_plus_inv in H as (ws & s3 & -> & Hws & H).
  apply mseq_cap_inv in H as (name & s4 & -> & Hn & H).
  apply mseq_lit_inv in H as (s5 & -> & H).
  apply mseq_end_inv in H as [-> ->].
  destruct ws; [congruence|].
  cbn [closing_tag_tpl expand flat_map nth pred app txt list_ascii_of_string].
  rewrite ?length_app. cbn [length]. rewrite ?length_app. cbn [length]. lia.
Qed.

Lemma opening_tag_shorter prev s caps rest :
  mseq opening_tag_re [] prev s = Some (caps, rest) ->
  length (expand opening_tag_tpl caps) + length rest < length s.
Proof.
  unfold opening_tag_re. intros H.
  apply mseq_lit_inv in H as (s1 & -> & H).
  apply mseq_plus_inv in H as (ws & s3 & -> & Hws & H).
  apply mseq_cap_inv in H as (name & s4 & -> & Hn & H).
  apply mseq_end_inv in H as [-> ->].
  destruct ws; [congruence|].
  cbn [opening_tag_tpl expand flat_map nth pred app txt list_ascii_of_string].
  rewrite ?length_app. cbn [length]. rewrite ?length_app. cbn [length]. lia.
Qed.

Lemma attr_hyphen_shorter prev s caps rest :
  mseq attr_hyphen_re [] prev s = Some (caps, rest) ->
  length (expand attr_hyphen_tpl caps) + length rest < length s.
Proof.
  unfold attr_hyphen_re. intros H.
  apply mseq_bnd_inv in H.
  apply mseq_cap_inv in H as (w1 & s1 & -> & H1 & H).
  apply mseq_cls_inv in H as (a & s2 & -> & _ & H).
  apply mseq_lit_inv in H as (s3 & -> & H).
  apply mseq_cls_inv in H as (b & s4 & -> & _ & H).
  apply mseq_cap_inv in H as (w2 & s5 & -> & H2 & H).
  apply mseq_lit_inv in H as (s6 & -> & H).
  apply mseq_end_inv in H as [-> ->].
  cbn [attr_hyphen_tpl expand flat_map nth pred app txt list_ascii_of_string].
  rewrite ?length_app. cbn [length]. rewrite ?length_app. cbn [length]. lia.
Qed.

Lemma attr_equals_shorter prev s caps rest :
  mseq attr_equals_re [] prev s = Some (caps, rest) ->
  length (expand attr_equals_tpl caps) + length rest < length s.
Proof.
  unfold attr_equals_re. intros H.
  apply mseq_bnd_inv in H.
  apply mseq_cap_inv in H as (w1 & s1 & -> & H1 & H).
  apply mseq_cls_inv in H as (a & s2 & -> & _ & H).
  apply mseq_lit_inv in H as (s3 & -> & H).
  apply mseq_cls_inv in H as (b & s4 & -> & _ & H).
  apply mseq_lit_inv in H as (s5 & -> & H).
  apply mseq_end_inv in H as [-> ->].
  cbn [attr_equals_tpl expand flat_map nth pred app txt list_ascii_of_string].
  rewrite ?length_app. cbn [length]. lia.
Qed.

Lemma css_prop_shorter prop prev s caps rest :
  mseq (css_prop_re prop) [] prev s = Some (caps, rest) ->
  length (expand (css_prop_tpl prop) caps) + length rest < length s.
Proof.
  unfold css_prop_re, css_prop_tail. intros H.
  apply mseq_bnd_inv in H.
  apply mseq_lits_inv in H as (s0 & -> & H).
  apply mseq_cls_inv in H as (a & s2 & -> & _ & H).
  apply mseq_lit_inv in H as (s3 & -> & H).
  apply mseq_cls_inv in H as (b & s4 & -> & _ & H).
  apply mseq_cap_inv in H as (w & s5 & -> & Hw & H).
  apply mseq_end_inv in H as [-> ->].
  cbn [css_prop_tpl expand flat_map nth pred app txt list_ascii_of_string].
  rewrite ?length_app. cbn [length]. rewrite ?length_app. cbn [length]. lia.
Qed.

Section ReplaceShrink.
Variables (a : ascii) (old' new : text).
Let old := a :: old'.
Hypothesis new_shorter : length new < length old.

Lemma replace_from_length s :
  forall skip, skip <= length s ->
    length (replace_from old new s skip) + skip <= length s.
Proof.
  induction s as [|c s IH]; intros skip Hskip.
  - simpl in *. lia.
  - destruct skip as [|k]; cbn [replace_from].
    + destruct (prefixb old (c :: s)) eqn:E.
      * apply prefixb_spec in E as [r Hr].
        assert (L : length old <= S (length s)).
        { change (S (length s)) with (length (c :: s)).
          rewrite Hr, length_app. lia. }
        rewrite length_app.
        specialize (IH (length old - 1) ltac:(lia)). cbn [length]. lia.
      * specialize (IH 0 ltac:(lia)). cbn [length]. lia.
    + cbn [length] in *. specialize (IH k ltac:(lia)). lia.
Qed.

Lemma replace_from_same_length s :
  length (replace_from old new s 0) = length s -> replace_from old new s 0 = s.
Proof.
  induction s as [|c s IH]; intros H; [reflexivity|].
  cbn [replace_from] in *. destruct (prefixb old (c :: s)) eqn:E.
  - exfalso. apply prefixb_spec in E as [r Hr].
    assert (L : length old <= S (length s)).
    { change (S (length s)) with (length (c :: s)).
      rewrite Hr, length_app. lia. }
    rewrite length_app in H.
    assert (L' := replace_from_length s (length old - 1) ltac:(lia)).
    cbn [length] in H. lia.
  - cbn [length] in H. injection H as H. rewrite (IH H). reflexivity.
Qed.

Lemma replace_shrinking : shrinking (replace old new).
Proof.
  intros s. unfold old. rewrite replace_unfold. split.
  - assert (L := replace_from_length s 0 ltac:(lia)). unfold old in L. lia.
  - apply replace_from_same_length.
Qed.
End ReplaceShrink.

Lemma apply_table_shrinking tbl :
  forallb (fun p => Nat.ltb (length (snd p)) (length (fst p))) tbl = true ->
  shrinking (apply_table tbl).
Proof.
  intros H. unfold apply_table.
  apply (shrinking_fold (fun p s => replace (fst p) (snd p) s)).
  intros [o n] Hin. rewrite forallb_forall in H. apply H in Hin.
  cbn [fst snd] in *. apply Nat.ltb_lt in Hin.
  destruct o as [|a o']; [simpl in Hin; lia|].
  apply replace_shrinking. exact Hin.
Qed.

Lemma fix_css_props_shrinking : shrinking fix_css_props.
Proof.
  unfold fix_css_props. apply (shrinking_fold fix_css_prop).
  intros prop _. apply re_sub_shrinking, css_prop_shorter.
Qed.

Lemma prefixes_loop_shrinking : shrinking prefixes_loop.
Proof. intros s. rewrite prefixes_loop_id. auto. Qed.

Lemma pipeline_shrinking : shrinking pipeline.
Proof.
  assert (H1 : shrinking fix_closing_tags)
    by apply re_sub_shrinking, closing_tag_shorter.
  assert (H2 : shrinking fix_opening_tags)
    by apply re_sub_shrinking, opening_tag_shorter.
  assert (H3 : shrinking fix_attr_hyphen)
    by apply re_sub_shrinking, attr_hyphen_shorter.
  assert (H4 : shrinking fix_attr_equals)
    by apply re_sub_shrinking, attr_equals_shorter.
  assert (H7 : shrinking fix_selectors)
    by (apply apply_table_shrinking; reflexivity).
  assert (H8 : shrinking fix_prose)
    by (apply apply_table_shrinking; reflexivity).
  exact (shrinking_compose _ _
           (shrinking_compose _ _
              (shrinking_compose _ _
                 (shrinking_compose _ _
                    (shrinking_compose _ _
                       (shrinking_compose _ _
                          (shrinking_compose _ _ H1 H2) H3) H4)
                    fix_css_props_shrinking)
                 prefixes_loop_shrinking) H7) H8).
Qed.

(** Run after run the text gets shorter or stays: after as many runs as the
    text has characters nothing changes any more. *)
Lemma pipeline_settles n :
  forall x, length x <= n ->
            pipeline (Nat.iter n pipeline x) = Nat.iter n pipeline x.
Proof.
  assert (Hfix : forall k x, pipeline x = x -> Nat.iter k pipeline x = x).
  { induction k as [|k IHk]; intros x E; [reflexivity|].
    rewrite Nat.iter_succ, IHk by exact E. exact E. }
  induction n as [|n IH]; intros x L.
  - destruct x; [|simpl in L; lia].
    destruct (pipeline_shrinking []) as [L0 _].
    change (Nat.iter 0 pipeline []) with ([] : text).
    destruct (pipeline []); [reflexivity | simpl in L0; lia].
  - destruct (text_eq_dec (pipeline x) x) as [E|E].
    + rewrite Hfix by exact E. exact E.
    + rewrite Nat.iter_succ_r. apply IH.
      destruct (pipeline_shrinking x) as [L1 L2].
      assert (length (pipeline x) <> length x) by (intros F; apply E, L2, F).
      lia.
Qed.

(** ** Pass 5 on a whole document *)

(** The longest run of class [p] at the head of a text. *)
Lemma run_split (p : ascii -> bool) s :
  exists w r, s = w ++ r /\ all_in p w = true /\ stops p r = true.
Proof.
  induction s as [|c s IH].
  - exists [], []. auto.
  - destruct (p c) eqn:Hc.
    + destruct IH as (w & r & -> & Hw & Hr). exists (c :: w), r.
      simpl. rewrite Hc, Hw. auto.
    + exists [], (c :: s). simpl. rewrite Hc. auto.
Qed.

Lemma run_unique (p : ascii -> bool) w1 : forall w2 r1 r2,
  w1 ++ r1 = w2 ++ r2 -> all_in p w1 = true -> all_in p w2 = true ->
  stops p r1 = true -> stops p r2 = true -> w1 = w2 /\ r1 = r2.
Proof.
  induction w1 as [|a w1 IH]; intros [|b w2] r1 r2 E H1 H2 S1 S2; simpl in *.
  - auto.
  - subst r1. simpl in S1. apply andb_true_iff in H2 as [Hb _].
    rewrite Hb in S1. discriminate.
  - subst r2. simpl in S2. apply andb_true_iff in H1 as [Ha _].
    rewrite Ha in S2. discriminate.
  - injection E as -> E. apply andb_true_iff in H1 as [_ H1].
    apply andb_true_iff in H2 as [_ H2].
    destruct (IH w2 r1 r2 E H1 H2 S1 S2) as [-> ->]. auto.
Qed.

Lemma all_in_weaken (p p' : ascii -> bool) u :
  (forall c, p c = true -> p' c = true) ->
  all_in p u = true -> all_in p' u = true.
Proof.
  intros H. induction u as [|c u IH]; simpl; [reflexivity|].
  intros E. apply andb_true_iff in E as [Hc Hu].
  rewrite (H c Hc), (IH Hu). reflexivity.
Qed.

Lemma all_in_join (p : ascii -> bool) u v :
  all_in p u = true -> all_in p v = true -> all_in p (u ++ v) = true.
Proof.
  intros Hu Hv. unfold all_in in *. rewrite forallb_app, Hu, Hv. reflexivity.
Qed.

Lemma not_alpha_hyphen_not_lower d : alpha_hyphen d = false -> is_lower d = false.
Proof.
  intros H. destruct (is_lower d) eqn:E; [|reflexivity].
  rewrite (lower_alpha_hyphen d E) in H. discriminate.
Qed.

Lemma space_not_lower a : is_space a = true -> is_lower a = false.
Proof.
  intros H. destruct (is_lower a) eqn:E; [|reflexivity].
  rewrite (lower_not_space a E) in H. discriminate.
Qed.

(** A group that ends the pattern takes the longest run. *)
Lemma cap_last_inv p caps prev s caps' rest :
  mseq [Cap p] caps prev s = Some (caps', rest) ->
  exists W, s = W ++ rest /\ caps' = caps ++ [W] /\ W <> []
            /\ all_in p W = true /\ stops p rest = true.
Proof.
  intros H. destruct (run_split p s) as (W & r & -> & HW & Hr).
  rewrite mseq_cap in H. destruct W as [|c W].
  - exfalso. cbn [app] in H. destruct r as [|d r]; [discriminate|].
    simpl in Hr. apply negb_true_iff in Hr.
    rewrite plus_refuses in H by exact Hr. discriminate.
  - rewrite (plus_greedy p _ (c :: W) r prev (caps ++ [c :: W], r)) in H;
      [ | discriminate | exact HW | exact Hr | reflexivity ].
    injection H as <- <-. exists (c :: W).
    repeat split; auto. discriminate.
Qed.

Section CssScan.
Variable q : text.
Hypothesis q_nonempty : q <> [].
Hypothesis q_lower : all_in is_lower q = true.

(** The anatomy of a match of the pattern of [q]. *)
Lemma css_prop_inv prev s caps rest :
  mseq (css_prop_re q) [] prev s = Some (caps, rest) ->
  exists a b W,
    s = q ++ a :: "-"%char :: b :: W ++ rest /\ caps = [W]
    /\ is_space a = true /\ is_space b = true
    /\ W <> [] /\ all_in alpha_hyphen W = true
    /\ stops alpha_hyphen rest = true
    /\ word_before prev = false.
Proof.
  unfold css_prop_re, css_prop_tail. intros H.
  rewrite mseq_bnd in H. destruct (at_boundary prev s) eqn:Hb; [|discriminate].
  apply mseq_lits_inv in H as (s0 & -> & H).
  apply mseq_cls_inv in H as (a & s2 & -> & Ha & H).
  apply mseq_lit_inv in H as (s3 & -> & H).
  apply mseq_cls_inv in H as (b & s4 & -> & Hb' & H).
  apply cap_last_inv in H as (W & -> & -> & HW & HW' & Hr).
  exists a, b, W. repeat split; auto.
  destruct (head_in is_lower q q_nonempty q_lower) as (z & t & E & Hz).
  rewrite E in Hb. unfold at_boundary in Hb. simpl in Hb.
  rewrite (lower_is_word z Hz) in Hb.
  destruct (word_before prev); [discriminate | reflexivity].
Qed.

Lemma scan_nil prev : sub_from (css_prop_re q) (css_prop_tpl q) prev [] 0 = [].
Proof.
  cbn [sub_from]. rewrite (css_prop_nil q q_nonempty q_lower). reflexivity.
Qed.

Lemma adv_match prev a b W :
  W <> [] -> adv prev (q ++ a :: "-"%char :: b :: W) = adv (Some b) W.
Proof.
  intros HW.
  change (q ++ a :: "-"%char :: b :: W) with (q ++ [a; "-"%char; b] ++ W).
  rewrite !adv_app. apply adv_nonempty. exact HW.
Qed.

Lemma adv_joined prev b W :
  W <> [] -> adv prev (q ++ "-"%char :: W) = adv (Some b) W.
Proof.
  intros HW. change (q ++ "-"%char :: W) with (q ++ ["-"%char] ++ W).
  rewrite !adv_app. apply adv_nonempty. exact HW.
Qed.

(** One step of the scan: the character is copied, or a match begins here
    and is replaced by its joined form. *)
Lemma scan_step prev c s :
  sub_from (css_prop_re q) (css_prop_tpl q) prev (c :: s) 0
    = c :: sub_from (css_prop_re q) (css_prop_tpl q) (Some c) s 0
  \/ exists a b W rest,
       c :: s = q ++ a :: "-"%char :: b :: W ++ rest
       /\ is_space a = true /\ is_space b = true
       /\ W <> [] /\ all_in alpha_hyphen W = true
       /\ stops alpha_hyphen rest = true
       /\ word_before prev = false
       /\ sub_from (css_prop_re q) (css_prop_tpl q) prev (c :: s) 0
          = q ++ "-"%char :: W
              ++ sub_from (css_prop_re q) (css_prop_tpl q)
                          (adv (Some b) W) rest 0.
Proof.
  destruct (mseq (css_prop_re q) [] prev (c :: s)) as [[caps rest]|] eqn:Hm.
  - right.
    destruct (css_prop_inv _ _ _ _ Hm)
      as (a & b & W & E & -> & Ha & Hb & HW & HW' & Hr & Hp).
    exists a, b, W, rest. repeat split; auto.
    destruct (head_in is_lower q q_nonempty q_lower) as (z & q0 & Eq & _).
    assert (E2 : q ++ a :: "-"%char :: b :: W ++ rest
                 = z :: (q0 ++ a :: "-"%char :: b :: W) ++ rest)
      by (rewrite Eq; reassoc).
    rewrite E in Hm |- *. rewrite E2 in Hm |- *.
    rewrite (sub_hit _ _ _ z _ rest [W] Hm).
    cbn [css_prop_tpl expand flat_map nth pred].
    replace (adv prev (z :: q0 ++ a :: "-"%char :: b :: W))
      with (adv (Some b) W).
    + rewrite app_nil_r. reassoc.
    + symmetry. rewrite <- (adv_match prev a b W HW). rewrite Eq. reflexivity.
  - left. apply sub_miss. exact Hm.
Qed.

(** Induction along the scan. *)
Lemma scan_ind (Pr : option ascii -> text -> Prop) :
  (forall prev, Pr prev []) ->
  (forall prev c s,
      sub_from (css_prop_re q) (css_prop_tpl q) prev (c :: s) 0
        = c :: sub_from (css_prop_re q) (css_prop_tpl q) (Some c) s 0 ->
      Pr (Some c) s -> Pr prev (c :: s)) ->
  (forall prev a b W rest,
      is_space a = true -> is_space b = true ->
      W <> [] -> all_in alpha_hyphen W = true ->
      stops alpha_hyphen rest = true -> word_before prev = false ->
      sub_from (css_prop_re q) (css_prop_tpl q) prev
               (q ++ a :: "-"%char :: b :: W ++ rest) 0
      = q ++ "-"%char :: W
          ++ sub_from (css_prop_re q) (css_prop_tpl q) (adv (Some b) W) rest 0 ->
      Pr (adv (Some b) W) rest ->
      Pr prev (q ++ a :: "-"%char :: b :: W ++ rest)) ->
  forall s prev, Pr prev s.
Proof.
  intros Hnil Hcopy Hhit.
  assert (H : forall n s prev, length s <= n -> Pr prev s).
  { induction n as [|n IH]; intros s prev Hn.
    - destruct s; [apply Hnil | simpl in Hn; lia].
    - destruct s as [|c s]; [apply Hnil|].
      destruct (scan_step prev c s)
        as [E|(a & b & W & rest & E & Ha & Hb & HW & HW' & Hr & Hp & Es)].
      + apply Hcopy; [exact E|]. apply IH. simpl in Hn. lia.
      + rewrite E in Es |- *. apply Hhit; auto. apply IH.
        assert (L : length (c :: s)
                    = length (q ++ a :: "-"%char :: b :: W ++ rest))
          by (rewrite E; reflexivity).
        rewrite length_app in L. cbn [length] in L, Hn.
        rewrite length_app in L. lia. }
  intros s prev. apply (H (length s)). lia.
Qed.

(** A character that cannot continue a word of letters and hyphens is
    copied, whatever stands before it. *)
Lemma scan_stops_cons prev d s :
  alpha_hyphen d = false ->
  sub_from (css_prop_re q) (css_prop_tpl q) prev (d :: s) 0
  = d :: sub_from (css_prop_re q) (css_prop_tpl q) (Some d) s 0.
Proof.
  intros Hd. apply sub_miss.
  apply (css_prop_miss q q_nonempty q_lower).
  apply not_alpha_hyphen_not_lower. exact Hd.
Qed.

Lemma scan_stops prev s :
  stops alpha_hyphen s = true ->
  sub_from (css_prop_re q) (css_prop_tpl q) prev s 0 = fix_css_prop q s
  /\ stops alpha_hyphen
       (sub_from (css_prop_re q) (css_prop_tpl q) prev s 0) = true.
Proof.
  intros Hs. unfold fix_css_prop, re_sub. destruct s as [|d s].
  - rewrite !scan_nil. auto.
  - simpl in Hs. apply negb_true_iff in Hs.
    rewrite !(scan_stops_cons _ d s Hs). split; [reflexivity|].
    simpl. rewrite Hs. reflexivity.
Qed.

(** The pass keeps the end of the text. *)
Lemma scan_adv : forall s prev x,
  adv x (sub_from (css_prop_re q) (css_prop_tpl q) prev s 0) = adv x s.
Proof.
  apply (scan_ind (fun prev s =>
           forall x,
             adv x (sub_from (css_prop_re q) (css_prop_tpl q) prev s 0)
             = adv x s)).
  - intros prev x. rewrite scan_nil. reflexivity.
  - intros prev c s E IH x. rewrite E, !adv_cons. apply IH.
  - intros prev a b W rest Ha Hb HW HW' Hr Hp E IH x. rewrite E.
    replace (q ++ "-"%char :: W
               ++ sub_from (css_prop_re q) (css_prop_tpl q)
                           (adv (Some b) W) rest 0)
      with ((q ++ "-"%char :: W)
              ++ sub_from (css_prop_re q) (css_prop_tpl q)
                          (adv (Some b) W) rest 0)
      by reassoc.
    replace (q ++ a :: "-"%char :: b :: W ++ rest)
      with ((q ++ a :: "-"%char :: b :: W) ++ rest) by reassoc.
    rewrite (adv_app x (q ++ "-"%char :: W)).
    rewrite (adv_app x (q ++ a :: "-"%char :: b :: W)), IH.
    rewrite (adv_joined x b W HW), (adv_match x a b W HW). reflexivity.
Qed.

Lemma fix_css_prop_boundary s :
  ends_at_boundary (fix_css_prop q s) = ends_at_boundary s.
Proof.
  unfold ends_at_boundary, fix_css_prop, re_sub. rewrite scan_adv. reflexivity.
Qed.

(** The pass keeps the first character of the text. *)
Lemma scan_head prev c s : exists t,
    sub_from (css_prop_re q) (css_prop_tpl q) prev (c :: s) 0
  = c :: t.
Proof.
  destruct (scan_step prev c s)
    as [E|(a & b & W & rest & E & _ & _ & _ & _ & _ & _ & Es)].
  - eauto.
  - destruct (head_in is_lower q q_nonempty q_lower) as (z & q0 & Eq & _).
    rewrite Es. rewrite Eq in E |- *. cbn [app] in E |- *.
    injection E as -> _. eauto.
Qed.

Lemma spaced_hyphen_next_pass s :
  spaced_hyphen_next (fix_css_prop q s) = spaced_hyphen_next s.
Proof.
  unfold fix_css_prop, re_sub.
  destruct s as [|a s]; [rewrite scan_nil; reflexivity|].
  destruct (scan_step None a s)
    as [E|(a0 & b & W & rest & E & _ & _ & _ & _ & _ & _ & Es)].
  - rewrite E. destruct s as [|b s]; [rewrite scan_nil; reflexivity|].
    destruct (scan_head (Some a) b s) as [t ->]. reflexivity.
  - destruct (head_in is_lower q q_nonempty q_lower) as (z & q0 & Eq & Hz).
    assert (Ea : a = z) by (rewrite Eq in E; cbn [app] in E; congruence).
    destruct (scan_head None a s) as [t ->]. subst a.
    unfold spaced_hyphen_next. rewrite (lower_not_space z Hz).
    destruct t, s; reflexivity.
Qed.

(** A run of letters and hyphens is copied; when its end is the prefix [q]
    and a spaced hyphen and a word follow, the word is joined to it. *)
Lemma scan_run u : forall post prev,
  all_in alpha_hyphen u = true -> stops alpha_hyphen post = true ->
  exists e post',
    sub_from (css_prop_re q) (css_prop_tpl q) prev (u ++ post) 0
      = u ++ e ++ post'
    /\ all_in alpha_hyphen e = true /\ stops alpha_hyphen post' = true
    /\ (spaced_hyphen_next post = false ->
        e = [] /\ post' = fix_css_prop q post).
Proof.
  induction u as [|c u IH]; intros post prev Hu Hpost.
  - exists [], (sub_from (css_prop_re q) (css_prop_tpl q) prev post 0).
    destruct (scan_stops prev post Hpost) as [E S]. cbn [app].
    repeat split; auto.
  - simpl in Hu. apply andb_true_iff in Hu as [Hc Hu]. cbn [app].
    destruct (scan_step prev c (u ++ post))
      as [E|(a & b & W & rest & E & Ha & Hb & HW & HW' & Hr & Hp & Es)].
    + rewrite E. destruct (IH post (Some c) Hu Hpost)
        as (e & post' & E' & He & Hs & Hcalm).
      exists e, post'. rewrite E'.
      split; [reflexivity|]. split; [exact He|]. split; [exact Hs | exact Hcalm].
    + assert (H : c :: u = q /\ post = a :: "-"%char :: b :: W ++ rest).
      { apply (run_unique alpha_hyphen (c :: u) q post _ E).
        - simpl. rewrite Hc. exact Hu.
        - apply (all_in_weaken is_lower);
            [apply lower_alpha_hyphen | exact q_lower].
        - exact Hpost.
        - simpl. rewrite (space_not_alpha_hyphen a Ha). reflexivity. }
      destruct H as [Eu Epost].
      exists ("-"%char :: W),
        (sub_from (css_prop_re q) (css_prop_tpl q) (adv (Some b) W) rest 0).
      rewrite Es.
      split; [rewrite <- Eu; reflexivity|].
      split; [exact HW'|].
      split; [apply (scan_stops _ rest Hr)|].
      intros F. rewrite Epost in F. simpl in F. rewrite Ha in F. discriminate.
Qed.

(** A lower-case word other than [q], or not at a word boundary, is copied. *)
Lemma scan_word p : forall prev post,
  all_in is_lower p = true -> stops is_lower post = true ->
  word_before prev = true \/ p <> q ->
  sub_from (css_prop_re q) (css_prop_tpl q) prev (p ++ post) 0
    = p ++ sub_from (css_prop_re q) (css_prop_tpl q) (adv prev p) post 0.
Proof.
  induction p as [|c p IH]; intros prev post Hp Hpost Hq; [reflexivity|].
  cbn [app]. simpl in Hp. apply andb_true_iff in Hp as [Hc Hp'].
  destruct (scan_step prev c (p ++ post))
    as [E|(a & b & W & rest & E & Ha & Hb & HW & HW' & Hr & Hpv & Es)].
  - rewrite E, adv_cons. f_equal. apply IH; auto.
    left. simpl. apply lower_is_word. exact Hc.
  - exfalso.
    assert (H : c :: p = q /\ post = a :: "-"%char :: b :: W ++ rest).
    { apply (run_unique is_lower (c :: p) q post _ E); auto.
      - simpl. rewrite Hc. exact Hp'.
      - simpl. rewrite (space_not_lower a Ha). reflexivity. }
    destruct H as [Eq _]. destruct Hq as [Hq|Hq]; [congruence | auto].
Qed.

Lemma scan_not_lower prev d s :
  is_lower d = false ->
  sub_from (css_prop_re q) (css_prop_tpl q) prev (d :: s) 0
  = d :: sub_from (css_prop_re q) (css_prop_tpl q) (Some d) s 0.
Proof.
  intros Hd. apply sub_miss.
  apply (css_prop_miss q q_nonempty q_lower). exact Hd.
Qed.

(** Where a lower-case letter follows, an attempt begun before it sees the
    same as if the text ended there, unless a match of [q] is open. *)
Lemma css_tail_cut u z r :
  is_lower z = true ->
  (forall x b h, u = x :: "-"%char :: b :: h ->
                 is_space x = true -> is_space b = true ->
                 all_in alpha_hyphen h = false) ->
  forall prev, mseq css_prop_tail [] prev (u ++ z :: r)
               = lift (z :: r) (mseq css_prop_tail [] prev u).
Proof.
  intros Hz Hopen prev. unfold css_prop_tail.
  destruct u as [|x u].
  { cbn [app]. rewrite mseq_cls, (lower_not_space z Hz). reflexivity. }
  cbn [app]. rewrite !mseq_cls. destruct (is_space x) eqn:Hx; [|reflexivity].
  destruct u as [|y u].
  { cbn [app]. rewrite mseq_lit.
    rewrite (eqb_lower_false z "-"); [reflexivity | reflexivity | exact Hz]. }
  cbn [app]. rewrite !mseq_lit.
  destruct (Ascii.eqb_spec y "-") as [->|]; [|reflexivity].
  destruct u as [|b u].
  { cbn [app]. rewrite mseq_cls, (lower_not_space z Hz). reflexivity. }
  cbn [app]. rewrite !mseq_cls. destruct (is_space b) eqn:Hb; [|reflexivity].
  specialize (Hopen x b u eq_refl Hx Hb).
  destruct (split_run alpha_hyphen u Hopen) as (h & d & t' & -> & Hh & Hd).
  rewrite !mseq_cap.
  destruct h as [|c h].
  - cbn [app]. rewrite !plus_refuses by exact Hd. reflexivity.
  - rewrite <- !app_assoc. cbn [app] in *.
    change (c :: h ++ d :: t' ++ z :: r) with ((c :: h) ++ d :: t' ++ z :: r).
    change (c :: h ++ d :: t') with ((c :: h) ++ d :: t').
    rewrite (plus_greedy alpha_hyphen _ (c :: h) (d :: t' ++ z :: r) (Some b)
               ([c :: h], d :: t' ++ z :: r));
      [ | discriminate | exact Hh | simpl; rewrite Hd; reflexivity | reflexivity ].
    rewrite (plus_greedy alpha_hyphen _ (c :: h) (d :: t') (Some b)
               ([c :: h], d :: t'));
      [ | discriminate | exact Hh | simpl; rewrite Hd; reflexivity | reflexivity ].
    reflexivity.
Qed.

Lemma css_prop_border pre v u z r :
  is_lower z = true ->
  ends_at_boundary pre = true -> ~ pending q pre ->
  pre = v ++ u -> u <> [] ->
  mseq (css_prop_re q) [] (adv None v) (u ++ z :: r)
  = lift (z :: r) (mseq (css_prop_re q) [] (adv None v) u).
Proof.
  intros Hz Hb Hpend E Hu. unfold css_prop_re. rewrite !mseq_bnd.
  replace (at_boundary (adv None v) (u ++ z :: r))
    with (at_boundary (adv None v) u)
    by (destruct u; [congruence | reflexivity]).
  destruct (at_boundary (adv None v) u) eqn:Hat; [|reflexivity].
  destruct (prefixb q u) eqn:Hpre.
  - apply prefixb_spec in Hpre as [u1 ->].
    rewrite <- app_assoc, !mseq_lits_hit.
    apply (css_tail_cut u1 z r Hz).
    intros x b h -> Hx Hb'.
    destruct (all_in alpha_hyphen h) eqn:Hh; [|reflexivity].
    exfalso. apply Hpend. exists v, x, b, h. repeat split; auto.
    unfold ends_at_boundary. apply negb_true_iff.
    destruct (head_in is_lower q q_nonempty q_lower) as (a & t & Ep & Ha).
    rewrite Ep in Hat. unfold at_boundary in Hat. simpl in Hat.
    rewrite (lower_is_word a Ha) in Hat.
    destruct (word_before (adv None v)); [discriminate | reflexivity].
  - destruct (mseq (lits q ++ css_prop_tail) [] (adv None v) u) as [x|] eqn:Hm.
    { apply mseq_lits_inv in Hm as (s' & -> & _).
      rewrite prefixb_app in Hpre. discriminate. }
    destruct (mseq (lits q ++ css_prop_tail) [] (adv None v) (u ++ z :: r))
      as [x|] eqn:Hm'; [|reflexivity].
    exfalso. apply mseq_lits_inv in Hm' as (s' & Hs' & _).
    apply app_eq_app in Hs' as [l [[E1 E2]|[E1 E2]]].
    + rewrite E1, prefixb_app in Hpre. discriminate.
    + assert (Hl := q_lower). rewrite E1 in Hl.
      apply all_in_app in Hl as [Hlu _].
      destruct (adv_all_in is_lower u Hu Hlu) as (y & Hy & Hly).
      unfold ends_at_boundary in Hb. rewrite E, adv_app in Hb.
      rewrite (adv_nonempty _ None u Hu), Hy in Hb. simpl in Hb.
      rewrite (lower_is_word y Hly) in Hb. discriminate.
Qed.

(** The pass on a text, a joined word and what follows: the text is
    rewritten by itself, the word is kept, and grows when its end is the
    prefix [q] with a spaced hyphen and a word after it. *)
Lemma css_run_pass pre z u post :
  is_lower z = true -> all_in alpha_hyphen u = true ->
  ends_at_boundary pre = true -> ~ pending q pre ->
  stops alpha_hyphen post = true ->
  exists e post',
    fix_css_prop q (pre ++ (z :: u) ++ post)
    = fix_css_prop q pre ++ (z :: u) ++ e ++ post'
    /\ all_in alpha_hyphen e = true /\ stops alpha_hyphen post' = true
    /\ (spaced_hyphen_next post = false ->
        e = [] /\ post' = fix_css_prop q post).
Proof.
  intros Hz Hu Hb Hpend Hpost.
  destruct (scan_run (z :: u) post (adv None pre))
    as (e & post' & E & He & Hs & Hc).
  { simpl. rewrite (lower_alpha_hyphen z Hz). exact Hu. }
  { exact Hpost. }
  exists e, post'. split; [|auto].
  unfold fix_css_prop, re_sub.
  rewrite sub_app_local;
    [ | lia | | apply (css_prop_nil q q_nonempty q_lower) ].
  - rewrite E. reflexivity.
  - intros v x Epre Hx. cbn [app]. apply (css_prop_border pre); auto.
Qed.

(** The pass of [q] on an occurrence of another prefix [p] that is not yet
    joined: the occurrence is kept as it is. *)
Lemma css_other_pass p pre s1 s2 w post :
  p <> [] -> all_in is_lower p = true -> p <> q ->
  ends_at_boundary pre = true -> ~ pending q pre ->
  is_space s1 = true -> is_space s2 = true ->
  all_in alpha_hyphen w = true -> stops alpha_hyphen post = true ->
  exists e post',
    fix_css_prop q (pre ++ p ++ s1 :: "-"%char :: s2 :: w ++ post)
    = fix_css_prop q pre ++ p ++ s1 :: "-"%char :: s2 :: (w ++ e) ++ post'
    /\ all_in alpha_hyphen e = true /\ stops alpha_hyphen post' = true
    /\ (spaced_hyphen_next post = false ->
        e = [] /\ post' = fix_css_prop q post).
Proof.
  intros Hp1 Hp2 Hpq Hb Hpend Hs1 Hs2 Hw Hpost.
  destruct (scan_run w post (Some s2) Hw Hpost)
    as (e & post' & E & He & Hs & Hc).
  exists e, post'. split; [|auto].
  unfold fix_css_prop, re_sub.
  destruct (head_in is_lower p Hp1 Hp2) as (z & p0 & Ep & Hz).
  rewrite sub_app_local;
    [ | lia | | apply (css_prop_nil q q_nonempty q_lower) ].
  - f_equal.
    rewrite scan_word;
      [ | exact Hp2 | simpl; rewrite (space_not_lower s1 Hs1); reflexivity
        | right; exact Hpq ].
    f_equal. rewrite scan_not_lower by (apply space_not_lower; exact Hs1).
    f_equal. rewrite scan_not_lower by reflexivity.
    f_equal. rewrite scan_not_lower by (apply space_not_lower; exact Hs2).
    f_equal. rewrite E. rewrite app_assoc. reflexivity.
  - intros v x Epre Hx. rewrite Ep. cbn [app].
    apply (css_prop_border pre); auto.
Qed.

Lemma pending_from_none x s : pending x s <-> pending_from None x s.
Proof.
  unfold pending, pending_from, ends_at_boundary.
  split; intros (v & a & b & h & E & Hv & R); exists v, a, b, h;
    (split; [exact E|]); (split; [|exact R]).
  - apply negb_true_iff in Hv. exact Hv.
  - apply negb_true_iff. exact Hv.
Qed.

Lemma pending_from_app prev m x s :
  pending_from (adv prev m) x s -> pending_from prev x (m ++ s).
Proof.
  intros (v & a & b & h & -> & Hv & R). exists (m ++ v), a, b, h.
  split; [rewrite <- app_assoc; reflexivity|].
  split; [rewrite adv_app; exact Hv | exact R].
Qed.

Lemma gap_tail_tl a b h c k :
  all_in alpha_hyphen h = true -> gap_tail a b h (c :: k) -> gap_tail a b h k.
Proof.
  intros Hh [(g & Hg & E)|[E|[E|E]]].
  - destruct g as [|c' g]; cbn [app] in E; injection E as -> ->.
    + right. left. reflexivity.
    + left. exists g. simpl in Hg. apply andb_true_iff in Hg as [_ Hg]. auto.
  - injection E as -> ->. right. right. left. reflexivity.
  - injection E as -> ->. right. right. right. exact Hh.
  - right. right. right. simpl in E. apply andb_true_iff in E as [_ E]. exact E.
Qed.

(** When the output of the pass is the end of a text that closes with a
    spaced hyphen and a run of letters and hyphens, the pass has changed
    nothing, unless the text read ends inside a match of [q]. *)
Lemma scan_exact a b h :
  is_space a = true -> is_space b = true -> all_in alpha_hyphen h = true ->
  forall s prev k,
    gap_tail a b h k ->
    sub_from (css_prop_re q) (css_prop_tpl q) prev s 0 = k ->
    s = k \/ pending_from prev q s.
Proof.
  intros Ha Hb Hh.
  apply (scan_ind (fun prev s =>
           forall k,
             gap_tail a b h k ->
             sub_from (css_prop_re q) (css_prop_tpl q) prev s 0 = k ->
             s = k \/ pending_from prev q s)).
  - intros prev k _ E. rewrite scan_nil in E. left. exact E.
  - intros prev c s E IH k Hk Ek. rewrite E in Ek. subst k.
    destruct (IH _ (gap_tail_tl _ _ _ _ _ Hh Hk) eq_refl) as [Es|Hp].
    + left. f_equal. exact Es.
    + right. apply (pending_from_app prev [c]). exact Hp.
  - intros prev a0 b0 W rest Ha0 Hb0 HW HW' Hr Hp E IH k Hk Ek.
    rewrite E in Ek. right.
    assert (Hrest : rest = []).
    { destruct (head_in is_lower q q_nonempty q_lower) as (z & q0 & Eq & Hz).
      destruct Hk as [(g & Hg & Eg)|[Eg|[Eg|Eg]]].
      - exfalso. rewrite Eg in Ek.
        destruct (run_unique is_lower q g _ _ Ek) as [_ F]; auto.
        + simpl. rewrite (space_not_lower a Ha). reflexivity.
        + injection F as F _. rewrite <- F in Ha. vm_compute in Ha.
          discriminate.
      - exfalso. rewrite Eg, Eq in Ek. cbn [app] in Ek.
        injection Ek as Ez _. subst z. vm_compute in Hz. discriminate.
      - exfalso. rewrite Eg, Eq in Ek. cbn [app] in Ek.
        injection Ek as Ez _. subst z.
        rewrite (lower_not_space b Hz) in Hb. discriminate.
      - rewrite <- Ek in Eg. apply all_in_app in Eg as [_ Eg].
        change ("-"%char :: W
                  ++ sub_from (css_prop_re q) (css_prop_tpl q)
                              (adv (Some b0) W) rest 0)
          with (("-"%char :: W)
                  ++ sub_from (css_prop_re q) (css_prop_tpl q)
                              (adv (Some b0) W) rest 0) in Eg.
        apply all_in_app in Eg as [_ Eg].
        destruct rest as [|d rest]; [reflexivity|]. exfalso.
        simpl in Hr. apply negb_true_iff in Hr.
        rewrite (scan_stops_cons _ d rest Hr) in Eg. simpl in Eg.
        rewrite Hr in Eg. discriminate. }
    subst rest. exists [], a0, b0, W. rewrite app_nil_r.
    split; [reflexivity|]. split; [exact Hp|]. auto.
Qed.

(** A match that is open at the end of the output of the pass was open at
    the end of its input, or a match of [q] was. *)
Lemma scan_pending q' :
  all_in is_lower q' = true ->
  forall s prev,
    pending_from prev q' (sub_from (css_prop_re q) (css_prop_tpl q) prev s 0) ->
    pending_from prev q' s \/ pending_from prev q s.
Proof.
  intros Hq'.
  apply (scan_ind (fun prev s =>
           pending_from prev q'
             (sub_from (css_prop_re q) (css_prop_tpl q) prev s 0) ->
           pending_from prev q' s \/ pending_from prev q s)).
  - intros prev (v & a & b & h & E & _). rewrite scan_nil in E.
    exfalso. destruct v; [destruct q'|]; discriminate.
  - intros prev c s E IH (v & a & b & h & Ek & Hv & Ha & Hb & Hh).
    destruct v as [|c' v].
    + cbn [app] in Ek.
      assert (Hk : gap_tail a b h (q' ++ a :: "-"%char :: b :: h))
        by (left; exists q'; auto).
      destruct (scan_exact a b h Ha Hb Hh (c :: s) prev _ Hk Ek) as [Es|Hp].
      * left. exists [], a, b, h. rewrite Es.
        split; [reflexivity|]. split; [exact Hv|]. auto.
      * right. exact Hp.
    + rewrite E in Ek. cbn [app] in Ek. injection Ek as <- Ek.
      destruct IH as [Hp|Hp].
      { exists v, a, b, h. split; [exact Ek|]. split; [exact Hv|]. auto. }
      * left. apply (pending_from_app prev [c]). exact Hp.
      * right. apply (pending_from_app prev [c]). exact Hp.
  - intros prev a0 b0 W rest Ha0 Hb0 HW HW' Hr Hp E IH
           (v & a & b & h & Ek & Hv & Ha & Hb & Hh).
    rewrite E in Ek.
    assert (Hlift : forall x,
               pending_from (adv (Some b0) W) x rest ->
               pending_from prev x (q ++ a0 :: "-"%char :: b0 :: W ++ rest)).
    { intros x Hx.
      replace (q ++ a0 :: "-"%char :: b0 :: W ++ rest)
        with ((q ++ a0 :: "-"%char :: b0 :: W) ++ rest) by reassoc.
      apply pending_from_app. rewrite (adv_match prev a0 b0 W HW). exact Hx. }
    replace (q ++ "-"%char :: W
               ++ sub_from (css_prop_re q) (css_prop_tpl q)
                           (adv (Some b0) W) rest 0)
      with ((q ++ "-"%char :: W)
              ++ sub_from (css_prop_re q) (css_prop_tpl q)
                          (adv (Some b0) W) rest 0)
      in Ek by reassoc.
    apply app_eq_app in Ek as [l [[E1 E2]|[E1 E2]]].
    + assert (Hl : all_in alpha_hyphen l = true).
      { assert (Hall : all_in alpha_hyphen (q ++ "-"%char :: W) = true).
        { apply all_in_join; [|exact HW'].
          apply (all_in_weaken is_lower);
            [apply lower_alpha_hyphen | exact q_lower]. }
        rewrite E1 in Hall. apply all_in_app in Hall as [_ Hall]. exact Hall. }
      destruct rest as [|d rest].
      * exfalso. rewrite scan_nil, app_nil_r in E2. rewrite <- E2 in Hl.
        apply all_in_app in Hl as [_ Hl]. simpl in Hl.
        rewrite (space_not_alpha_hyphen a Ha) in Hl. discriminate.
      * simpl in Hr. apply negb_true_iff in Hr.
        pose proof (scan_stops_cons (adv (Some b0) W) d rest Hr) as Ed.
        assert (Hu : q' = l
                     /\ a :: "-"%char :: b :: h
                        = sub_from (css_prop_re q) (css_prop_tpl q)
                                   (adv (Some b0) W) (d :: rest) 0).
        { apply (run_unique alpha_hyphen q' l _ _ E2).
          - apply (all_in_weaken is_lower);
              [apply lower_alpha_hyphen | exact Hq'].
          - exact Hl.
          - simpl. rewrite (space_not_alpha_hyphen a Ha). reflexivity.
          - rewrite Ed. simpl. rewrite Hr. reflexivity. }
        destruct Hu as [<- Eg].
        assert (Hk : gap_tail a b h (a :: "-"%char :: b :: h))
          by (left; exists []; auto).
        destruct (scan_exact a b h Ha Hb Hh (d :: rest) _ _ Hk (eq_sym Eg))
          as [Er|Hpq]; [|right; apply Hlift; exact Hpq].
        left. rewrite Er.
        apply app_eq_app in E1 as [l2 [[F1 F2]|[F1 F2]]].
        -- exfalso. rewrite F2 in Hq'. apply all_in_app in Hq' as [_ Hq''].
           simpl in Hq''. discriminate.
        -- destruct l2 as [|c2 W1]; cbn [app] in F2.
           ++ exfalso. rewrite <- F2 in Hq'. simpl in Hq'. discriminate.
           ++ injection F2 as <- F2.
              exists (q ++ a0 :: "-"%char :: b0 :: W1), a, b, h.
              split; [rewrite F2; reassoc|]. split; [|auto].
              destruct W1 as [|w1 W1].
              ** change (q ++ [a0; "-"%char; b0])
                   with (q ++ [a0; "-"%char] ++ [b0]).
                 rewrite app_assoc, adv_last. simpl.
                 apply space_not_word. exact Hb0.
              ** rewrite F1 in Hv.
                 rewrite (adv_match prev a0 b0 (w1 :: W1)) by discriminate.
                 rewrite (adv_joined prev b0 (w1 :: W1)) in Hv by discriminate.
                 exact Hv.
    + destruct IH as [Hpp|Hpp].
      { exists l, a, b, h. split; [exact E2|]. split; [|auto].
        rewrite E1, adv_app, (adv_joined prev b0 W HW) in Hv. exact Hv. }
      * left. apply Hlift. exact Hpp.
      * right. apply Hlift. exact Hpp.
Qed.

Lemma pending_after_pass q' s :
  all_in is_lower q' = true ->
  pending q' (fix_css_prop q s) -> pending q' s \/ pending q s.
Proof.
  intros Hq' H. apply pending_from_none in H.
  unfold fix_css_prop, re_sub in H.
  destruct (scan_pending q' Hq' s None H) as [F|F]; [left | right];
    apply pending_from_none; exact F.
Qed.
End CssScan.

(** No match of a listed prefix is open at the end of a text after a pass
    when none was before it. *)
Lemma css_clear_pass q pre :
  In q known_css_props ->
  ends_at_boundary pre = true ->
  (forall q', In q' known_css_props -> ~ pending q' pre) ->
  ends_at_boundary (fix_css_prop q pre) = true
  /\ (forall q', In q' known_css_props -> ~ pending q' (fix_css_prop q pre)).
Proof.
  intros Hq Hb Hp. destruct (known_css_props_lower q Hq) as [Hne Hlow].
  split; [rewrite (fix_css_prop_boundary q Hne Hlow); exact Hb|].
  intros q' Hq' F. destruct (known_css_props_lower q' Hq') as [_ Hlow'].
  destruct (pending_after_pass q Hne Hlow q' pre Hlow' F) as [G|G].
  - exact (Hp q' Hq' G).
  - exact (Hp q Hq G).
Qed.

(** The passes of a part of the list on a text, a joined word and what
    follows. *)
Lemma css_fold_run l :
  (forall q, In q l -> In q known_css_props) ->
  forall pre z u post,
    is_lower z = true -> all_in alpha_hyphen u = true ->
    ends_at_boundary pre = true ->
    (forall q, In q known_css_props -> ~ pending q pre) ->
    stops alpha_hyphen post = true ->
    exists e post',
      fold_left (fun content prop => fix_css_prop prop content) l
                (pre ++ (z :: u) ++ post)
      = fold_left (fun content prop => fix_css_prop prop content) l pre
          ++ (z :: u) ++ e ++ post'
      /\ all_in alpha_hyphen e = true /\ stops alpha_hyphen post' = true
      /\ (spaced_hyphen_next post = false ->
          e = []
          /\ post' = fold_left (fun content prop => fix_css_prop prop content)
                               l post).
Proof.
  induction l as [|q l IH]; intros Hl pre z u post Hz Hu Hb Hp Hs.
  - exists [], post. cbn [fold_left app]. auto.
  - assert (Hq : In q known_css_props) by (apply Hl; left; reflexivity).
    destruct (known_css_props_lower q Hq) as [Hne Hlow].
    destruct (css_run_pass q Hne Hlow pre z u post Hz Hu Hb (Hp q Hq) Hs)
      as (e1 & post1 & E1 & He1 & Hs1 & Hc1).
    destruct (css_clear_pass q pre Hq Hb Hp) as [Hb' Hp'].
    destruct (IH (fun x Hx => Hl x (or_intror Hx)) (fix_css_prop q pre) z
                 (u ++ e1) post1 Hz (all_in_join _ _ _ Hu He1) Hb' Hp' Hs1)
      as (e2 & post2 & E2 & He2 & Hs2 & Hc2).
    exists (e1 ++ e2), post2. cbn [fold_left]. rewrite E1.
    replace ((z :: u) ++ e1 ++ post1) with ((z :: u ++ e1) ++ post1)
      by reassoc.
    rewrite E2.
    split; [reassoc|]. split; [apply all_in_join; assumption|].
    split; [exact Hs2|].
    intros Hc. destruct (Hc1 Hc) as [-> ->].
    destruct Hc2 as [-> ->];
      [rewrite (spaced_hyphen_next_pass q Hne Hlow); exact Hc | auto].
Qed.

(** The passes of a part of the list that holds [p] on a text, an occurrence
    of [p] and what follows. *)
Lemma css_fold_occurrence p s1 s2 :
  In p known_css_props -> is_space s1 = true -> is_space s2 = true ->
  forall l,
    (forall q, In q l -> In q known_css_props) -> In p l ->
    forall pre w post,
      ends_at_boundary pre = true ->
      (forall q, In q known_css_props -> ~ pending q pre) ->
      w <> [] -> all_in alpha_hyphen w = true ->
      stops alpha_hyphen post = true ->
      exists e post',
        fold_left (fun content prop => fix_css_prop prop content) l
                  (pre ++ p ++ s1 :: "-"%char :: s2 :: w ++ post)
        = fold_left (fun content prop => fix_css_prop prop content) l pre
            ++ p ++ "-"%char :: w ++ e ++ post'
        /\ all_in alpha_hyphen e = true /\ stops alpha_hyphen post' = true
        /\ (spaced_hyphen_next post = false ->
            e = []
            /\ post' = fold_left (fun content prop => fix_css_prop prop content)
                                 l post).
Proof.
  intros Hp Hs1 Hs2.
  destruct (known_css_props_lower p Hp) as [Hpne Hplow].
  destruct (head_in is_lower p Hpne Hplow) as (z & p0 & Ep & Hz).
  induction l as [|q l IH]; intros Hl Hin pre w post Hb Hpend Hw Hw' Hs;
    [destruct Hin|].
  assert (Hq : In q known_css_props) by (apply Hl; left; reflexivity).
  destruct (known_css_props_lower q Hq) as [Hne Hlow].
  destruct (css_clear_pass q pre Hq Hb Hpend) as [Hb' Hp'].
  cbn [fold_left]. destruct (text_eq_dec q p) as [->|Hqp].
  - assert (E1 := css_prop_occurrence_gen p Hpne Hplow pre s1 s2 w post
                    Hb (Hpend p Hp) Hs1 Hs2 Hw Hw' Hs).
    cbn [app txt list_ascii_of_string] in E1. rewrite E1.
    destruct (scan_stops p Hpne Hplow None post Hs) as [_ Hs'].
    change (sub_from (css_prop_re p) (css_prop_tpl p) None post 0)
      with (fix_css_prop p post) in Hs'.
    assert (Hu : all_in alpha_hyphen (p0 ++ "-"%char :: w) = true).
    { apply all_in_join; [|exact Hw'].
      assert (H := all_in_weaken is_lower alpha_hyphen p lower_alpha_hyphen Hplow).
      rewrite Ep in H. simpl in H. apply andb_true_iff in H as [_ H]. exact H. }
    destruct (css_fold_run l (fun x Hx => Hl x (or_intror Hx))
                (fix_css_prop p pre) z (p0 ++ "-"%char :: w)
                (fix_css_prop p post) Hz Hu Hb' Hp' Hs')
      as (e & post' & E & He & Hse & Hc).
    exists e, post'.
    replace (p ++ "-"%char :: w ++ fix_css_prop p post)
      with ((z :: p0 ++ "-"%char :: w) ++ fix_css_prop p post)
      by (rewrite Ep; reassoc).
    rewrite E. split; [rewrite Ep; reassoc|].
    split; [exact He|]. split; [exact Hse|].
    intros F. apply Hc. rewrite (spaced_hyphen_next_pass p Hpne Hplow). exact F.
  - assert (Hin' : In p l) by (destruct Hin as [F|F]; [congruence | exact F]).
    destruct (css_other_pass q Hne Hlow p pre s1 s2 w post Hpne Hplow
                (fun F => Hqp (eq_sym F)) Hb (Hpend q Hq) Hs1 Hs2 Hw' Hs)
      as (e1 & post1 & E1 & He1 & Hse1 & Hc1).
    rewrite E1.
    destruct (IH (fun x Hx => Hl x (or_intror Hx)) Hin' (fix_css_prop q pre)
                 (w ++ e1) post1 Hb' Hp')
      as (e2 & post2 & E2 & He2 & Hse2 & Hc2).
    { destruct w; [congruence | discriminate]. }
    { apply all_in_join; assumption. }
    { exact Hse1. }
    exists (e1 ++ e2), post2. rewrite E2.
    split; [reassoc|]. split; [apply all_in_join; assumption|].
    split; [exact Hse2|].
    intros Hc. destruct (Hc1 Hc) as [-> ->].
    destruct Hc2 as [-> ->];
      [rewrite (spaced_hyphen_next_pass q Hne Hlow); exact Hc | auto].
Qed.


(* ================================================================== *)
(** * The properties of the specification *)

(** ** The script's I/O *)

Local Opaque pipeline.

Lemma run_unreadable w :
  file_data w = None -> run w = (Raised, {| disk := w; log := [EvRead] |}).
Proof. intros H. unfold run, script, bind, read_file. cbn. rewrite H. reflexivity. Qed.

Lemma run_unchanged w x :
  file_data w = Some x -> pipeline x = x ->
  run w = (Ok tt, {| disk := w; log := [EvRead; EvPrint msg_unchanged] |}).
Proof.
  intros H E. unfold run, script, bind, read_file. cbn. rewrite H. cbn.
  rewrite E. rewrite (proj2 (text_eqb_spec x x) eq_refl). reflexivity.
Qed.

Lemma text_eqb_neq a b : a <> b -> text_eqb a b = false.
Proof.
  intros H. destruct (text_eqb a b) eqn:E; [|reflexivity].
  apply text_eqb_spec in E. congruence.
Qed.

Lemma run_changed_completes w x :
  file_data w = Some x -> pipeline x <> x -> on_write w = WriteCompletes ->
  run w = (Ok tt, {| disk := set_file w (pipeline x);
                     log := [EvRead; EvWrite (pipeline x); EvPrint msg_fixed] |}).
Proof.
  intros H E Hw. unfold run, script, bind, read_file, write_file. cbn.
  rewrite H. cbn. rewrite (text_eqb_neq _ _ E). cbn. rewrite Hw. reflexivity.
Qed.

Lemma run_changed_writable w x :
  file_data w = Some x -> pipeline x <> x -> file_writable w = true ->
  run w = (Ok tt, {| disk := set_file w (pipeline x);
                     log := [EvRead; EvWrite (pipeline x); EvPrint msg_fixed] |}).
Proof.
  intros H E Hw. apply run_changed_completes; auto.
  unfold file_writable in Hw. destruct (on_write w); [reflexivity | |];
    discriminate.
Qed.

Lemma run_changed_refused w x :
  file_data w = Some x -> pipeline x <> x -> on_write w = OpenRefused ->
  run w = (Raised, {| disk := w; log := [EvRead; EvWrite (pipeline x)] |}).
Proof.
  intros H E Hw. unfold run, script, bind, read_file, write_file. cbn.
  rewrite H. cbn. rewrite (text_eqb_neq _ _ E). cbn. rewrite Hw. reflexivity.
Qed.

Lemma run_changed_broken w x n :
  file_data w = Some x -> pipeline x <> x -> on_write w = WriteBreaksAfter n ->
  run w = (Raised, {| disk := set_file w (firstn n (pipeline x));
                      log := [EvRead; EvWrite (pipeline x)] |}).
Proof.
  intros H E Hw. unfold run, script, bind, read_file, write_file. cbn.
  rewrite H. cbn. rewrite (text_eqb_neq _ _ E). cbn. rewrite Hw. reflexivity.
Qed.

(** A content that needs repair is handed to the write, once, however the
    write goes. *)
Lemma written_changed w x :
  file_data w = Some x -> pipeline x <> x -> written (run w) = [pipeline x].
Proof.
  intros H E. destruct (on_write w) as [| |n] eqn:Hw.
  - rewrite (run_changed_completes w x H E Hw). reflexivity.
  - rewrite (run_changed_refused w x H E Hw). reflexivity.
  - rewrite (run_changed_broken w x n H E Hw). reflexivity.
Qed.

(** ** The passes on the sample texts of the specification *)

Example opening_tag_sample :
  fix_opening_tags (txt "< div class") = txt "<div class".
Proof. vm_compute. reflexivity. Qed.

Example attr_equals_sample :
  fix_attr_equals (txt "style = " ++ [dquote] ++ txt "color:red" ++ [dquote])
  = txt "style=" ++ [dquote] ++ txt "color:red" ++ [dquote].
Proof. vm_compute. reflexivity. Qed.

Example selector_sample :
  fix_selectors (txt ".mp-mode - btn") = txt ".mp-mode-btn"
  /\ fix_selectors (txt "left - right") = txt "left - right".
Proof. split; vm_compute; reflexivity. Qed.

(** The replacement scan follows Python on empty matches as well. *)
Example empty_match_sample :
  replace [] (txt "-") (txt "abc") = txt "-a-b-c-".
Proof. vm_compute. reflexivity. Qed.

(** ** C1: idempotence of the pipeline *)

(** C1, counterexample.  On the content [data - order = ] followed by a
    double quote, the first run only closes up the equals sign (pass 4 runs
    after pass 3), giving [data - order=] and the quote; on that text pass 3
    matches, so a second run gives [data-order=] and the quote: the pipeline
    applied twice differs from the pipeline applied once. *)
Lemma pipeline_not_idempotent :
  pipeline sample_attr = txt "data - order=" ++ [dquote]
  /\ pipeline (pipeline sample_attr) = txt "data-order=" ++ [dquote]
  /\ pipeline (pipeline sample_attr) <> pipeline sample_attr.
Proof.
  assert (H1 : pipeline sample_attr = txt "data - order=" ++ [dquote])
    by (vm_compute; reflexivity).
  assert (H2 : pipeline (pipeline sample_attr) = txt "data-order=" ++ [dquote])
    by (vm_compute; reflexivity).
  repeat split; auto. rewrite H2, H1. vm_compute. discriminate.
Qed.

(** C1, amended.  When the output of the pipeline shows no trace of the
    corruption (no whitespace directly before a hyphen or an equals sign, none
    directly after [<] or [</]), running the pipeline again leaves it as it
    is: [pipeline (pipeline x) = pipeline x].  On every input a run never
    lengthens the text and shortens it whenever it changes it, so repeated
    runs reach a text that further runs leave alone, after at most as many
    runs as the input has characters. *)
Theorem pipeline_repeated_runs (x : text) :
  (corrupt (pipeline x) = false -> pipeline (pipeline x) = pipeline x)
  /\ length (pipeline x) <= length x
  /\ (pipeline x <> x -> length (pipeline x) < length x)
  /\ pipeline (Nat.iter (length x) pipeline x) = Nat.iter (length x) pipeline x.
Proof.
  destruct (pipeline_shrinking x) as [L E].
  split; [apply pipeline_tidy|]. split; [exact L|].
  split; [|apply pipeline_settles; lia].
  intros N. assert (length (pipeline x) <> length x) by (intros F; apply N, E, F).
  lia.
Qed.

Lemma pipeline_repeated_runs_witness :
  corrupt (pipeline sample_div) = false
  /\ pipeline (pipeline sample_div) = pipeline sample_div.
Proof.
  assert (H : corrupt (pipeline sample_div) = false) by (vm_compute; reflexivity).
  split; [exact H | apply (proj1 (pipeline_repeated_runs sample_div) H)].
Defined.

(** ** C2: the file is rewritten exactly when the content changed *)

(** C2.  Let [x] be the content read.  When [pipeline x = x] nothing is
    written, the world is the one before the run and the only line printed is
    "No changes needed".  When [pipeline x <> x] exactly one write is made, of
    [pipeline x]; with a writable file it is stored and the only line printed
    is "Fixed corruption in menu.ts".  So a write happens if and only if the
    content changed. *)
Theorem rewrite_iff_changed (w : world) (x : text) :
  file_data w = Some x ->
  (pipeline x = x ->
     written (run w) = [] /\ disk (snd (run w)) = w
     /\ stdout (run w) = [msg_unchanged] /\ fst (run w) = Ok tt)
  /\ (pipeline x <> x ->
        written (run w) = [pipeline x]
        /\ (file_writable w = true ->
              final_file (run w) = Some (pipeline x)
              /\ stdout (run w) = [msg_fixed] /\ fst (run w) = Ok tt))
  /\ (written (run w) <> [] <-> pipeline x <> x).
Proof.
  intros H. split; [|split].
  - intros E. rewrite (run_unchanged w x H E). repeat split.
  - intros E. split; [apply (written_changed w x H E)|].
    intros Hw. rewrite (run_changed_writable w x H E Hw). repeat split.
  - destruct (text_eq_dec (pipeline x) x) as [E|E].
    + rewrite (run_unchanged w x H E). cbn. split; intros F; congruence.
    + split; [auto|]. intros _. rewrite (written_changed w x H E). discriminate.
Qed.

Lemma rewrite_iff_changed_witness :
  final_file (run (sample_world sample_div)) = Some (pipeline sample_div)
  /\ stdout (run (sample_world sample_div)) = [msg_fixed].
Proof.
  destruct (rewrite_iff_changed (sample_world sample_div) sample_div eq_refl)
    as (_ & Hchanged & _).
  destruct Hchanged as (_ & Hw).
  - vm_compute. discriminate.
  - destruct (Hw eq_refl) as (Hf & Hs & _). split; [exact Hf | exact Hs].
Defined.

Local Transparent pipeline.

(** ** C3: the full scenario *)

(** C3.  The pipeline turns [<div class="mp - room - details"> text </ div>]
    into [<div class="mp-room-details"> text </div>]. *)
Theorem full_scenario :
  pipeline sample_div
  = txt "<div class=" ++ [dquote] ++ txt "mp-room-details" ++ [dquote]
        ++ txt "> text </div>".
Proof. vm_compute. reflexivity. Qed.

(** ** C4: the hyphenated-attribute pass *)

(** C4, counterexample.  In [data  -  order=] the word [data] is followed by
    whitespace, a hyphen, whitespace, the word [order] and an equals sign, but
    the whitespace is two characters long on each side: pass 3 leaves the text
    as it is.  In [my_data - order=] the word [data] is followed by one
    whitespace character, the hyphen, one whitespace character, [order] and the
    equals sign, but it stands directly after an underscore: the text is left
    as it is as well. *)
Lemma attr_hyphen_misses :
  (all_in alnum (txt "data") = true /\ all_in is_space (txt "  ") = true
   /\ all_in alnum (txt "order") = true
   /\ fix_attr_hyphen (txt "data" ++ txt "  " ++ txt "-" ++ txt "  "
                         ++ txt "order" ++ txt "=")
      = txt "data  -  order="
   /\ fix_attr_hyphen (txt "data" ++ txt "  " ++ txt "-" ++ txt "  "
                         ++ txt "order" ++ txt "=")
      <> txt "data-order=")
  /\ (is_space " " = true
      /\ fix_attr_hyphen (txt "my_" ++ txt "data" ++ txt " " ++ txt "-" ++ txt " "
                            ++ txt "order" ++ txt "=")
         = txt "my_data - order="
      /\ fix_attr_hyphen (txt "my_" ++ txt "data" ++ txt " " ++ txt "-" ++ txt " "
                            ++ txt "order" ++ txt "=")
         <> txt "my_data-order=").
Proof.
  split.
  - repeat split; try (vm_compute; reflexivity). vm_compute. discriminate.
  - repeat split; try (vm_compute; reflexivity). vm_compute. discriminate.
Qed.

(** C4, amended.  Wherever a word of [[a-zA-Z0-9]] characters that begins
    where a word can begin (at the start of the text or after a non-word
    character) is followed by exactly one whitespace character, a hyphen,
    exactly one whitespace character, another such word and an equals sign,
    pass 3 joins the two words with a single hyphen before the equals sign,
    and rewrites the text before and the text after in the same way.  In
    particular [data - order=] becomes [data-order=]. *)
Theorem attr_hyphen_pass (pre w1 : text) (s1 s2 : ascii) (w2 post : text) :
  ends_at_boundary pre = true ->
  w1 <> [] -> all_in alnum w1 = true ->
  is_space s1 = true -> is_space s2 = true ->
  w2 <> [] -> all_in alnum w2 = true ->
  fix_attr_hyphen (pre ++ w1 ++ [s1] ++ txt "-" ++ [s2] ++ w2 ++ txt "=" ++ post)
  = fix_attr_hyphen pre ++ w1 ++ txt "-" ++ w2 ++ txt "=" ++ fix_attr_hyphen post
  /\ fix_attr_hyphen (txt "data - order=") = txt "data-order=".
Proof.
  intros. split; [apply attr_hyphen_occurrence; assumption|].
  vm_compute. reflexivity.
Qed.

Lemma attr_hyphen_pass_witness :
  fix_attr_hyphen (txt "<a data - order=1 x - y=2>")
  = txt "<a data-order=1 x-y=2>".
Proof.
  assert (E1 : fix_attr_hyphen (txt "<a ") = txt "<a ") by (vm_compute; reflexivity).
  assert (E2 : fix_attr_hyphen (txt "1 x - y=2>") = txt "1 x-y=2>")
    by (vm_compute; reflexivity).
  assert (H := proj1 (attr_hyphen_pass (txt "<a ") (txt "data") " " " "
                        (txt "order") (txt "1 x - y=2>")
                        eq_refl ltac:(discriminate) eq_refl eq_refl eq_refl
                        ltac:(discriminate) eq_refl)).
  rewrite E1, E2 in H. exact H.
Defined.

(** ** C5: the known-property pass *)

(** C5, counterexample.  In [box - box - shadow] the second [box] stands at a
    word boundary and is followed by whitespace, a hyphen, whitespace and the
    word [shadow], yet it is not rewritten: the match of the first [box] takes
    the second one as its trailing word, and the scan goes on after it.  In
    [align - text - align - x] the second [align] is lost in the same way,
    once the pass of [text] has joined [text-align] and the pass of [align]
    takes that as the trailing word of the first [align].  In
    [box  -  shadow] the whitespace on each side of the hyphen is two
    characters long, and nothing is rewritten. *)
Lemma known_property_misses :
  (In (txt "box") known_css_props
   /\ ends_at_boundary (txt "box - ") = true
   /\ fix_css_props (txt "box - " ++ txt "box" ++ txt " " ++ txt "-" ++ txt " "
                       ++ txt "shadow")
      = txt "box-box - shadow"
   /\ fix_css_props (txt "box - " ++ txt "box" ++ txt " " ++ txt "-" ++ txt " "
                       ++ txt "shadow")
      <> fix_css_props (txt "box - ") ++ txt "box" ++ txt "-" ++ txt "shadow")
  /\ (In (txt "align") known_css_props
      /\ ends_at_boundary (txt "align - text - ") = true
      /\ fix_css_props (txt "align - text - " ++ txt "align" ++ txt " "
                          ++ txt "-" ++ txt " " ++ txt "x")
         = txt "align-text-align - x"
      /\ fix_css_props (txt "align - text - " ++ txt "align" ++ txt " "
                          ++ txt "-" ++ txt " " ++ txt "x")
         <> fix_css_props (txt "align - text - ") ++ txt "align" ++ txt "-"
              ++ txt "x")
  /\ (all_in is_space (txt "  ") = true
      /\ fix_css_props (txt "box" ++ txt "  " ++ txt "-" ++ txt "  "
                          ++ txt "shadow")
         = txt "box  -  shadow").
Proof.
  split; [|split].
  - split; [left; reflexivity|]. split; [reflexivity|].
    split; [vm_compute; reflexivity | vm_compute; discriminate].
  - split; [vm_compute; tauto|]. split; [reflexivity|].
    split; [vm_compute; reflexivity | vm_compute; discriminate].
  - split; vm_compute; reflexivity.
Qed.

(** C5, amended.  The pass makes one substitution for each prefix of the list,
    in list order.  Take an occurrence in the document of a listed prefix at
    a word boundary, followed by one whitespace character, a hyphen, one
    whitespace character and a maximal run [w] of letters and hyphens, and
    suppose that no match of a listed prefix is open where the occurrence
    begins ([pending]: a listed prefix at a word boundary, a whitespace
    character, a hyphen, a whitespace character, and nothing but letters and
    hyphens up to the occurrence).  Then the whole pass rewrites the
    occurrence to prefix, hyphen, [w], after the text before it rewritten by
    itself.  The joined word grows by [e] when [w] ends with a listed prefix
    that is itself followed by a spaced hyphen and a word; when no spaced
    hyphen follows the occurrence, [e] is empty and the text after is
    rewritten by itself.  [box - shadow: 2px] becomes [box-shadow: 2px] and
    [Free - For:] is left unchanged. *)
Theorem known_property_pass (prop pre : text) (s1 s2 : ascii) (w post : text) :
  In prop known_css_props ->
  ends_at_boundary pre = true ->
  (forall q, In q known_css_props -> ~ pending q pre) ->
  is_space s1 = true -> is_space s2 = true ->
  w <> [] -> all_in alpha_hyphen w = true -> stops alpha_hyphen post = true ->
  (exists e t,
     fix_css_props (pre ++ prop ++ [s1] ++ txt "-" ++ [s2] ++ w ++ post)
     = fix_css_props pre ++ prop ++ txt "-" ++ w ++ e ++ t
     /\ all_in alpha_hyphen e = true /\ stops alpha_hyphen t = true
     /\ (spaced_hyphen_next post = false ->
         e = [] /\ t = fix_css_props post))
  /\ fix_css_props (txt "box - shadow: 2px") = txt "box-shadow: 2px"
  /\ fix_css_props (txt "Free - For:") = txt "Free - For:".
Proof.
  intros Hin Hb Hp Hs1 Hs2 Hw Hw' Hpost.
  split; [|split; vm_compute; reflexivity].
  destruct (css_fold_occurrence prop s1 s2 Hin Hs1 Hs2 known_css_props
              (fun q Hq => Hq) Hin pre w post Hb Hp Hw Hw' Hpost)
    as (e & t & E & He & Ht & Hc).
  exists e, t. split; [|split; [exact He | split; [exact Ht | exact Hc]]].
  unfold fix_css_props. cbn [app txt list_ascii_of_string]. exact E.
Qed.

(** A text whose last character is neither a letter nor a hyphen, and whose
    last but one is no hyphen, ends in no open match. *)
Lemma not_pending_snoc prop pre y z :
  y <> "-"%char -> alpha_hyphen z = false -> ~ pending prop (pre ++ [y; z]).
Proof.
  intros Hy Hz (v & a & b & h & E & _ & _ & _ & Hh).
  apply (f_equal (@rev ascii)) in E.
  rewrite !rev_app_distr in E. cbn [rev app] in E.
  rewrite <- !app_assoc in E. cbn [app] in E.
  destruct (rev h) as [|c t] eqn:Er; cbn [app] in E.
  - injection E as _ E _. congruence.
  - injection E as E _. subst c.
    assert (Hin : In z h) by (apply in_rev; rewrite Er; left; reflexivity).
    unfold all_in in Hh. rewrite forallb_forall in Hh.
    rewrite (Hh z Hin) in Hz. discriminate.
Qed.

Lemma known_property_pass_witness :
  fix_css_props (txt "p { text - align: center; }")
  = txt "p { text-align: center; }".
Proof.
  destruct (proj1 (known_property_pass (txt "text") (txt "p { ") " " " "
                     (txt "align") (txt ": center; }")
                     ltac:(right; left; reflexivity) eq_refl
                     (fun q _ => not_pending_snoc q (txt "p ") "{" " "
                                   ltac:(discriminate) eq_refl)
                     eq_refl eq_refl ltac:(discriminate) eq_refl eq_refl))
    as (e & t & E & _ & _ & Hc).
  destruct (Hc eq_refl) as [He Ht]. rewrite He, Ht in E.
  assert (E1 : fix_css_props (txt "p { ") = txt "p { ")
    by (vm_compute; reflexivity).
  assert (E2 : fix_css_props (txt ": center; }") = txt ": center; }")
    by (vm_compute; reflexivity).
  rewrite E1, E2 in E. exact E.
Defined.

(** ** C6: the closing-tag pass *)

(** C6.  Wherever [</] is followed by one or more whitespace characters, a
    tag name of [[a-zA-Z0-9]] characters and [>], pass 1 removes the
    whitespace, and rewrites the text before and the text after in the same
    way; [</ div>] becomes [</div>] and [</   span>] becomes [</span>].  The
    pass is the first of the pipeline: the opening-tag pass works on its
    output. *)
Theorem closing_tag_pass (pre ws name post : text) :
  ws <> [] -> all_in is_space ws = true ->
  name <> [] -> all_in alnum name = true ->
  fix_closing_tags (pre ++ txt "</" ++ ws ++ name ++ txt ">" ++ post)
  = fix_closing_tags pre ++ txt "</" ++ name ++ txt ">" ++ fix_closing_tags post
  /\ fix_closing_tags (txt "</ div>") = txt "</div>"
  /\ fix_closing_tags (txt "</   span>") = txt "</span>"
  /\ (forall x, pipeline x
                = fix_prose (fix_selectors (prefixes_loop (fix_css_props
                    (fix_attr_equals (fix_attr_hyphen
                       (fix_opening_tags (fix_closing_tags x)))))))).
Proof.
  intros. split; [apply closing_tag_occurrence; assumption|].
  split; [vm_compute; reflexivity|].
  split; [vm_compute; reflexivity|]. reflexivity.
Qed.

Lemma closing_tag_pass_witness :
  fix_closing_tags (txt "<p>a</   p><b>c</ b>") = txt "<p>a</p><b>c</b>".
Proof.
  assert (E1 : fix_closing_tags (txt "<p>a") = txt "<p>a") by (vm_compute; reflexivity).
  assert (E2 : fix_closing_tags (txt "<b>c</ b>") = txt "<b>c</b>")
    by (vm_compute; reflexivity).
  assert (H := proj1 (closing_tag_pass (txt "<p>a") (txt "   ") (txt "p")
                        (txt "<b>c</ b>")
                        ltac:(discriminate) eq_refl ltac:(discriminate) eq_refl)).
  rewrite E1, E2 in H. exact H.
Defined.

(** ** C7: the write comes after the whole transformation *)

(** C7, counterexample.  The content [<div class="mp - room - details"> text
    </ div>] needs repair.  When the write breaks after ten characters have
    reached the file, which [open(file_path, "w")] had emptied, the run ends
    with the error and the file holds [<div class]: neither the content it had
    nor the repaired content.  When it breaks at once the file is left
    empty. *)
Lemma write_can_leave_prefix :
  file_data (broken_write_world sample_div 10) = Some sample_div
  /\ fst (run (broken_write_world sample_div 10)) = Raised
  /\ final_file (run (broken_write_world sample_div 10)) = Some (txt "<div class")
  /\ final_file (run (broken_write_world sample_div 10)) <> Some sample_div
  /\ final_file (run (broken_write_world sample_div 10))
     <> Some (pipeline sample_div)
  /\ final_file (run (broken_write_world sample_div 0)) = Some [].
Proof.
  split; [reflexivity|]. split; [vm_compute; reflexivity|].
  split; [vm_compute; reflexivity|].
  split; [vm_compute; discriminate|].
  split; [vm_compute; discriminate | vm_compute; reflexivity].
Qed.

Local Opaque pipeline.

(** C7, amended.  When reading the file fails, the run ends with the error, the
    world is the one before the run, nothing is written and nothing is printed.
    In every run at most one write is attempted, and what it is given is the
    output of the whole pipeline on the content read, never the result of only
    some passes.  A run that ends normally leaves the file holding exactly that
    output; a refused opening leaves the world as it was.  The write is not
    atomic: at the end the file is the file at the start, or the whole output,
    or, when the write broke after the opening, the part of the output that
    had reached the file. *)
Theorem write_after_transformation (w : world) :
  (file_data w = None ->
     fst (run w) = Raised /\ disk (snd (run w)) = w
     /\ written (run w) = [] /\ stdout (run w) = [])
  /\ (written (run w) = []
      \/ exists x, file_data w = Some x /\ written (run w) = [pipeline x])
  /\ (fst (run w) = Ok tt ->
      exists x, file_data w = Some x /\ final_file (run w) = Some (pipeline x))
  /\ (on_write w = OpenRefused -> disk (snd (run w)) = w)
  /\ (final_file (run w) = file_data w
      \/ exists x, file_data w = Some x
           /\ (final_file (run w) = Some (pipeline x)
               \/ exists n, on_write w = WriteBreaksAfter n
                    /\ fst (run w) = Raised
                    /\ final_file (run w) = Some (firstn n (pipeline x)))).
Proof.
  split.
  { intros H. rewrite (run_unreadable w H). repeat split. }
  destruct (file_data w) as [x|] eqn:H.
  - destruct (text_eq_dec (pipeline x) x) as [E|E].
    + rewrite (run_unchanged w x H E). unfold final_file, written. cbn.
      split; [left; reflexivity|].
      split; [intros _; exists x; split; [reflexivity | congruence]|].
      split; [reflexivity|]. left. exact H.
    + destruct (on_write w) as [| |n] eqn:Hw.
      * rewrite (run_changed_completes w x H E Hw). unfold final_file, written.
        cbn. split; [right; exists x; auto|].
        split; [intros _; exists x; auto|].
        split; [discriminate|]. right. exists x. auto.
      * rewrite (run_changed_refused w x H E Hw). unfold final_file, written.
        cbn. split; [right; exists x; auto|].
        split; [discriminate|]. split; [reflexivity|]. left. exact H.
      * rewrite (run_changed_broken w x n H E Hw). unfold final_file, written.
        cbn. split; [right; exists x; auto|].
        split; [discriminate|]. split; [discriminate|].
        right. exists x. split; [reflexivity|]. right. exists n. auto.
  - rewrite (run_unreadable w H). unfold final_file, written. cbn.
    split; [left; reflexivity|]. split; [discriminate|].
    split; [reflexivity|]. left. exact H.
Qed.

Local Transparent pipeline.

Lemma write_after_transformation_witness :
  (fst (run missing_file_world) = Raised
   /\ disk (snd (run missing_file_world)) = missing_file_world
   /\ written (run missing_file_world) = []
   /\ stdout (run missing_file_world) = [])
  /\ (exists x, Some sample_div = Some x
        /\ final_file (run (sample_world sample_div)) = Some (pipeline x))
  /\ disk (snd (run (readonly_world sample_div))) = readonly_world sample_div.
Proof.
  split; [|split].
  - exact (proj1 (write_after_transformation missing_file_world) eq_refl).
  - apply (proj1 (proj2 (proj2
             (write_after_transformation (sample_world sample_div))))).
    vm_compute. reflexivity.
  - apply (proj1 (proj2 (proj2 (proj2
             (write_after_transformation (readonly_world sample_div)))))).
    reflexivity.
Defined.

(** ** C8: the prose-phrase pass *)

(** C8.  The table of the pass holds three entries: [Co - op] gives [Co-op],
    [Free -for-All] and [Free - for - All] give [Free-for-All].  Every
    occurrence of a listed literal is replaced, whatever stands before and
    after it, and the text before and after is treated independently; a text
    in which none of the three occurs is not modified. *)
Theorem prose_pass (pre post x : text) :
  (length prose_table = 3
   /\ In (txt "Co - op", txt "Co-op") prose_table
   /\ In (txt "Free -for-All", txt "Free-for-All") prose_table
   /\ In (txt "Free - for - All", txt "Free-for-All") prose_table)
  /\ fix_prose (pre ++ txt "Co - op" ++ post)
     = fix_prose pre ++ txt "Co-op" ++ fix_prose post
  /\ fix_prose (pre ++ txt "Free -for-All" ++ post)
     = fix_prose pre ++ txt "Free-for-All" ++ fix_prose post
  /\ fix_prose (pre ++ txt "Free - for - All" ++ post)
     = fix_prose pre ++ txt "Free-for-All" ++ fix_prose post
  /\ (occursb (txt "Co - op") x = false ->
      occursb (txt "Free -for-All") x = false ->
      occursb (txt "Free - for - All") x = false ->
      fix_prose x = x).
Proof.
  split.
  - repeat split; vm_compute; auto.
  - split; [apply fix_prose_co_op|].
    split; [apply fix_prose_free_a|].
    split; [apply fix_prose_free_b|].
    intros HB HA HC. apply fix_prose_absent; assumption.
Qed.

Lemma prose_pass_witness :
  fix_prose (txt "Modes: Co - op and Free -for-All.")
  = txt "Modes: Co-op and Free-for-All."
  /\ fix_prose (txt "a - b (Free - For)") = txt "a - b (Free - For)".
Proof.
  split.
  - vm_compute. reflexivity.
  - apply (proj2 (proj2 (proj2 (proj2
             (prose_pass [] [] (txt "a - b (Free - For)")))))); reflexivity.
Defined.

(** ** C9: the loop over the selector prefixes does nothing *)

(** C9.  The loop over [prefixes] returns the content it is given, so the
    pipeline and the pipeline without that loop give the same output on every
    input. *)
Theorem prefixes_loop_dead (x : text) :
  prefixes_loop x = x /\ pipeline x = pipeline_without_prefixes_loop x.
Proof.
  split; [apply prefixes_loop_id|].
  unfold pipeline, pipeline_without_prefixes_loop.
  rewrite prefixes_loop_id. reflexivity.
Qed.

(** ** C10: the run is determined by the content read and by the write *)


Local Opaque pipeline.


Local Transparent pipeline.


(* ================================================================== *)
(** * Further properties of the code *)

(** ** Pass 2: opening tags *)

Lemma opening_tag_match prev ws name post :
  ws <> [] -> all_in is_space ws = true ->
  name <> [] -> all_in alnum name = true -> stops alnum post = true ->
  mseq opening_tag_re [] prev ("<"%char :: ws ++ name ++ post) = Some ([name], post).
Proof.
  intros Hws1 Hws2 Hn1 Hn2 Hpost. unfold opening_tag_re.
  rewrite mseq_lit. cbn [Ascii.eqb Bool.eqb].
  rewrite mseq_plus, plus_commit;
    [ | | exact Hws1 | exact Hws2
      | apply (stops_head is_space alnum); auto using alnum_not_space ].
  - rewrite mseq_cap. apply plus_greedy; auto.
  - intros acc pv c s Hc. rewrite mseq_cap. apply plus_refuses.
    apply space_not_alnum. exact Hc.
Qed.

Lemma opening_tag_local u r prev :
  u <> [] ->
  mseq opening_tag_re [] prev (u ++ "<"%char :: r)
  = lift ("<"%char :: r) (mseq opening_tag_re [] prev u).
Proof.
  intros Hu. destruct u as [|a u]; [congruence|].
  unfold opening_tag_re. rewrite <- app_comm_cons, !mseq_lit.
  destruct (Ascii.eqb a "<"); [|reflexivity].
  apply mseq_cut. reflexivity.
Qed.

(** A pattern that begins with a literal does not look at the character
    before. *)
Lemma sub_prev_lit c r tpl p1 p2 s :
  sub_from (Lit c :: r) tpl p1 s 0 = sub_from (Lit c :: r) tpl p2 s 0.
Proof. destruct s; reflexivity. Qed.

(** X1.  Wherever [<] is followed by one or more whitespace characters and a
    maximal run of [[a-zA-Z0-9]] characters, pass 2 removes the whitespace,
    and rewrites the text before and the text after independently.  The
    pass does not look at what the [<] is: a comparison such as [a < b] is
    closed up as well. *)
Theorem opening_tag_pass (pre ws name post : text) :
  ws <> [] -> all_in is_space ws = true ->
  name <> [] -> all_in alnum name = true -> stops alnum post = true ->
  fix_opening_tags (pre ++ txt "<" ++ ws ++ name ++ post)
  = fix_opening_tags pre ++ txt "<" ++ name ++ fix_opening_tags post.
Proof.
  intros Hws1 Hws2 Hn1 Hn2 Hpost. unfold fix_opening_tags.
  pose (m := ("<"%char :: ws ++ name)).
  replace (txt "<" ++ ws ++ name ++ post) with (m ++ post) by (unfold m; reassoc).
  rewrite (sub_occurrence opening_tag_re opening_tag_tpl pre m post [name]).
  - cbn [opening_tag_tpl expand flat_map nth pred].
    rewrite app_nil_r. reassoc.
  - intros v u _ Hu. unfold m. cbn [app]. apply opening_tag_local. exact Hu.
  - reflexivity.
  - discriminate.
  - unfold m. cbn [app]. rewrite <- app_assoc. apply opening_tag_match; auto.
  - apply sub_prev_lit.
Qed.

Lemma opening_tag_pass_witness :
  fix_opening_tags (txt "if (a < b) { x = < div>; }")
  = txt "if (a <b) { x = <div>; }".
Proof.
  assert (E1 : fix_opening_tags (txt "if (a ") = txt "if (a ")
    by (vm_compute; reflexivity).
  assert (E2 : fix_opening_tags (txt ") { x = < div>; }") = txt ") { x = <div>; }")
    by (vm_compute; reflexivity).
  assert (H := opening_tag_pass (txt "if (a ") (txt " ") (txt "b")
                 (txt ") { x = < div>; }")
                 ltac:(discriminate) eq_refl ltac:(discriminate) eq_refl eq_refl).
  rewrite E1, E2 in H. exact H.
Defined.

(** ** Pass 4: spaces around the equals sign *)

Lemma alnum_hyphen_not_space c : alnum_hyphen c = true -> is_space c = false.
Proof.
  intros H. destruct (is_space c) eqn:E; [|reflexivity].
  rewrite (space_not_alnum_hyphen c E) in H. discriminate.
Qed.

Lemma starts_alnum_inv w :
  starts_alnum w = true -> exists a w', w = a :: w' /\ alnum a = true.
Proof. destruct w as [|a w]; [discriminate|]. simpl. eauto. Qed.

Lemma attr_equals_match prev w s1 s2 post :
  word_before prev = false ->
  starts_alnum w = true -> all_in alnum_hyphen w = true ->
  is_space s1 = true -> is_space s2 = true ->
  mseq attr_equals_re [] prev (w ++ s1 :: "="%char :: s2 :: dquote :: post)
  = Some ([w], post).
Proof.
  intros Hprev Hw Hw' Hs1 Hs2. unfold attr_equals_re.
  destruct (starts_alnum_inv w Hw) as (a & w' & E & Ha).
  rewrite mseq_bnd.
  replace (at_boundary prev (w ++ s1 :: "="%char :: s2 :: dquote :: post)) with true.
  2:{ rewrite E. unfold at_boundary. rewrite Hprev. simpl.
      rewrite (alnum_is_word a Ha). reflexivity. }
  rewrite mseq_cap, plus_commit;
    [ | | rewrite E; discriminate | exact Hw'
      | simpl; rewrite (space_not_alnum_hyphen s1 Hs1); reflexivity ].
  2:{ intros acc pv c s Hc. rewrite mseq_cls.
      rewrite (alnum_hyphen_not_space c Hc). reflexivity. }
  rewrite mseq_cls, Hs1, mseq_lit. cbn [Ascii.eqb Bool.eqb].
  rewrite mseq_cls, Hs2, mseq_lit. unfold dquote. cbn. reflexivity.
Qed.

Lemma attr_equals_tails w s1 rest :
  starts_alnum w = true -> 
  tails_fail [Cap alnum_hyphen; Cls is_space; Lit "="; Cls is_space; Lit dquote]
             (w ++ s1 :: rest).
Proof.
  intros Hw. destruct (starts_alnum_inv w Hw) as (a & w' & E & Ha).
  cbn [tails_fail]. repeat split; intros Hne caps prev; try congruence;
    rewrite E; cbn [app].
  - rewrite mseq_cls, (alnum_not_space a Ha). reflexivity.
  - rewrite mseq_lit.
    rewrite (eqb_alnum_false a "="); [reflexivity | reflexivity | exact Ha].
  - rewrite mseq_cls, (alnum_not_space a Ha). reflexivity.
  - rewrite mseq_lit.
    rewrite (eqb_alnum_false a dquote); [reflexivity | reflexivity | exact Ha].
Qed.

Lemma ends_clear_last pre :
  ends_clear pre = true ->
  pre = [] \/ exists z, adv None pre = Some z /\ is_word z = false
                        /\ alnum_hyphen z = false.
Proof.
  unfold ends_clear. destruct (adv None pre) as [z|] eqn:E.
  - intros H. apply andb_true_iff in H as [H1 H2].
    apply negb_true_iff in H1. apply negb_true_iff in H2.
    right. exists z. repeat split; auto.
    unfold alnum_hyphen. rewrite (word_false_alnum z H1), H2. reflexivity.
  - intros _. left. destruct pre as [|c pre]; [reflexivity|]. exfalso.
    revert c E. induction pre as [|b pre IH]; intros c E; [discriminate|].
    apply (IH b). exact E.
Qed.

(** X2.  Wherever an attribute name (letters, digits and hyphens, beginning
    with a letter or digit, the text before being empty or ending with a
    character that is neither a word character nor a hyphen) is followed by a
    whitespace character, an equals sign, a whitespace character and a double
    quote, pass 4 removes the two whitespace characters, and rewrites the text
    before and the text after independently. *)
Theorem attr_equals_pass (pre w : text) (s1 s2 : ascii) (post : text) :
  ends_clear pre = true ->
  starts_alnum w = true -> all_in alnum_hyphen w = true ->
  is_space s1 = true -> is_space s2 = true ->
  fix_attr_equals (pre ++ w ++ [s1] ++ txt "=" ++ [s2] ++ [dquote] ++ post)
  = fix_attr_equals pre ++ w ++ txt "=" ++ [dquote] ++ fix_attr_equals post.
Proof.
  intros Hb Hw Hw' Hs1 Hs2. unfold fix_attr_equals.
  pose (m := w ++ [s1; "="%char; s2; dquote]).
  replace (w ++ [s1] ++ txt "=" ++ [s2] ++ [dquote] ++ post) with (m ++ post)
    by (unfold m; reassoc).
  assert (Em : m ++ post = w ++ s1 :: "="%char :: s2 :: dquote :: post)
    by (unfold m; reassoc).
  rewrite (sub_occurrence attr_equals_re attr_equals_tpl pre m post [w]).
  - cbn [attr_equals_tpl expand flat_map nth pred]. rewrite app_nil_r. reassoc.
  - intros v u E Hu. rewrite Em.
    destruct (ends_clear_last pre Hb) as [->|(z & Hz & Hzw & Hzh)].
    + destruct v; destruct u; discriminate || congruence.
    + unfold attr_equals_re. rewrite !mseq_bnd.
      replace (at_boundary (adv None v) (u ++ w ++ s1 :: "="%char :: s2 :: dquote :: post))
        with (at_boundary (adv None v) u)
        by (destruct u; [congruence | reflexivity]).
      destruct (at_boundary (adv None v) u); [|reflexivity].
      apply (mseq_local_last z); auto.
      * cbn [closed_at]. rewrite Hzh. reflexivity.
      * apply attr_equals_tails. exact Hw.
      * rewrite E, adv_app in Hz. rewrite <- Hz. apply adv_nonempty. exact Hu.
  - intros prev. unfold attr_equals_re. rewrite mseq_bnd.
    destruct (at_boundary prev []); reflexivity.
  - unfold m. destruct w; discriminate.
  - rewrite Em. apply attr_equals_match; auto.
    destruct (ends_clear_last pre Hb) as [->|(z & Hz & Hzw & _)];
      [reflexivity | rewrite Hz; exact Hzw].
  - unfold m.
    replace (pre ++ w ++ [s1; "="%char; s2; dquote])
      with ((pre ++ w ++ [s1; "="%char; s2]) ++ [dquote]) by reassoc.
    rewrite adv_last. apply sub_prev. reflexivity.
Qed.

Lemma attr_equals_pass_witness :
  fix_attr_equals (txt "<div data-id = " ++ [dquote] ++ txt "7" ++ [dquote] ++ txt ">")
  = txt "<div data-id=" ++ [dquote] ++ txt "7" ++ [dquote] ++ txt ">".
Proof.
  assert (E1 : fix_attr_equals (txt "<div ") = txt "<div ")
    by (vm_compute; reflexivity).
  assert (E2 : fix_attr_equals (txt "7" ++ [dquote] ++ txt ">")
               = txt "7" ++ [dquote] ++ txt ">")
    by (vm_compute; reflexivity).
  assert (H := attr_equals_pass (txt "<div ") (txt "data-id") " " " "
                 (txt "7" ++ [dquote] ++ txt ">")
                 eq_refl eq_refl eq_refl eq_refl eq_refl).
  rewrite E1, E2 in H. exact H.
Defined.

(** ** Only whitespace is ever removed *)

Lemma ws_removed_refl x : ws_removed x x.
Proof. induction x; constructor; assumption. Qed.

Lemma ws_removed_app x1 y1 x2 y2 :
  ws_removed x1 y1 -> ws_removed x2 y2 -> ws_removed (x1 ++ x2) (y1 ++ y2).
Proof.
  intros H1 H2. induction H1; cbn [app]; [exact H2 | |];
    constructor; assumption.
Qed.

Lemma ws_removed_nil_inv z : ws_removed [] z -> z = [].
Proof. intros H. inversion H. reflexivity. Qed.

Lemma ws_removed_trans x y z :
  ws_removed x y -> ws_removed y z -> ws_removed x z.
Proof.
  intros H. revert z. induction H as [|c x y H IH|c x y Hc H IH]; intros z Hz.
  - exact Hz.
  - inversion Hz as [|c' y' z' Hz' |c' y' z' Hc' Hz']; subst.
    + apply ws_removed_keep, IH, Hz'.
    + apply ws_removed_drop; [exact Hc' | apply IH, Hz'].
  - apply ws_removed_drop; [exact Hc | apply IH, Hz].
Qed.

Lemma ws_removed_spaces ws y z :
  all_in is_space ws = true -> ws_removed y z -> ws_removed (ws ++ y) z.
Proof.
  induction ws as [|c ws IH]; intros H Hy; [exact Hy|].
  simpl in H. apply andb_true_iff in H as [Hc H].
  cbn [app]. apply ws_removed_drop; auto.
Qed.

Lemma ws_removedb_sound x : forall y, ws_removedb x y = true -> ws_removed x y.
Proof.
  induction x as [|c x IH]; intros y H.
  - destruct y; [constructor | discriminate].
  - cbn [ws_removedb] in H. apply orb_true_iff in H as [H|H].
    + destruct y as [|d y]; [discriminate|].
      apply andb_true_iff in H as [E H]. apply Ascii.eqb_eq in E. subst d.
      apply ws_removed_keep, IH, H.
    + apply andb_true_iff in H as [Hc H]. apply ws_removed_drop; auto.
Qed.

Lemma ws_removed_length x y : ws_removed x y -> length y <= length x.
Proof. induction 1; simpl; lia. Qed.

Lemma ws_removed_non_space x y : ws_removed x y -> non_space y = non_space x.
Proof.
  unfold non_space. induction 1 as [|c x y H IH|c x y Hc H IH]; cbn [filter].
  - reflexivity.
  - rewrite IH. reflexivity.
  - rewrite Hc. exact IH.
Qed.

Lemma skipn_app_exact (m r : text) : skipn (length m) (m ++ r) = r.
Proof. induction m; [reflexivity | assumption]. Qed.

Lemma mseq_plus_inv_in p r caps prev s x :
  mseq (Plus p :: r) caps prev s = Some x ->
  exists w s', s = w ++ s' /\ w <> [] /\ all_in p w = true
               /\ mseq r caps (adv prev w) s' = Some x.
Proof.
  rewrite mseq_plus. intros H.
  apply plus_sound in H as (c & w & s' & -> & Hc & Hw & H).
  exists (c :: w), s'. repeat split; [discriminate | | exact H].
  simpl. rewrite Hc, Hw. reflexivity.
Qed.

Section WsScan.
Variables (pat : regex) (tpl : template).

(** The replacement of every match is the match without some whitespace. *)
Hypothesis anatomy :
  forall prev s caps rest,
    mseq pat [] prev s = Some (caps, rest) ->
    exists m, s = m ++ rest /\ m <> [] /\ ws_removed m (expand tpl caps).

Lemma sub_from_ws_removed s :
  forall prev skip, skip <= length s ->
    ws_removed (skipn skip s) (sub_from pat tpl prev s skip).
Proof.
  induction s as [|c s IH]; intros prev skip Hskip.
  - simpl in Hskip. assert (skip = 0) as -> by lia. cbn [sub_from skipn].
    destruct (mseq pat [] prev []) as [[caps rest]|] eqn:E; [|constructor].
    apply anatomy in E as (m & E & Hm & _).
    destruct m; [congruence | discriminate].
  - destruct skip as [|k]; cbn [sub_from skipn].
    + destruct (mseq pat [] prev (c :: s)) as [[caps rest]|] eqn:E.
      * apply anatomy in E as (m & E & Hm & Hws).
        destruct m as [|c' m]; [congruence|].
        cbn [app] in E. injection E as <- ->.
        replace (Nat.eqb (length rest) (length (c :: m ++ rest))) with false
          by (symmetry; apply Nat.eqb_neq; cbn [length]; rewrite length_app; lia).
        replace (length (m ++ rest) - length rest) with (length m)
          by (rewrite length_app; lia).
        change (c :: m ++ rest) with ((c :: m) ++ rest).
        apply ws_removed_app; [exact Hws|].
        rewrite <- (skipn_app_exact m rest) at 1.
        apply IH. rewrite length_app. lia.
      * apply ws_removed_keep. apply (IH (Some c) 0). lia.
    + apply IH. simpl in Hskip. lia.
Qed.

Lemma re_sub_ws_removed s : ws_removed s (re_sub pat tpl s).
Proof. apply (sub_from_ws_removed s None 0). lia. Qed.
End WsScan.

Lemma closing_tag_anatomy prev s caps rest :
  mseq closing_tag_re [] prev s = Some (caps, rest) ->
  exists m, s = m ++ rest /\ m <> [] /\ ws_removed m (expand closing_tag_tpl caps).
Proof.
  unfold closing_tag_re. intros H.
  apply mseq_lit_inv in H as (s1 & -> & H).
  apply mseq_lit_inv in H as (s2 & -> & H).
  apply mseq_plus_inv_in in H as (ws & s3 & -> & _ & Hws & H).
  apply mseq_cap_inv in H as (name & s4 & -> & _ & H).
  apply mseq_lit_inv in H as (s5 & -> & H).
  apply mseq_end_inv in H as [-> ->].
  exists ("<"%char :: "/"%char :: ws ++ name ++ [">"%char]).
  split; [reassoc|]. split; [discriminate|].
  cbn [closing_tag_tpl expand flat_map nth pred app txt list_ascii_of_string].
  do 2 apply ws_removed_keep. apply ws_removed_spaces; [exact Hws|].
  rewrite ?app_nil_r. apply ws_removed_refl.
Qed.

Lemma opening_tag_anatomy prev s caps rest :
  mseq opening_tag_re [] prev s = Some (caps, rest) ->
  exists m, s = m ++ rest /\ m <> [] /\ ws_removed m (expand opening_tag_tpl caps).
Proof.
  unfold opening_tag_re. intros H.
  apply mseq_lit_inv in H as (s1 & -> & H).
  apply mseq_plus_inv_in in H as (ws & s3 & -> & _ & Hws & H).
  apply mseq_cap_inv in H as (name & s4 & -> & _ & H).
  apply mseq_end_inv in H as [-> ->].
  exists ("<"%char :: ws ++ name).
  split; [reassoc|]. split; [discriminate|].
  cbn [opening_tag_tpl expand flat_map nth pred app txt list_ascii_of_string].
  apply ws_removed_keep. apply ws_removed_spaces; [exact Hws|].
  rewrite ?app_nil_r. apply ws_removed_refl.
Qed.

Lemma attr_hyphen_anatomy prev s caps rest :
  mseq attr_hyphen_re [] prev s = Some (caps, rest) ->
  exists m, s = m ++ rest /\ m <> [] /\ ws_removed m (expand attr_hyphen_tpl caps).
Proof.
  unfold attr_hyphen_re. intros H.
  apply mseq_bnd_inv in H.
  apply mseq_cap_inv in H as (w1 & s1 & -> & H1 & H).
  apply mseq_cls_inv in H as (a & s2 & -> & Ha & H).
  apply mseq_lit_inv in H as (s3 & -> & H).
  apply mseq_cls_inv in H as (b & s4 & -> & Hb & H).
  apply mseq_cap_inv in H as (w2 & s5 & -> & H2 & H).
  apply mseq_lit_inv in H as (s6 & -> & H).
  apply mseq_end_inv in H as [-> ->].
  exists (w1 ++ a :: "-"%char :: b :: w2 ++ ["="%char]).
  split; [reassoc|]. split; [destruct w1; [congruence | discriminate]|].
  cbn [attr_hyphen_tpl expand flat_map nth pred app txt list_ascii_of_string].
  apply ws_removed_app; [apply ws_removed_refl|].
  apply ws_removed_drop; [exact Ha|]. apply ws_removed_keep.
  apply ws_removed_drop; [exact Hb|].
  apply ws_removed_app; [apply ws_removed_refl|]. apply ws_removed_refl.
Qed.

Lemma attr_equals_anatomy prev s caps rest :
  mseq attr_equals_re [] prev s = Some (caps, rest) ->
  exists m, s = m ++ rest /\ m <> [] /\ ws_removed m (expand attr_equals_tpl caps).
Proof.
  unfold attr_equals_re. intros H.
  apply mseq_bnd_inv in H.
  apply mseq_cap_inv in H as (w1 & s1 & -> & H1 & H).
  apply mseq_cls_inv in H as (a & s2 & -> & Ha & H).
  apply mseq_lit_inv in H as (s3 & -> & H).
  apply mseq_cls_inv in H as (b & s4 & -> & Hb & H).
  apply mseq_lit_inv in H as (s5 & -> & H).
  apply mseq_end_inv in H as [-> ->].
  exists (w1 ++ [a; "="%char; b; dquote]).
  split; [reassoc|]. split; [destruct w1; [congruence | discriminate]|].
  cbn [attr_equals_tpl expand flat_map nth pred app].
  apply ws_removed_app; [apply ws_removed_refl|].
  apply ws_removed_drop; [exact Ha|]. apply ws_removed_keep.
  apply ws_removed_drop; [exact Hb|]. apply ws_removed_refl.
Qed.

Lemma css_prop_anatomy prop prev s caps rest :
  prop <> [] ->
  mseq (css_prop_re prop) [] prev s = Some (caps, rest) ->
  exists m, s = m ++ rest /\ m <> []
            /\ ws_removed m (expand (css_prop_tpl prop) caps).
Proof.
  unfold css_prop_re, css_prop_tail. intros Hp H.
  apply mseq_bnd_inv in H.
  apply mseq_lits_inv in H as (s0 & -> & H).
  apply mseq_cls_inv in H as (a & s2 & -> & Ha & H).
  apply mseq_lit_inv in H as (s3 & -> & H).
  apply mseq_cls_inv in H as (b & s4 & -> & Hb & H).
  apply mseq_cap_inv in H as (w & s5 & -> & Hw & H).
  apply mseq_end_inv in H as [-> ->].
  exists (prop ++ a :: "-"%char :: b :: w).
  split; [reassoc|]. split; [destruct prop; [congruence | discriminate]|].
  cbn [css_prop_tpl expand flat_map nth pred app txt list_ascii_of_string].
  apply ws_removed_app; [apply ws_removed_refl|].
  apply ws_removed_drop; [exact Ha|]. apply ws_removed_keep.
  apply ws_removed_drop; [exact Hb|].
  rewrite ?app_nil_r. apply ws_removed_refl.
Qed.

Section WsReplace.
Variables (a : ascii) (old' new : text).
Hypothesis new_from_old : ws_removed (a :: old') new.

Lemma replace_from_ws_removed s :
  forall skip, skip <= length s ->
    ws_removed (skipn skip s) (replace_from (a :: old') new s skip).
Proof.
  induction s as [|c s IH]; intros skip Hskip.
  - simpl in Hskip. assert (skip = 0) as -> by lia. constructor.
  - destruct skip as [|k]; cbn [replace_from skipn].
    + destruct (prefixb (a :: old') (c :: s)) eqn:E.
      * apply prefixb_spec in E as [r Hr]. cbn [app] in Hr.
        injection Hr as -> ->.
        change (a :: old' ++ r) with ((a :: old') ++ r).
        apply ws_removed_app; [exact new_from_old|].
        replace (length (a :: old') - 1) with (length old') by (simpl; lia).
        rewrite <- (skipn_app_exact old' r) at 1.
        apply IH. rewrite length_app. lia.
      * apply ws_removed_keep. apply (IH 0). lia.
    + apply IH. simpl in Hskip. lia.
Qed.
End WsReplace.

Lemma replace_ws_removed old new s :
  old <> [] -> ws_removed old new -> ws_removed s (replace old new s).
Proof.
  intros Hne H. destruct old as [|a old']; [congruence|].
  rewrite replace_unfold. apply (replace_from_ws_removed a old' new H s 0). lia.
Qed.

Lemma fold_ws_removed {A} (step : A -> text -> text) (l : list A) :
  (forall a s, In a l -> ws_removed s (step a s)) ->
  forall s, ws_removed s (fold_left (fun c a => step a c) l s).
Proof.
  induction l as [|a l IH]; intros H s; [apply ws_removed_refl|].
  cbn [fold_left]. apply (ws_removed_trans s (step a s)).
  - apply H. left. reflexivity.
  - apply IH. intros b t Hb. apply H. right. exact Hb.
Qed.

Lemma apply_table_ws_removed tbl s :
  forallb (fun p => negb (Nat.eqb (length (fst p)) 0)
                    && ws_removedb (fst p) (snd p)) tbl = true ->
  ws_removed s (apply_table tbl s).
Proof.
  intros H. unfold apply_table.
  apply (fold_ws_removed (fun p c => replace (fst p) (snd p) c)).
  intros [o n] t Hin. rewrite forallb_forall in H. apply H in Hin.
  cbn [fst snd] in *. apply andb_true_iff in Hin as [H1 H2].
  apply replace_ws_removed; [|apply ws_removedb_sound; exact H2].
  intros ->. discriminate.
Qed.

Lemma pipeline_ws_removed x : ws_removed x (pipeline x).
Proof.
  unfold pipeline.
  eapply ws_removed_trans; [apply (re_sub_ws_removed _ _ closing_tag_anatomy)|].
  eapply ws_removed_trans; [apply (re_sub_ws_removed _ _ opening_tag_anatomy)|].
  eapply ws_removed_trans; [apply (re_sub_ws_removed _ _ attr_hyphen_anatomy)|].
  eapply ws_removed_trans; [apply (re_sub_ws_removed _ _ attr_equals_anatomy)|].
  eapply ws_removed_trans.
  { unfold fix_css_props. apply (fold_ws_removed fix_css_prop).
    intros prop s Hin. destruct (known_css_props_lower prop Hin) as [Hne _].
    apply re_sub_ws_removed. intros prev t caps rest.
    apply css_prop_anatomy. exact Hne. }
  rewrite prefixes_loop_id.
  eapply ws_removed_trans;
    [apply (apply_table_ws_removed selector_table); reflexivity|].
  apply (apply_table_ws_removed prose_table). reflexivity.
Qed.

(** X3.  The pipeline only takes whitespace out: its output is the input with
    some whitespace characters removed, nothing added, nothing else changed
    and nothing moved.  In particular the characters that are not whitespace
    are the same, in the same order, before and after. *)
Theorem pipeline_removes_only_whitespace (x : text) :
  ws_removed x (pipeline x) /\ non_space (pipeline x) = non_space x.
Proof.
  split; [apply pipeline_ws_removed|].
  apply ws_removed_non_space, pipeline_ws_removed.
Qed.

(** ** The script on clean, changed and unwritable files *)

Local Opaque pipeline.

(** X4.  Whatever the script writes is the content it read with some
    whitespace removed and nothing else changed, and it is strictly shorter
    than the content read. *)
Theorem written_content_is_input_less_whitespace (w : world) (x y : text) :
  file_data w = Some x -> In y (written (run w)) ->
  ws_removed x y /\ non_space y = non_space x /\ length y < length x.
Proof.
  intros H Hin.
  assert (Hy : y = pipeline x /\ pipeline x <> x).
  { destruct (text_eq_dec (pipeline x) x) as [E|E].
    - rewrite (run_unchanged w x H E) in Hin. unfold written in Hin.
      cbn in Hin. contradiction.
    - rewrite (written_changed w x H E) in Hin.
      destruct Hin as [<-|[]]. auto. }
  destruct Hy as [-> Hne].
  assert (H1 := pipeline_ws_removed x).
  assert (H2 := ws_removed_non_space _ _ H1).
  destruct (pipeline_shrinking x) as [L E].
  repeat split; auto.
  assert (length (pipeline x) <> length x) by (intros F; apply Hne, E, F). lia.
Qed.

Lemma written_content_is_input_less_whitespace_witness :
  ws_removed sample_div (pipeline sample_div)
  /\ non_space (pipeline sample_div) = non_space sample_div
  /\ length (pipeline sample_div) < length sample_div.
Proof.
  apply (written_content_is_input_less_whitespace (sample_world sample_div));
    [reflexivity|].
  vm_compute. left. reflexivity.
Defined.

(** X6.  On a file whose content shows no trace of the corruption (no
    whitespace directly before a hyphen or an equals sign, none directly
    after [<] or [</]), the empty file among them, the script writes nothing,
    leaves the world as it is and reports that no changes were needed. *)
Theorem clean_file_untouched (w : world) (x : text) :
  file_data w = Some x -> corrupt x = false ->
  run w = (Ok tt, {| disk := w; log := [EvRead; EvPrint msg_unchanged] |}).
Proof.
  intros H Hx. apply (run_unchanged w x H). apply pipeline_tidy. exact Hx.
Qed.

Local Transparent pipeline.

Lemma clean_file_untouched_witness :
  run (sample_world [])
  = (Ok tt, {| disk := sample_world []; log := [EvRead; EvPrint msg_unchanged] |}).
Proof. apply (clean_file_untouched (sample_world []) []); reflexivity. Defined.

(** ** Pass 3 next to an underscore *)

Lemma word_not_space c : is_word c = true -> is_space c = false.
Proof.
  intros H. destruct (is_space c) eqn:E; [|reflexivity].
  rewrite (space_not_word c E) in H. discriminate.
Qed.

Lemma eqb_word_false c x :
  is_word x = false -> is_word c = true -> Ascii.eqb c x = false.
Proof.
  intros Hx Hc. destruct (Ascii.eqb_spec c x) as [->|]; congruence.
Qed.

(** No match begins on a character outside [[a-zA-Z0-9]]. *)
Lemma attr_hyphen_not_at prev c s :
  alnum c = false -> mseq attr_hyphen_re [] prev (c :: s) = None.
Proof.
  intros Hc. unfold attr_hyphen_re. rewrite mseq_bnd.
  destruct (at_boundary prev (c :: s)); [|reflexivity].
  rewrite mseq_cap. apply plus_refuses. exact Hc.
Qed.

(** No match begins inside a word. *)
Lemma attr_hyphen_not_inside prev c s :
  word_before prev = true -> alnum c = true ->
  mseq attr_hyphen_re [] prev (c :: s) = None.
Proof.
  intros Hp Hc. unfold attr_hyphen_re. rewrite mseq_bnd.
  unfold at_boundary. rewrite Hp. simpl. rewrite (alnum_is_word c Hc).
  reflexivity.
Qed.

Lemma attr_hyphen_copies_word w : forall prev rest,
  word_before prev = true -> all_in alnum w = true ->
  sub_from attr_hyphen_re attr_hyphen_tpl prev (w ++ rest) 0
  = w ++ sub_from attr_hyphen_re attr_hyphen_tpl (adv prev w) rest 0.
Proof.
  induction w as [|c w IH]; intros prev rest Hp Hw; [reflexivity|].
  simpl in Hw. apply andb_true_iff in Hw as [Hc Hw].
  cbn [app]. rewrite sub_miss by (apply attr_hyphen_not_inside; assumption).
  rewrite IH; [reflexivity | simpl; apply alnum_is_word; exact Hc | exact Hw].
Qed.

(** A word followed by an equals sign is not the start of a match. *)
Lemma attr_hyphen_not_before_equals prev w rest :
  w <> [] -> all_in alnum w = true ->
  mseq attr_hyphen_re [] prev (w ++ "="%char :: rest) = None.
Proof.
  intros Hne Hw. unfold attr_hyphen_re. rewrite mseq_bnd.
  destruct (at_boundary prev (w ++ "="%char :: rest)); [|reflexivity].
  rewrite mseq_cap, plus_commit; [ | | exact Hne | exact Hw | reflexivity ].
  - reflexivity.
  - intros acc pv c s Hc. rewrite mseq_cls.
    rewrite (alnum_not_space c Hc). reflexivity.
Qed.

Lemma attr_hyphen_unrepaired prev u w1 s1 s2 w2 post :
  is_word u = true -> alnum u = false ->
  all_in alnum w1 = true ->
  is_space s1 = true -> is_space s2 = true ->
  w2 <> [] -> all_in alnum w2 = true ->
  sub_from attr_hyphen_re attr_hyphen_tpl prev
    (u :: w1 ++ s1 :: "-"%char :: s2 :: w2 ++ "="%char :: post) 0
  = u :: w1 ++ s1 :: "-"%char :: s2 :: w2 ++ "="%char :: fix_attr_hyphen post.
Proof.
  intros Hu Hu' H1 Hs1 Hs2 H2 H2'.
  rewrite sub_miss by (apply attr_hyphen_not_at; exact Hu').
  rewrite attr_hyphen_copies_word by (simpl; assumption).
  rewrite sub_miss by (apply attr_hyphen_not_at, space_not_alnum; exact Hs1).
  rewrite sub_miss by (apply attr_hyphen_not_at; reflexivity).
  rewrite sub_miss by (apply attr_hyphen_not_at, space_not_alnum; exact Hs2).
  destruct (head_in alnum w2 H2 H2') as (a & w2' & E & Ha).
  assert (Hno : mseq attr_hyphen_re [] (Some s2) (a :: w2' ++ "="%char :: post) = None).
  { change (a :: w2' ++ "="%char :: post) with ((a :: w2') ++ "="%char :: post).
    rewrite <- E. apply attr_hyphen_not_before_equals; assumption. }
  rewrite E in *. cbn [app]. rewrite (sub_miss _ _ _ _ _ Hno).
  simpl in H2'. apply andb_true_iff in H2' as [_ H2'].
  rewrite attr_hyphen_copies_word by (simpl; auto using alnum_is_word).
  rewrite sub_miss by (apply attr_hyphen_not_at; reflexivity).
  unfold fix_attr_hyphen, re_sub.
  rewrite (sub_prev _ _ (Some "="%char) None) by reflexivity. reflexivity.
Qed.

(** X7.  Pass 3 repairs an attribute name only when it begins at a word
    boundary.  When the first word comes directly after a word character that
    is not itself in [[a-zA-Z0-9]] (an underscore, an accented letter), as in
    [my_data - order=], the occurrence is left as it is; the text before and
    the text after are rewritten as usual. *)
Theorem attr_hyphen_skips_after_word_char
        (pre : text) (u : ascii) (w1 : text) (s1 s2 : ascii) (w2 post : text) :
  is_word u = true -> alnum u = false ->
  all_in alnum w1 = true ->
  is_space s1 = true -> is_space s2 = true ->
  w2 <> [] -> all_in alnum w2 = true ->
  fix_attr_hyphen
    (pre ++ [u] ++ w1 ++ [s1] ++ txt "-" ++ [s2] ++ w2 ++ txt "=" ++ post)
  = fix_attr_hyphen pre
      ++ [u] ++ w1 ++ [s1] ++ txt "-" ++ [s2] ++ w2 ++ txt "="
      ++ fix_attr_hyphen post.
Proof.
  intros Hu Hu' H1 Hs1 Hs2 H2 H2'.
  replace ([u] ++ w1 ++ [s1] ++ txt "-" ++ [s2] ++ w2 ++ txt "=" ++ post)
    with (u :: w1 ++ s1 :: "-"%char :: s2 :: w2 ++ "="%char :: post) by reassoc.
  unfold fix_attr_hyphen at 1 2. unfold re_sub.
  rewrite sub_app_local; [ | lia | | ].
  - rewrite attr_hyphen_unrepaired by assumption. reassoc.
  - intros v u0 E Hne. unfold attr_hyphen_re. rewrite !mseq_bnd.
    replace (at_boundary (adv None v)
               (u0 ++ u :: w1 ++ s1 :: "-"%char :: s2 :: w2 ++ "="%char :: post))
      with (at_boundary (adv None v) u0)
      by (destruct u0; [congruence | reflexivity]).
    destruct (at_boundary (adv None v) u0); [|reflexivity].
    apply mseq_cut. cbn [refuses].
    rewrite Hu', (word_not_space u Hu).
    rewrite (eqb_word_false u "-"), (eqb_word_false u "=") by (reflexivity || exact Hu).
    reflexivity.
  - unfold attr_hyphen_re. rewrite mseq_bnd.
    destruct (at_boundary (adv None pre) []); reflexivity.
Qed.

Lemma attr_hyphen_skips_after_word_char_witness :
  fix_attr_hyphen (txt "<a my_data - order=1 data - id=2>")
  = txt "<a my_data - order=1 data-id=2>".
Proof.
  assert (E1 : fix_attr_hyphen (txt "<a my") = txt "<a my")
    by (vm_compute; reflexivity).
  assert (E2 : fix_attr_hyphen (txt "1 data - id=2>") = txt "1 data-id=2>")
    by (vm_compute; reflexivity).
  assert (H := attr_hyphen_skips_after_word_char (txt "<a my") "_" (txt "data")
                 " " " " (txt "order") (txt "1 data - id=2>")
                 eq_refl eq_refl eq_refl eq_refl eq_refl
                 ltac:(discriminate) eq_refl).
  rewrite E1, E2 in H. exact H.
Defined.

(** ** Where passes 5 and 6 cannot act *)

Lemma occursb_tail_gen old c s : occursb old (c :: s) = false -> occursb old s = false.
Proof.
  cbn [occursb]. intros H. apply orb_false_iff in H as [_ H]. exact H.
Qed.

Lemma occursb_head old s : prefixb old s = true -> occursb old s = true.
Proof. intros H. destruct s; cbn [occursb]; rewrite H; reflexivity. Qed.

Lemma occursb_intro old l r : occursb old (l ++ old ++ r) = true.
Proof.
  induction l as [|c l IH]; cbn [app].
  - apply occursb_head, prefixb_app.
  - cbn [occursb]. rewrite IH. apply orb_true_r.
Qed.

Lemma occursb_within a b s :
  occursb a b = true -> occursb b s = true -> occursb a s = true.
Proof.
  intros Ha Hb. apply occursb_inv in Ha as (l1 & r1 & ->).
  apply occursb_inv in Hb as (l2 & r2 & ->).
  replace (l2 ++ (l1 ++ a ++ r1) ++ r2) with ((l2 ++ l1) ++ a ++ (r1 ++ r2))
    by (rewrite <- !app_assoc; reflexivity).
  apply occursb_intro.
Qed.

Lemma css_prop_needs_prefix prop prev s x :
  mseq (css_prop_re prop) [] prev s = Some x -> occursb prop s = true.
Proof.
  unfold css_prop_re. intros H. apply mseq_bnd_inv in H.
  apply mseq_lits_inv in H as (s' & -> & _).
  apply occursb_head, prefixb_app.
Qed.

Lemma fix_css_prop_absent prop s :
  occursb prop s = false -> fix_css_prop prop s = s.
Proof.
  intros H. unfold fix_css_prop, re_sub.
  apply (sub_no_match _ _ (fun t => negb (occursb prop t))).
  - intros c t Ht. apply negb_true_iff in Ht. apply negb_true_iff.
    apply (occursb_tail_gen prop c). exact Ht.
  - intros prev t Ht. apply negb_true_iff in Ht.
    destruct (mseq (css_prop_re prop) [] prev t) eqn:E; [|reflexivity].
    apply css_prop_needs_prefix in E. congruence.
  - rewrite H. reflexivity.
Qed.

(** X8.  The known-property pass acts only where one of its fifteen prefixes
    stands: a text in which none of them occurs is left as it is. *)
Theorem known_property_pass_needs_prefix (x : text) :
  existsb (fun prop => occursb prop x) known_css_props = false ->
  fix_css_props x = x.
Proof.
  unfold fix_css_props. induction known_css_props as [|prop l IH]; intros H;
    [reflexivity|].
  cbn [existsb] in H. apply orb_false_iff in H as [Hp Hl].
  cbn [fold_left]. rewrite (fix_css_prop_absent prop x Hp). apply IH. exact Hl.
Qed.

Lemma known_property_pass_needs_prefix_witness :
  fix_css_props (txt "Free - For: ALL - IN") = txt "Free - For: ALL - IN".
Proof. apply known_property_pass_needs_prefix. reflexivity. Defined.

Lemma apply_table_absent sep tbl s :
  forallb (fun p => negb (Nat.eqb (length (fst p)) 0) && occursb sep (fst p)) tbl
  = true ->
  occursb sep s = false -> apply_table tbl s = s.
Proof.
  intros Ht Hs. unfold apply_table.
  induction tbl as [|[o n] tbl IH]; [reflexivity|].
  cbn [forallb fst] in Ht. apply andb_true_iff in Ht as [Ho Ht].
  apply andb_true_iff in Ho as [Hne Ho].
  cbn [fold_left fst snd]. rewrite replace_absent'.
  - apply IH. exact Ht.
  - intros ->. discriminate.
  - destruct (occursb o s) eqn:E; [|reflexivity].
    rewrite (occursb_within sep o s Ho E) in Hs. discriminate.
Qed.

(** X9.  Every literal of the selector table contains a hyphen between two
    spaces, so the exact-string pass leaves as it is any text in which no
    hyphen stands between two spaces. *)
Theorem selector_pass_needs_spaced_hyphen (x : text) :
  occursb (txt " - ") x = false -> fix_selectors x = x.
Proof.
  intros H. unfold fix_selectors.
  apply (apply_table_absent (txt " - ")); [reflexivity | exact H].
Qed.

Lemma selector_pass_needs_spaced_hyphen_witness :
  fix_selectors (txt ".mp-mode -btn { top: -4px }") = txt ".mp-mode -btn { top: -4px }".
Proof. apply selector_pass_needs_spaced_hyphen. reflexivity. Defined.

(** ** The two tag passes work tag by tag *)

Lemma mseq_cap_inv_in p r caps prev s x :
  mseq (Cap p :: r) caps prev s = Some x ->
  exists w s', s = w ++ s' /\ w <> [] /\ all_in p w = true
               /\ mseq r (caps ++ [w]) (adv prev w) s' = Some x.
Proof.
  rewrite mseq_cap. intros H.
  apply plus_sound in H as (c & w & s' & -> & Hc & Hw & H).
  exists (c :: w), s'. repeat split; [discriminate | | exact H].
  simpl. rewrite Hc, Hw. reflexivity.
Qed.

Lemma lt_free_app t s : lt_free (t ++ s) = lt_free t && lt_free s.
Proof. apply forallb_app. Qed.

Lemma lt_free_alnum w : all_in alnum w = true -> lt_free w = true.
Proof.
  induction w as [|c w IH]; [reflexivity|]. simpl. intros H.
  apply andb_true_iff in H as [Hc Hw]. rewrite (IH Hw), andb_true_r.
  apply negb_true_iff. apply (eqb_alnum_false c "<"); [reflexivity | exact Hc].
Qed.

(** A text is free of [<], or splits at its last [<]. *)
Lemma split_last_lt s :
  lt_free s = true
  \/ exists pre r, s = pre ++ "<"%char :: r /\ lt_free r = true.
Proof.
  induction s as [|c s IH]; [left; reflexivity|].
  destruct IH as [H|(pre & r & -> & Hr)].
  - destruct (Ascii.eqb_spec c "<") as [->|N].
    + right. exists [], s. auto.
    + left. simpl. rewrite H, andb_true_r. apply negb_true_iff.
      apply Ascii.eqb_neq. exact N.
  - right. exists (c :: pre), r. auto.
Qed.

Section TagScan.
Variables (tl : regex) (tpl : template).
Hypothesis tail_refuses : refuses "<" tl = true.

Let pat : regex := Lit "<" :: tl.

Lemma tag_nil prev : mseq pat [] prev [] = None.
Proof. reflexivity. Qed.

Lemma tag_local u r prev :
  u <> [] ->
  mseq pat [] prev (u ++ "<"%char :: r) = lift ("<"%char :: r) (mseq pat [] prev u).
Proof.
  intros Hu. destruct u as [|a u]; [congruence|].
  unfold pat. rewrite <- app_comm_cons, !mseq_lit.
  destruct (Ascii.eqb a "<"); [|reflexivity].
  apply mseq_cut. exact tail_refuses.
Qed.

(** The scan of a text is the scan of what comes before a [<] followed by
    the scan of what begins there. *)
Lemma tag_cut pre r :
  re_sub pat tpl (pre ++ "<"%char :: r)
  = re_sub pat tpl pre ++ re_sub pat tpl ("<"%char :: r).
Proof.
  unfold re_sub. rewrite sub_app_local; [ | lia | | apply tag_nil ].
  - f_equal; apply sub_prev_lit.
  - intros v u _ Hu. apply tag_local. exact Hu.
Qed.

Lemma tag_copies t : forall s,
  lt_free t = true -> re_sub pat tpl (t ++ s) = t ++ re_sub pat tpl s.
Proof.
  induction t as [|c t IH]; intros s H; [reflexivity|].
  simpl in H. apply andb_true_iff in H as [Hc Ht]. apply negb_true_iff in Hc.
  unfold re_sub in *. cbn [app]. rewrite sub_miss.
  - rewrite (sub_prev_lit "<" tl tpl (Some c) None). rewrite IH by exact Ht.
    reflexivity.
  - unfold pat. rewrite mseq_lit, Hc. reflexivity.
Qed.

Lemma tag_free t : lt_free t = true -> re_sub pat tpl t = t.
Proof.
  intros H. rewrite <- (app_nil_r t) at 1. rewrite tag_copies by exact H.
  rewrite app_nil_r. reflexivity.
Qed.

(** A [<] at which the pattern does not match is copied. *)
Lemma tag_miss r :
  lt_free r = true -> mseq pat [] None ("<"%char :: r) = None ->
  re_sub pat tpl ("<"%char :: r) = "<"%char :: r.
Proof.
  intros Hr Hm.
  assert (E : re_sub pat tpl ("<"%char :: r) = "<"%char :: re_sub pat tpl r).
  { unfold re_sub. rewrite sub_miss by exact Hm. f_equal; apply sub_prev_lit. }
  rewrite E, tag_free by exact Hr. reflexivity.
Qed.

(** A [<] at which the pattern matches [m] is replaced, and what follows the
    match is copied. *)
Lemma tag_hit m rest caps :
  lt_free rest = true ->
  mseq pat [] None ("<"%char :: m ++ rest) = Some (caps, rest) ->
  re_sub pat tpl ("<"%char :: m ++ rest) = expand tpl caps ++ rest.
Proof.
  intros Hr Hm.
  assert (E : re_sub pat tpl ("<"%char :: m ++ rest)
              = expand tpl caps ++ re_sub pat tpl rest).
  { unfold re_sub. rewrite (sub_hit pat tpl None "<" m rest caps Hm).
    f_equal; apply sub_prev_lit. }
  rewrite E, tag_free by exact Hr. reflexivity.
Qed.
End TagScan.

(** What pass 1 does to one tag: a [<] and the text up to the next [<]. *)
Lemma closing_tag_segment r :
  lt_free r = true ->
  fix_closing_tags ("<"%char :: r) = "<"%char :: r
  \/ exists ws name rest,
       r = "/"%char :: ws ++ name ++ ">"%char :: rest
       /\ ws <> [] /\ all_in is_space ws = true
       /\ name <> [] /\ all_in alnum name = true /\ lt_free rest = true
       /\ fix_closing_tags ("<"%char :: r) = "<"%char :: "/"%char :: name ++ ">"%char :: rest.
Proof.
  intros Hr. unfold fix_closing_tags, closing_tag_re.
  destruct (mseq closing_tag_re [] None ("<"%char :: r)) as [[caps rest]|] eqn:E.
  - right. assert (E' := E). unfold closing_tag_re in E'.
    apply mseq_lit_inv in E' as (s1 & Es & H). injection Es as <-.
    apply mseq_lit_inv in H as (s2 & -> & H).
    apply mseq_plus_inv_in in H as (ws & s3 & -> & Hws & Hws' & H).
    apply mseq_cap_inv_in in H as (name & s4 & -> & Hn & Hn' & H).
    apply mseq_lit_inv in H as (s5 & -> & H).
    apply mseq_end_inv in H as [-> <-].
    assert (Hrest : lt_free rest = true).
    { replace ("/"%char :: ws ++ name ++ ">"%char :: rest)
        with (("/"%char :: ws ++ name ++ [">"%char]) ++ rest) in Hr by reassoc.
      rewrite lt_free_app in Hr. apply andb_true_iff in Hr as [_ Hr]. exact Hr. }
    exists ws, name, rest. repeat split; auto.
    replace ("<"%char :: "/"%char :: ws ++ name ++ ">"%char :: rest)
      with ("<"%char :: ("/"%char :: ws ++ name ++ [">"%char]) ++ rest) by reassoc.
    rewrite (tag_hit _ closing_tag_tpl _ rest [name] Hrest).
    + cbn [closing_tag_tpl expand flat_map nth pred]. reassoc.
    + replace ("<"%char :: ("/"%char :: ws ++ name ++ [">"%char]) ++ rest)
        with ("<"%char :: "/"%char :: ws ++ name ++ ">"%char :: rest) by reassoc.
      exact E.
  - left. apply (tag_miss _ closing_tag_tpl r Hr E).
Qed.

(** What pass 2 does to one tag. *)
Lemma opening_tag_segment r :
  lt_free r = true ->
  fix_opening_tags ("<"%char :: r) = "<"%char :: r
  \/ exists ws name rest,
       r = ws ++ name ++ rest
       /\ ws <> [] /\ all_in is_space ws = true
       /\ name <> [] /\ all_in alnum name = true /\ lt_free rest = true
       /\ fix_opening_tags ("<"%char :: r) = "<"%char :: name ++ rest.
Proof.
  intros Hr. unfold fix_opening_tags, opening_tag_re.
  destruct (mseq opening_tag_re [] None ("<"%char :: r)) as [[caps rest]|] eqn:E.
  - right. assert (E' := E). unfold opening_tag_re in E'.
    apply mseq_lit_inv in E' as (s1 & Es & H). injection Es as <-.
    apply mseq_plus_inv_in in H as (ws & s3 & -> & Hws & Hws' & H).
    apply mseq_cap_inv_in in H as (name & s4 & -> & Hn & Hn' & H).
    apply mseq_end_inv in H as [-> <-].
    assert (Hrest : lt_free rest = true).
    { rewrite !lt_free_app in Hr.
      apply andb_true_iff in Hr as [_ Hr]. apply andb_true_iff in Hr as [_ Hr].
      exact Hr. }
    exists ws, name, rest. repeat split; auto.
    replace ("<"%char :: ws ++ name ++ rest)
      with ("<"%char :: (ws ++ name) ++ rest) by reassoc.
    rewrite (tag_hit _ opening_tag_tpl _ rest [name] Hrest).
    + cbn [opening_tag_tpl expand flat_map nth pred]. reassoc.
    + replace ("<"%char :: (ws ++ name) ++ rest)
        with ("<"%char :: ws ++ name ++ rest) by reassoc.
      exact E.
  - left. apply (tag_miss _ opening_tag_tpl r Hr E).
Qed.

Lemma by_tags (P : text -> Prop) :
  (forall t, lt_free t = true -> P t) ->
  (forall pre r, lt_free r = true -> P pre -> P (pre ++ "<"%char :: r)) ->
  forall s, P s.
Proof.
  intros Hfree Hstep s.
  assert (H : forall n t, length t <= n -> P t).
  { induction n as [|n IH]; intros t L.
    - destruct t; [apply Hfree; reflexivity | simpl in L; lia].
    - destruct (split_last_lt t) as [Ht|(pre & r & -> & Hr)].
      + apply Hfree. exact Ht.
      + apply Hstep; [exact Hr|]. apply IH.
        rewrite length_app in L. simpl in L. lia. }
  apply (H (length s)). lia.
Qed.

Lemma closing_tag_cut pre r :
  fix_closing_tags (pre ++ "<"%char :: r)
  = fix_closing_tags pre ++ fix_closing_tags ("<"%char :: r).
Proof.
  apply (tag_cut [Lit "/"; Plus is_space; Cap alnum; Lit ">"] closing_tag_tpl eq_refl).
Qed.

Lemma opening_tag_cut pre r :
  fix_opening_tags (pre ++ "<"%char :: r)
  = fix_opening_tags pre ++ fix_opening_tags ("<"%char :: r).
Proof. apply (tag_cut [Plus is_space; Cap alnum] opening_tag_tpl eq_refl). Qed.

Lemma closing_tag_free t : lt_free t = true -> fix_closing_tags t = t.
Proof.
  apply (tag_free [Lit "/"; Plus is_space; Cap alnum; Lit ">"] closing_tag_tpl).
Qed.

Lemma opening_tag_free t : lt_free t = true -> fix_opening_tags t = t.
Proof. apply (tag_free [Plus is_space; Cap alnum] opening_tag_tpl). Qed.

Lemma slash_head r : prefixb (txt "/") r = true -> exists r', r = "/"%char :: r'.
Proof. intros H. apply prefixb_spec in H as [r' ->]. exists r'. reflexivity. Qed.

(** Pass 1 leaves a tag alone unless a slash follows the [<]. *)
Lemma closing_tag_keeps r :
  lt_free r = true -> prefixb (txt "/") r = false ->
  fix_closing_tags ("<"%char :: r) = "<"%char :: r.
Proof.
  intros Hr Hs. destruct (closing_tag_segment r Hr) as [H|(ws & name & rest & E & _)];
    [exact H|]. rewrite E in Hs. discriminate.
Qed.

(** Pass 2 leaves a tag alone unless whitespace follows the [<]. *)
Lemma opening_tag_keeps r :
  lt_free r = true -> stops is_space r = true ->
  fix_opening_tags ("<"%char :: r) = "<"%char :: r.
Proof.
  intros Hr Hs.
  destruct (opening_tag_segment r Hr) as [H|(ws & name & rest & E & Hws & Hws' & _)];
    [exact H|].
  destruct (head_in is_space ws Hws Hws') as (a & ws' & -> & Ha).
  rewrite E in Hs. simpl in Hs. rewrite Ha in Hs. discriminate.
Qed.

Lemma lt_free_closed name rest :
  all_in alnum name = true -> lt_free rest = true ->
  lt_free ("/"%char :: name ++ ">"%char :: rest) = true.
Proof.
  intros Hn Hr. cbn [lt_free forallb]. fold (lt_free (name ++ ">"%char :: rest)).
  rewrite lt_free_app, (lt_free_alnum name Hn). cbn [lt_free forallb].
  fold (lt_free rest). rewrite Hr. reflexivity.
Qed.

(** The result of pass 1 on a tag, in the form needed below. *)
Lemma closing_tag_result r :
  lt_free r = true ->
  exists e, fix_closing_tags ("<"%char :: r) = "<"%char :: e
            /\ lt_free e = true
            /\ fix_closing_tags ("<"%char :: e) = "<"%char :: e
            /\ (prefixb (txt "/") r = false -> e = r)
            /\ (prefixb (txt "/") r = true -> fix_opening_tags ("<"%char :: e) = "<"%char :: e).
Proof.
  intros Hr.
  destruct (closing_tag_segment r Hr)
    as [H|(ws & name & rest & E & Hws & Hws' & Hn & Hn' & Hrest & H)].
  - exists r. repeat split; auto.
    intros Hs. apply opening_tag_keeps; [exact Hr|].
    apply slash_head in Hs as [r' ->]. reflexivity.
  - exists ("/"%char :: name ++ ">"%char :: rest).
    assert (He : lt_free ("/"%char :: name ++ ">"%char :: rest) = true)
      by (apply lt_free_closed; assumption).
    repeat split; auto.
    + destruct (closing_tag_segment _ He)
        as [H'|(ws' & name' & rest' & E' & Hw1 & Hw2 & _)]; [exact H'|].
      exfalso. injection E' as E'.
      destruct (head_in is_space ws' Hw1 Hw2) as (a & t & -> & Ha).
      destruct (head_in alnum name Hn Hn') as (b & t' & -> & Hb).
      injection E' as -> _. rewrite (alnum_not_space a Hb) in Ha. discriminate.
    + intros Hs. rewrite E in Hs. discriminate.
    + intros _. apply opening_tag_keeps; [exact He | reflexivity].
Qed.

(** The result of pass 2 on a tag. *)
Lemma opening_tag_result r :
  lt_free r = true ->
  exists e, fix_opening_tags ("<"%char :: r) = "<"%char :: e
            /\ lt_free e = true
            /\ fix_opening_tags ("<"%char :: e) = "<"%char :: e
            /\ (prefixb (txt "/") r = true -> e = r)
            /\ (prefixb (txt "/") r = false -> prefixb (txt "/") e = false).
Proof.
  intros Hr.
  destruct (opening_tag_segment r Hr)
    as [H|(ws & name & rest & E & Hws & Hws' & Hn & Hn' & Hrest & H)].
  - exists r. repeat split; auto.
  - exists (name ++ rest).
    assert (He : lt_free (name ++ rest) = true)
      by (rewrite lt_free_app, (lt_free_alnum name Hn'), Hrest; reflexivity).
    destruct (head_in alnum name Hn Hn') as (b & t' & En & Hb).
    destruct (head_in is_space ws Hws Hws') as (a & t & Ew & Ha).
    repeat split; auto.
    + apply opening_tag_keeps; [exact He|]. rewrite En. simpl.
      rewrite (alnum_not_space b Hb). reflexivity.
    + intros Hs. rewrite E, Ew in Hs. apply slash_head in Hs as [r' Hs].
      injection Hs as -> _. discriminate.
    + intros _. rewrite En.
      destruct (prefixb (txt "/") ((b :: t') ++ rest)) eqn:Hs; [|reflexivity].
      apply slash_head in Hs as [r' Hs]. injection Hs as -> _. discriminate.
Qed.

(** X10.  Passes 1 and 2 are each idempotent: applied to its own output, the
    closing-tag pass (and likewise the opening-tag pass) changes nothing. *)
Theorem tag_passes_idempotent (x : text) :
  fix_closing_tags (fix_closing_tags x) = fix_closing_tags x
  /\ fix_opening_tags (fix_opening_tags x) = fix_opening_tags x.
Proof.
  split.
  - apply (by_tags (fun s => fix_closing_tags (fix_closing_tags s)
                             = fix_closing_tags s)).
    + intros t Ht. rewrite !(closing_tag_free t Ht). reflexivity.
    + intros pre r Hr IH. rewrite closing_tag_cut.
      destruct (closing_tag_result r Hr) as (e & E & He & Hfix & _).
      rewrite E, closing_tag_cut, IH, Hfix. reflexivity.
  - apply (by_tags (fun s => fix_opening_tags (fix_opening_tags s)
                             = fix_opening_tags s)).
    + intros t Ht. rewrite !(opening_tag_free t Ht). reflexivity.
    + intros pre r Hr IH. rewrite opening_tag_cut.
      destruct (opening_tag_result r Hr) as (e & E & He & Hfix & _).
      rewrite E, opening_tag_cut, IH, Hfix. reflexivity.
Qed.

(** X11.  Passes 1 and 2 commute: closing tags first and opening tags second
    gives the same text as the other order, on every input. *)
Theorem tag_passes_commute (x : text) :
  fix_opening_tags (fix_closing_tags x) = fix_closing_tags (fix_opening_tags x).
Proof.
  apply (by_tags (fun s => fix_opening_tags (fix_closing_tags s)
                           = fix_closing_tags (fix_opening_tags s))).
  - intros t Ht.
    rewrite (closing_tag_free t Ht), (opening_tag_free t Ht), (closing_tag_free t Ht).
    reflexivity.
  - intros pre r Hr IH. rewrite closing_tag_cut, opening_tag_cut.
    destruct (closing_tag_result r Hr) as (e1 & E1 & He1 & _ & Hk1 & Ho1).
    destruct (opening_tag_result r Hr) as (e2 & E2 & He2 & _ & Hk2 & Hs2).
    rewrite E1, E2, opening_tag_cut, closing_tag_cut, IH. f_equal.
    destruct (prefixb (txt "/") r) eqn:Hs.
    + rewrite (Ho1 eq_refl). rewrite (Hk2 eq_refl). symmetry. exact E1.
    + rewrite (Hk1 eq_refl). rewrite E2.
      symmetry. apply closing_tag_keeps; [exact He2 | apply Hs2; reflexivity].
Qed.
